(** * Blurry-Camera-Alert: the decision layer of [blurry_mvp.py]

    A shallow embedding of the alert engine of [flo_blur_mvp/blurry_mvp.py]:
    the per-camera blur state ([CameraAlertState], [AlertEngine]), the
    windowed per-site aggregation ([SiteAlertAggregator]) and the parser of
    the washdown schedule ([parse_washdown_schedule]), followed by the
    properties of the specification that concern them. The simulator
    ([Simulator.tick], with the generator of random numbers as a parameter)
    and one turn of the loop of [run] come after them, with further
    properties of the code.

    Conventions.
    - A [datetime] is an instant, counted in microseconds (the resolution of
      Python's [datetime]); a [timedelta] is a signed number of microseconds.
    - A Python [dict] is an association list in insertion order with one
      entry per key: the order in which [SiteAlertAggregator.process] emits
      its actions is the iteration order of its dictionaries.
    - [print] calls only write to the standard output and are left out,
      except in [parse_washdown_schedule], whose warnings are returned. *)

From Stdlib Require Import ZArith List String Ascii Bool Lia.
Import ListNotations.
Open Scope Z_scope.

(** ** Python dictionaries keyed by [str] *)

Section Dict.
Context {V : Type}.

Definition dict := list (string * V).

(** [d.get(k)] *)
Fixpoint dict_get (k : string) (d : dict) : option V :=
  match d with
  | [] => None
  | (k', v) :: r => if String.eqb k k' then Some v else dict_get k r
  end.

(** [d[k] = v]: an existing key keeps its position, a new key goes last. *)
Fixpoint dict_set (k : string) (v : V) (d : dict) : dict :=
  match d with
  | [] => [(k, v)]
  | (k', v') :: r =>
      if String.eqb k k' then (k', v) :: r else (k', v') :: dict_set k v r
  end.

(** [d.pop(k, None)], the popped value dropped. *)
Fixpoint dict_pop (k : string) (d : dict) : dict :=
  match d with
  | [] => []
  | (k', v') :: r => if String.eqb k k' then r else (k', v') :: dict_pop k r
  end.

Definition dict_keys (d : dict) : list string := map fst d.
Definition dict_values (d : dict) : list V := map snd d.

(** [k in d] *)
Definition dict_mem (k : string) (d : dict) : bool :=
  match dict_get k d with Some _ => true | None => false end.

(** [not d] *)
Definition dict_is_empty (d : dict) : bool :=
  match d with [] => true | _ :: _ => false end.
End Dict.

Arguments dict V : clear implicits.

(** ** Time *)

Definition datetime := Z.
Definition timedelta := Z.

(** [timedelta(seconds=n)] *)
Definition timedelta_seconds (n : Z) : timedelta := n * 1000000.

(** [datetime.time]: a naive time of day; Python orders naive times as the
    tuples [(hour, minute, second, microsecond)]. *)
Record dtime := mk_dtime {
  hour : Z;
  minute : Z;
  second : Z;
  microsecond : Z
}.

Definition dtime_leb (a b : dtime) : bool :=
  (hour a <? hour b) ||
  ((hour a =? hour b) &&
   ((minute a <? minute b) ||
    ((minute a =? minute b) &&
     ((second a <? second b) ||
      ((second a =? second b) && (microsecond a <=? microsecond b)))))).

(** [dt.astimezone().time()]: the wall-clock time of day of an instant in the
    local zone of the host, which the program takes from its environment. *)
Class LocalZone := { astimezone_time : datetime -> dtime }.

(** ** Data classes *)

Definition DEFAULT_THRESHOLD_SEC : Z := 60.
Definition DEFAULT_SUPPRESS_SEC : Z := 5 * 60.
Definition DEFAULT_AGG_WINDOW_SEC : Z := 45.
Definition DEFAULT_AGG_MIN : Z := 2.
Definition DEFAULT_AGG_SUPPRESS_SEC : Z := 5 * 60.
Definition DEFAULT_SITE_ID : string := "Default".

Record AlertCandidate := mkAlertCandidate {
  camera_id : string;
  line_number : option Z;
  blur_since : datetime;
  ready_at : datetime;
  site_id : string
}.

(** [kind] is the string ["single"] or ["aggregate"]; [action_site_id] is the
    field [site_id] of the action. *)
Record AlertAction := mkAlertAction {
  kind : string;
  candidates : list AlertCandidate;
  action_site_id : string;
  washdown_hint : bool
}.

Record CameraAlertState := mkCameraAlertState {
  is_blurry : bool;
  blur_start : option datetime;
  last_alert_until : option datetime;
  alert_open : bool;
  pending_candidate : bool
}.

(** [CameraAlertState()] *)
Definition CameraAlertState_default : CameraAlertState :=
  mkCameraAlertState false None None false false.

(** ** [simulator.Simulator], as far as the engine uses it *)

Module Simulator.
Record t := mk { state : dict bool }.

Definition set_blurry (camera_id : string) (is_blurry : bool) (s : t) : t :=
  if dict_mem camera_id (state s)
  then mk (dict_set camera_id is_blurry (state s))
  else s.
End Simulator.

(** ** [SiteAlertAggregator] *)

Module SiteAlertAggregator.

Record t := mk {
  window : timedelta;
  min_count : Z;
  suppress : timedelta;
  washdown_schedule : list (dtime * dtime);
  _pending_by_camera : dict AlertCandidate;
  _pending_by_site : dict (dict AlertCandidate);
  _site_cooldown : dict datetime
}.

Definition with_pools (a : t) (by_camera : dict AlertCandidate)
    (by_site : dict (dict AlertCandidate)) : t :=
  mk (window a) (min_count a) (suppress a) (washdown_schedule a)
     by_camera by_site (_site_cooldown a).

Definition with_cooldown (a : t) (cd : dict datetime) : t :=
  mk (window a) (min_count a) (suppress a) (washdown_schedule a)
     (_pending_by_camera a) (_pending_by_site a) cd.

(** [__init__]; [washdown_schedule or []] turns [None] into [[]]. *)
Definition init (window_sec min_count suppress_sec : Z)
    (washdown_schedule : option (list (dtime * dtime))) : t :=
  mk (timedelta_seconds (Z.max 1 window_sec))
     (Z.max 1 min_count)
     (timedelta_seconds (Z.max 1 suppress_sec))
     (match washdown_schedule with Some w => w | None => [] end)
     [] [] [].

(** [enqueue]: [setdefault] creates the pool of a new site at the end of
    [_pending_by_site]; the pool object is then updated in place. *)
Definition enqueue (candidate : AlertCandidate) (a : t) : t :=
  let by_camera := dict_set (camera_id candidate) candidate (_pending_by_camera a) in
  let site_pool :=
    match dict_get (site_id candidate) (_pending_by_site a) with
    | Some p => p
    | None => []
    end in
  with_pools a by_camera
    (dict_set (site_id candidate)
       (dict_set (camera_id candidate) candidate site_pool)
       (_pending_by_site a)).

(** The part of [cancel] and of the second loop of [process] that takes a
    camera out of the pool of a site and prunes the pool when it is left
    empty:
    [site_pool = self._pending_by_site.get(site); if site_pool is not None: ...] *)
Definition drop_from_site (site cam : string)
    (by_site : dict (dict AlertCandidate)) : dict (dict AlertCandidate) :=
  match dict_get site by_site with
  | Some site_pool =>
      let site_pool' := dict_pop cam site_pool in
      if dict_is_empty site_pool'
      then dict_pop site by_site
      else dict_set site site_pool' by_site
  | None => by_site
  end.

Definition cancel (cam : string) (a : t) : t :=
  match dict_get cam (_pending_by_camera a) with
  | None => a
  | Some candidate =>
      with_pools a (dict_pop cam (_pending_by_camera a))
        (drop_from_site (site_id candidate) cam (_pending_by_site a))
  end.

Definition in_range (start end_ local_time : dtime) : bool :=
  if dtime_leb start end_
  then dtime_leb start local_time && dtime_leb local_time end_
  else dtime_leb start local_time || dtime_leb local_time end_.

Section Process.
Context {tz : LocalZone}.

Definition _within_washdown (a : t) (cands : list AlertCandidate) : bool :=
  match washdown_schedule a with
  | [] => false
  | _ :: _ =>
      existsb (fun cand =>
        let local_time := astimezone_time (ready_at cand) in
        existsb (fun w => in_range (fst w) (snd w) local_time)
                (washdown_schedule a))
        cands
  end.

(** [active], the comprehension of the first loop. *)
Definition active_of (now : datetime) (a : t)
    (site_pool : dict AlertCandidate) : list AlertCandidate :=
  filter (fun cand => now - ready_at cand <=? window a) (dict_values site_pool).

(** [not cooldown or now >= cooldown] (a [datetime] is always truthy). *)
Definition cooldown_over (now : datetime) (cooldown : option datetime) : bool :=
  match cooldown with
  | None => true
  | Some c => now >=? c
  end.

(** [for cand in active: pool.pop(cand.camera_id, None)] *)
Definition pop_cameras (active : list AlertCandidate)
    (pool : dict AlertCandidate) : dict AlertCandidate :=
  fold_left (fun d cand => dict_pop (camera_id cand) d) active pool.

(** The test of the first loop:
    [len(active) >= self.min_count] and [not cooldown or now >= cooldown]. *)
Definition quorum (now : datetime) (a : t) (sid : string)
    (site_pool : dict AlertCandidate) : bool :=
  (min_count a <=? Z.of_nat (List.length (active_of now a site_pool))) &&
  cooldown_over now (dict_get sid (_site_cooldown a)).

(** [if not site_pool: self._pending_by_site.pop(site_id, None)] *)
Definition prune (sid : string) (site_pool : dict AlertCandidate) (a : t) : t :=
  if dict_is_empty site_pool
  then with_pools a (_pending_by_camera a) (dict_pop sid (_pending_by_site a))
  else a.

(** One iteration of
    [for site_id, site_pool in list(self._pending_by_site.items())].
    [site_pool] is the pool object listed in the snapshot, the very
    object stored under [site_id]; no iteration touches the pool of
    another site, so what is popped from it is written back under
    [site_id] (nothing is written when the site is no longer listed). *)
Definition aggregate_step (now : datetime)
    (acc : list AlertAction * t) (item : string * dict AlertCandidate)
    : list AlertAction * t :=
  let sid := fst item in
  let site_pool := snd item in
  let a := snd acc in
  let active := active_of now a site_pool in
  if quorum now a sid site_pool
  then
    let site_pool' := pop_cameras active site_pool in
    (fst acc ++ [mkAlertAction "aggregate" active sid (_within_washdown a active)],
     prune sid site_pool'
       (with_cooldown
          (with_pools a
             (pop_cameras active (_pending_by_camera a))
             (if dict_mem sid (_pending_by_site a)
              then dict_set sid site_pool' (_pending_by_site a)
              else _pending_by_site a))
          (dict_set sid (now + suppress a) (_site_cooldown a))))
  else (fst acc, prune sid site_pool a).

(** One iteration of
    [for camera_id, candidate in list(self._pending_by_camera.items())]. *)
Definition single_step (now : datetime)
    (acc : list AlertAction * t) (item : string * AlertCandidate)
    : list AlertAction * t :=
  let cam := fst item in
  let candidate := snd item in
  let a := snd acc in
  if now - ready_at candidate >=? window a
  then (fst acc ++ [mkAlertAction "single" [candidate] (site_id candidate) false],
        with_pools a (dict_pop cam (_pending_by_camera a))
          (drop_from_site (site_id candidate) cam (_pending_by_site a)))
  else acc.

Definition process_aggregates (now : datetime) (a : t) : list AlertAction * t :=
  fold_left (aggregate_step now) (_pending_by_site a) ([], a).

Definition process_singles (now : datetime) (acc : list AlertAction * t)
    : list AlertAction * t :=
  fold_left (single_step now) (_pending_by_camera (snd acc)) acc.

Definition process (now : datetime) (a : t) : list AlertAction * t :=
  process_singles now (process_aggregates now a).
End Process.

End SiteAlertAggregator.

(** ** [AlertEngine] *)

(** The notification surface. A dialog blocks until the human answers; the
    decision layer only sees the answer, so a notifier is the answer given to
    the [n]-th action of a flush. Every answer other than ["clean"] is
    handled as ["ignore"]. *)
Definition Notifier := nat -> AlertAction -> string.

Module AlertEngine.

(** [episode_store] holds the rows appended to the [BlurEpisodeStore]. *)
Record t := mk {
  line_lookup : dict Z;
  site_lookup : dict string;
  simulator : option Simulator.t;
  episode_store : list (string * datetime * datetime);
  threshold : timedelta;
  suppress : timedelta;
  state : dict CameraAlertState;
  aggregator : SiteAlertAggregator.t
}.

Definition with_state (e : t) (st : dict CameraAlertState) : t :=
  mk (line_lookup e) (site_lookup e) (simulator e) (episode_store e)
     (threshold e) (suppress e) st (aggregator e).

Definition with_aggregator (e : t) (a : SiteAlertAggregator.t) : t :=
  mk (line_lookup e) (site_lookup e) (simulator e) (episode_store e)
     (threshold e) (suppress e) (state e) a.

Definition with_collaborators (e : t) (sim : option Simulator.t)
    (episodes : list (string * datetime * datetime)) : t :=
  mk (line_lookup e) (site_lookup e) sim episodes
     (threshold e) (suppress e) (state e) (aggregator e).

Definition init (line_lookup : dict Z) (site_lookup : dict string)
    (simulator : option Simulator.t)
    (episode_store : list (string * datetime * datetime))
    (threshold_sec suppress_sec : Z)
    (aggregate_window_sec aggregate_min aggregate_suppress_sec : Z)
    (washdown_schedule : option (list (dtime * dtime))) : t :=
  mk line_lookup site_lookup simulator episode_store
     (timedelta_seconds (Z.max 0 threshold_sec))
     (timedelta_seconds (Z.max 1 suppress_sec))
     []
     (SiteAlertAggregator.init aggregate_window_sec aggregate_min
        aggregate_suppress_sec washdown_schedule).

(** [self.state.setdefault(camera_id, CameraAlertState())] *)
Definition state_of (cam : string) (e : t) : CameraAlertState :=
  match dict_get cam (state e) with
  | Some st => st
  | None => CameraAlertState_default
  end.

(** The four assignments that put a camera back to clear. *)
Definition reset_clear (st : CameraAlertState) : CameraAlertState :=
  mkCameraAlertState false None None false (pending_candidate st).

(** The branch [if is_blurry:] of [process], on the state object [st]:
    the new state and the candidate to enqueue, if any. *)
Definition observe_blurry (now : datetime) (cam : string) (e : t)
    (st : CameraAlertState) : CameraAlertState * option AlertCandidate :=
  let st1 :=
    if negb (is_blurry st)
    then mkCameraAlertState true (Some now) (last_alert_until st)
           (alert_open st) (pending_candidate st)
    else st in
  let allow_realert :=
    match last_alert_until st1 with
    | Some until_ => negb (alert_open st1 && (now <? until_))
    | None => true
    end in
  match blur_start st1 with
  | Some since =>
      if allow_realert && negb (pending_candidate st1)
      then
        if now - since >=? threshold e
        then
          (mkCameraAlertState (is_blurry st1) (blur_start st1)
             (last_alert_until st1) (alert_open st1) true,
           Some (mkAlertCandidate cam (dict_get cam (line_lookup e)) since now
                   (match dict_get cam (site_lookup e) with
                    | Some s => s
                    | None => DEFAULT_SITE_ID
                    end)))
        else (st1, None)
      else (st1, None)
  | None => (st1, None)
  end.

(** The branch [else:] of [process]: whether the candidate is cancelled, and
    the new state. [_resolve] only prints. *)
Definition observe_clear (st : CameraAlertState) : CameraAlertState :=
  let st1 :=
    if pending_candidate st
    then mkCameraAlertState (is_blurry st) (blur_start st)
           (last_alert_until st) (alert_open st) false
    else st in
  if is_blurry st1 then reset_clear st1 else st1.

Definition process (now : datetime) (cam : string) (blurry : bool) (e : t) : t :=
  let st := state_of cam e in
  if blurry
  then
    let '(st', cand) := observe_blurry now cam e st in
    let e' := with_state e (dict_set cam st' (state e)) in
    match cand with
    | Some c => with_aggregator e' (SiteAlertAggregator.enqueue c (aggregator e))
    | None => e'
    end
  else
    let e' := with_state e (dict_set cam (observe_clear st) (state e)) in
    if pending_candidate st
    then with_aggregator e' (SiteAlertAggregator.cancel cam (aggregator e))
    else e'.

(** One iteration of [for camera_id in camera_ids] in [_after_alert]. *)
Definition after_alert_step (now : datetime) (decision : string)
    (e : t) (cam : string) : t :=
  match dict_get cam (state e) with
  | None => e
  | Some st =>
      if String.eqb decision "clean"
      then
        let sim' := option_map (Simulator.set_blurry cam false) (simulator e) in
        let episodes' :=
          match blur_start st with
          | Some since => episode_store e ++ [(cam, since, now)]
          | None => episode_store e
          end in
        with_state (with_collaborators e sim' episodes')
          (dict_set cam (mkCameraAlertState false None None false false) (state e))
      else
        with_state e
          (dict_set cam
             (mkCameraAlertState (is_blurry st) (blur_start st)
                (Some (now + suppress e)) true false)
             (state e))
  end.

Definition _after_alert (now : datetime) (camera_ids : list string)
    (decision : string) (e : t) : t :=
  fold_left (after_alert_step now decision) camera_ids e.

(** [_handle_single]; [action.candidates[0]] exists, a single action holds
    one candidate. *)
Definition _handle_single (action : AlertAction) (now : datetime)
    (decision : string) (e : t) : t :=
  match candidates action with
  | [] => e
  | candidate :: _ =>
      match dict_get (camera_id candidate) (state e) with
      | None => e
      | Some _ => _after_alert now [camera_id candidate] decision e
      end
  end.

Definition _handle_aggregate (action : AlertAction) (now : datetime)
    (decision : string) (e : t) : t :=
  _after_alert now (map camera_id (candidates action)) decision e.

Definition handle (now : datetime) (notifier : Notifier)
    (acc : nat * t) (action : AlertAction) : nat * t :=
  let decision := notifier (fst acc) action in
  (S (fst acc),
   if String.eqb (kind action) "aggregate"
   then _handle_aggregate action now decision (snd acc)
   else _handle_single action now decision (snd acc)).

Section Flush.
Context {tz : LocalZone}.

Definition flush (now : datetime) (notifier : Notifier) (e : t) : t :=
  let '(dispatches, a') := SiteAlertAggregator.process now (aggregator e) in
  snd (fold_left (handle now notifier) dispatches (0%nat, with_aggregator e a')).
End Flush.

End AlertEngine.

(** ** [parse_washdown_schedule] *)

(** Exceptions of the Python run time that the parser can meet. *)
Inductive exn := ValueError | TypeError.

Inductive py_result (A : Type) :=
| Returned (a : A)
| Raised (e : exn).
Arguments Returned {A} a.
Arguments Raised {A} e.

(** [str.split(sep)] for a one-character separator: every occurrence
    separates, so the result has one more piece than there are separators. *)
Fixpoint split_on (sep : ascii) (s : string) : list string :=
  match s with
  | EmptyString => [EmptyString]
  | String c r =>
      if Ascii.eqb c sep
      then EmptyString :: split_on sep r
      else match split_on sep r with
           | [] => [String c EmptyString]
           | p :: ps => String c p :: ps
           end
  end.

(** [str.isspace] on the code points below 256, which a [string] of Rocq
    can hold: tab, line feed, vertical tab, form feed, carriage return, the
    four separators 28..31, the space, next line (133) and the no-break
    space (160). *)
Definition is_space (c : ascii) : bool :=
  let n := nat_of_ascii c in
  ((9 <=? n) && (n <=? 13))%nat || ((28 <=? n) && (n <=? 32))%nat ||
  (n =? 133)%nat || (n =? 160)%nat.

Fixpoint lstrip (s : string) : string :=
  match s with
  | EmptyString => EmptyString
  | String c r => if is_space c then lstrip r else s
  end.

Fixpoint rstrip (s : string) : string :=
  match s with
  | EmptyString => EmptyString
  | String c r =>
      match rstrip r with
      | EmptyString => if is_space c then EmptyString else String c EmptyString
      | r' => String c r'
      end
  end.

(** [str.strip()] *)
Definition strip (s : string) : string := rstrip (lstrip s).

Definition is_digit (c : ascii) : bool :=
  let n := nat_of_ascii c in ((48 <=? n) && (n <=? 57))%nat.

Definition digit_val (c : ascii) : Z := Z.of_nat (nat_of_ascii c) - 48.

(** The directive [%H] followed by the colon of the format:
    the pattern [2[0-3]|[0-1]\d|\d] and then [:]. *)
Definition parse_hour (s : string) : option (Z * string) :=
  match s with
  | String a (String ":" rest) =>
      if is_digit a then Some (digit_val a, rest) else None
  | String a (String b (String ":" rest)) =>
      if is_digit a && is_digit b && (10 * digit_val a + digit_val b <=? 23)
      then Some (10 * digit_val a + digit_val b, rest)
      else None
  | _ => None
  end.

(** The directive [%M], the pattern [[0-5]\d|\d], which must use up the
    string: data left over is a [ValueError]. *)
Definition parse_minute (s : string) : option Z :=
  match s with
  | String a EmptyString => if is_digit a then Some (digit_val a) else None
  | String a (String b EmptyString) =>
      if is_digit a && is_digit b && (digit_val a <=? 5)
      then Some (10 * digit_val a + digit_val b)
      else None
  | _ => None
  end.

(** [datetime.strptime(s, "%H:%M").time()] *)
Definition strptime_HM (s : string) : py_result dtime :=
  match parse_hour s with
  | Some (h, rest) =>
      match parse_minute rest with
      | Some m => Returned (mk_dtime h m 0 0)
      | None => Raised ValueError
      end
  | None => Raised ValueError
  end.

(** The body of the [try]: unpacking [chunk.split("-")] into two names
    raises [ValueError] unless there are exactly two pieces. *)
Definition parse_window (chunk : string) : py_result (dtime * dtime) :=
  match split_on "-" chunk with
  | [start_str; end_str] =>
      match strptime_HM (strip start_str) with
      | Raised e => Raised e
      | Returned start =>
          match strptime_HM (strip end_str) with
          | Raised e => Raised e
          | Returned end_ => Returned (start, end_)
          end
      end
  | _ => Raised ValueError
  end.

Definition warning (chunk : string) : string :=
  ("[WARN] Could not parse washdown window '" ++ chunk ++
   "'. Expected HH:MM-HH:MM.")%string.

(** One iteration of [for chunk in spec.split(",")]; the accumulator holds
    [windows] and the lines printed so far. [except ValueError] catches that
    exception only: any other one leaves the function. *)
Definition parse_chunk (acc : py_result (list (dtime * dtime) * list string))
    (chunk : string) : py_result (list (dtime * dtime) * list string) :=
  match acc with
  | Raised e => Raised e
  | Returned (windows, printed) =>
      let chunk := strip chunk in
      match chunk with
      | EmptyString => Returned (windows, printed)
      | _ =>
          match parse_window chunk with
          | Returned w => Returned (windows ++ [w], printed)
          | Raised ValueError => Returned (windows, printed ++ [warning chunk])
          | Raised e => Raised e
          end
      end
  end.

(** [parse_washdown_schedule(spec)]: the list returned and the lines
    printed, or the exception that leaves the function. *)
Definition parse_washdown_schedule (spec : option string)
    : py_result (list (dtime * dtime) * list string) :=
  match spec with
  | None => Returned ([], [])
  | Some EmptyString => Returned ([], [])
  | Some s => fold_left parse_chunk (split_on "," s) (Returned ([], []))
  end.

(** ** Concrete values used in the examples *)

(** A host whose local zone is UTC. *)
Definition utc_zone : LocalZone :=
  {| astimezone_time := fun ts =>
       let us := ts mod 86400000000 in
       mk_dtime (us / 3600000000) ((us / 60000000) mod 60)
                ((us / 1000000) mod 60) (us mod 1000000) |}.

Definition cand (cam site : string) (ready : datetime) : AlertCandidate :=
  mkAlertCandidate cam None ready ready site.

(** ** Consistency of the pools of the aggregator *)

(** The two indexes describe the same candidates: every entry of the global
    pool is filed under the camera of its candidate and is listed in the pool
    of its site, every entry of a site pool is listed in the global pool and
    belongs to that site, no site pool is empty, and the configuration is one
    that [__init__] produces. *)
Record agg_wf (a : SiteAlertAggregator.t) : Prop := {
  wf_min_count : 1 <= SiteAlertAggregator.min_count a;
  wf_suppress : 0 < SiteAlertAggregator.suppress a;
  wf_cam_nodup : NoDup (dict_keys (SiteAlertAggregator._pending_by_camera a));
  wf_site_nodup : NoDup (dict_keys (SiteAlertAggregator._pending_by_site a));
  wf_cam : forall k c,
    In (k, c) (SiteAlertAggregator._pending_by_camera a) ->
    camera_id c = k /\
    exists pool, In (site_id c, pool) (SiteAlertAggregator._pending_by_site a) /\
                 In (k, c) pool;
  wf_site : forall s pool,
    In (s, pool) (SiteAlertAggregator._pending_by_site a) ->
    pool <> [] /\ NoDup (dict_keys pool) /\
    forall k c, In (k, c) pool ->
      site_id c = s /\ In (k, c) (SiteAlertAggregator._pending_by_camera a)
}.

(** A checker for [agg_wf], to evaluate it on a given aggregator. *)
Definition option_Z_eqb (x y : option Z) : bool :=
  match x, y with
  | Some a, Some b => a =? b
  | None, None => true
  | _, _ => false
  end.

Definition candidate_eqb (c d : AlertCandidate) : bool :=
  String.eqb (camera_id c) (camera_id d) &&
  option_Z_eqb (line_number c) (line_number d) &&
  (blur_since c =? blur_since d) &&
  (ready_at c =? ready_at d) &&
  String.eqb (site_id c) (site_id d).

Fixpoint nodupb (l : list string) : bool :=
  match l with
  | [] => true
  | x :: r => negb (existsb (String.eqb x) r) && nodupb r
  end.

Definition holds_in (k : string) (c : AlertCandidate)
    (pool : dict AlertCandidate) : bool :=
  match dict_get k pool with
  | Some c' => candidate_eqb c c'
  | None => false
  end.

Definition agg_wfb (a : SiteAlertAggregator.t) : bool :=
  (1 <=? SiteAlertAggregator.min_count a) &&
  (0 <? SiteAlertAggregator.suppress a) &&
  nodupb (dict_keys (SiteAlertAggregator._pending_by_camera a)) &&
  nodupb (dict_keys (SiteAlertAggregator._pending_by_site a)) &&
  forallb (fun kc =>
             String.eqb (camera_id (snd kc)) (fst kc) &&
             match dict_get (site_id (snd kc)) (SiteAlertAggregator._pending_by_site a) with
             | Some pool => holds_in (fst kc) (snd kc) pool
             | None => false
             end)
          (SiteAlertAggregator._pending_by_camera a) &&
  forallb (fun sp =>
             negb (dict_is_empty (snd sp)) &&
             nodupb (dict_keys (snd sp)) &&
             forallb (fun kc =>
                        String.eqb (site_id (snd kc)) (fst sp) &&
                        holds_in (fst kc) (snd kc)
                          (SiteAlertAggregator._pending_by_camera a))
                     (snd sp))
          (SiteAlertAggregator._pending_by_site a).

(** Taking the candidates [cands] of the site [sid] out of both pools, the
    pool of the site being pruned when it is left empty: what [cancel] does
    for one candidate and what the first loop of [process] does for the
    active candidates of a site. *)
Definition remove_cams (sid : string) (cands : list AlertCandidate)
    (a : SiteAlertAggregator.t) : SiteAlertAggregator.t :=
  let pool' :=
    SiteAlertAggregator.pop_cameras cands
      (match dict_get sid (SiteAlertAggregator._pending_by_site a) with
       | Some p => p
       | None => []
       end) in
  SiteAlertAggregator.with_pools a
    (SiteAlertAggregator.pop_cameras cands (SiteAlertAggregator._pending_by_camera a))
    (if dict_is_empty pool'
     then dict_pop sid (SiteAlertAggregator._pending_by_site a)
     else dict_set sid pool' (SiteAlertAggregator._pending_by_site a)).

(** The configuration of an aggregator, which no call changes. *)
Definition same_config (a b : SiteAlertAggregator.t) : Prop :=
  SiteAlertAggregator.window a = SiteAlertAggregator.window b /\
  SiteAlertAggregator.min_count a = SiteAlertAggregator.min_count b /\
  SiteAlertAggregator.suppress a = SiteAlertAggregator.suppress b /\
  SiteAlertAggregator.washdown_schedule a = SiteAlertAggregator.washdown_schedule b.

(** The cameras that an action refers to. *)
Definition action_cameras (act : AlertAction) : list string :=
  map camera_id (candidates act).

Definition dispatched_cameras (acts : list AlertAction) : list string :=
  flat_map action_cameras acts.

Definition dispatched_candidates (acts : list AlertAction) : list AlertCandidate :=
  flat_map candidates acts.

(** The action that the second loop of [process] emits for a candidate. *)
Definition single_action (c : AlertCandidate) : AlertAction :=
  mkAlertAction "single" [c] (site_id c) false.

(** The pool of a site, empty for a site without an entry. *)
Definition site_pool_of (sid : string) (a : SiteAlertAggregator.t)
    : dict AlertCandidate :=
  match dict_get sid (SiteAlertAggregator._pending_by_site a) with
  | Some p => p
  | None => []
  end.

(** Calls made on an aggregator. *)
Inductive agg_op :=
| Enqueue (c : AlertCandidate)
| Cancel (cam : string)
| Process (now : datetime).

Definition enqueues (cam : string) (op : agg_op) : Prop :=
  match op with
  | Enqueue c => camera_id c = cam
  | _ => False
  end.

Section Runs.
Context {tz : LocalZone}.

Definition agg_run_op (a : SiteAlertAggregator.t) (op : agg_op)
    : SiteAlertAggregator.t :=
  match op with
  | Enqueue c => SiteAlertAggregator.enqueue c a
  | Cancel cam => SiteAlertAggregator.cancel cam a
  | Process now => snd (SiteAlertAggregator.process now a)
  end.

Definition agg_run (ops : list agg_op) (a : SiteAlertAggregator.t)
    : SiteAlertAggregator.t :=
  fold_left agg_run_op ops a.

(** The engines that a program can reach: a fresh engine, then any calls of
    [process], [flush] and [_after_alert]. *)
Inductive reachable : AlertEngine.t -> Prop :=
| reach_init : forall ll sl sim eps th sup w m asup wd,
    reachable (AlertEngine.init ll sl sim eps th sup w m asup wd)
| reach_process : forall e now cam blurry,
    reachable e -> reachable (AlertEngine.process now cam blurry e)
| reach_flush : forall e now notifier,
    reachable e -> reachable (AlertEngine.flush now notifier e)
| reach_after_alert : forall e now cams decision,
    reachable e -> reachable (AlertEngine._after_alert now cams decision e).
End Runs.

Section Dispatches.
Context {tz : LocalZone}.

(** What the first loop of [process] emits for one site: an aggregate
    action holding the active candidates of the pool, on quorum and with
    the cooldown over. *)
Definition site_dispatch (now : datetime) (a : SiteAlertAggregator.t)
    (item : string * dict AlertCandidate) : list AlertAction :=
  if SiteAlertAggregator.quorum now a (fst item) (snd item)
  then [mkAlertAction "aggregate"
          (SiteAlertAggregator.active_of now a (snd item)) (fst item)
          (SiteAlertAggregator._within_washdown a
             (SiteAlertAggregator.active_of now a (snd item)))]
  else [].

(** The test of the second loop: [now - candidate.ready_at >= self.window]. *)
Definition aged (now : datetime) (a : SiteAlertAggregator.t)
    (c : AlertCandidate) : bool :=
  now - ready_at c >=? SiteAlertAggregator.window a.

(** The aggregate action of a site. *)
Definition aggregate_action (now : datetime) (a : SiteAlertAggregator.t)
    (sid : string) (pool : dict AlertCandidate) : AlertAction :=
  mkAlertAction "aggregate"
    (SiteAlertAggregator.active_of now a pool) sid
    (SiteAlertAggregator._within_washdown a
       (SiteAlertAggregator.active_of now a pool)).

(** A pooled candidate leaves in the aggregate action of its site: the
    site dispatches and the candidate is active. *)
Definition in_aggregate (now : datetime) (a : SiteAlertAggregator.t)
    (c : AlertCandidate) : bool :=
  SiteAlertAggregator.quorum now a (site_id c) (site_pool_of (site_id c) a) &&
  (now - ready_at c <=? SiteAlertAggregator.window a).

(** The state after one iteration of the first loop. *)
Definition step_state (now : datetime) (a : SiteAlertAggregator.t)
    (sid : string) (pool : dict AlertCandidate) : SiteAlertAggregator.t :=
  if SiteAlertAggregator.quorum now a sid pool
  then SiteAlertAggregator.with_cooldown
         (remove_cams sid (SiteAlertAggregator.active_of now a pool) a)
         (dict_set sid (now + SiteAlertAggregator.suppress a)
            (SiteAlertAggregator._site_cooldown a))
  else a.
End Dispatches.

(** A cooldown of the site [sid] that is recorded and not before [bound],
    in an aggregator whose [suppress] is [sup]. *)
Definition cooling (sup : timedelta) (sid : string) (bound : datetime)
    (a : SiteAlertAggregator.t) : Prop :=
  SiteAlertAggregator.suppress a = sup /\
  exists cd, dict_get sid (SiteAlertAggregator._site_cooldown a) = Some cd /\ bound <= cd.

(** No candidate of the camera [cam] is held in a pool. *)
Definition absent (cam : string) (a : SiteAlertAggregator.t) : Prop :=
  (forall c, In c (dict_values (SiteAlertAggregator._pending_by_camera a)) ->
             camera_id c <> cam) /\
  (forall s p c, In (s, p) (SiteAlertAggregator._pending_by_site a) ->
                 In c (dict_values p) -> camera_id c <> cam).

(** The state of a camera after the answer ["clean"], and after any other
    answer given at a time whose suppression deadline is [until_]. *)
Definition clear_state : CameraAlertState :=
  mkCameraAlertState false None None false false.

Definition ignored_state (until_ : datetime) (st : CameraAlertState) : CameraAlertState :=
  mkCameraAlertState (is_blurry st) (blur_start st) (Some until_) true false.

(** The flag that [set_blurry(camera_id, False)] leaves for a camera. *)
Definition cleared (flag : option bool) : option bool :=
  match flag with Some _ => Some false | None => None end.

(** [self.site_lookup.get(camera_id, DEFAULT_SITE_ID)] *)
Definition site_of (e : AlertEngine.t) (cam : string) : string :=
  match dict_get cam (AlertEngine.site_lookup e) with
  | Some s => s
  | None => DEFAULT_SITE_ID
  end.

(** What holds of the state of a camera in every reachable engine: an open
    alert has a deadline; a pending candidate belongs to a blurry camera and
    is held in the global pool, and when an alert is open as well it was made
    ready at or after the deadline of that alert. *)
Definition state_ok (e : AlertEngine.t) (cam : string) (st : CameraAlertState) : Prop :=
  (alert_open st = true -> last_alert_until st <> None) /\
  (pending_candidate st = true ->
   is_blurry st = true /\
   exists c,
     dict_get cam (SiteAlertAggregator._pending_by_camera (AlertEngine.aggregator e)) = Some c /\
     (alert_open st = true ->
      exists until_, last_alert_until st = Some until_ /\ until_ <= ready_at c)).

Definition engine_inv (e : AlertEngine.t) : Prop :=
  agg_wf (AlertEngine.aggregator e) /\
  (forall k c,
     In (k, c) (SiteAlertAggregator._pending_by_camera (AlertEngine.aggregator e)) ->
     site_id c = site_of e k) /\
  (forall cam st, dict_get cam (AlertEngine.state e) = Some st -> state_ok e cam st).

(** An engine with threshold 0 and a quorum of one whose only camera is
    seen blurry at 0, alerted in the flush at 0, answered ["ignore"], and
    seen blurry again when the suppression of one second is over. *)
Definition ignore_all : Notifier := fun _ _ => "ignore"%string.

Definition demo_engine : AlertEngine.t :=
  AlertEngine.init [] [] None [] 0 1 0 1 1 None.

Definition demo_pending : AlertEngine.t :=
  AlertEngine.process 0 "CAM-01" true demo_engine.

Definition demo_realert : AlertEngine.t :=
  AlertEngine.process 1000000 "CAM-01" true
    (@AlertEngine.flush utc_zone 0 ignore_all
       (AlertEngine.process 0 "CAM-01" true demo_engine)).

(** The invariant of the specification: [pending_candidate] and
    [alert_open] are never both true in a reachable engine. *)
Definition never_pending_and_open {tz : LocalZone} : Prop :=
  forall e cam st,
    reachable e -> dict_get cam (AlertEngine.state e) = Some st ->
    ~ (pending_candidate st = true /\ alert_open st = true).

(** The state of a camera that a response has reached: no candidate is
    pending and an open alert has a deadline. *)
Definition settled (st : option CameraAlertState) : Prop :=
  exists st', st = Some st' /\ pending_candidate st' = false /\
              (alert_open st' = true -> last_alert_until st' <> None).

(** The end-to-end scenario: one camera, [threshold_sec = 0] and
    [aggregate_window_sec = 0], the camera seen blurry at [t0]. *)
Definition e2e_candidate (cam : string) (t0 : datetime) (ll : dict Z)
    (sl : dict string) : AlertCandidate :=
  mkAlertCandidate cam (dict_get cam ll) t0 t0
    (match dict_get cam sl with Some s => s | None => DEFAULT_SITE_ID end).

Definition e2e_observed (cam : string) (t0 : datetime) (ll : dict Z)
    (sl : dict string) (sim : option Simulator.t)
    (eps : list (string * datetime * datetime)) (sup m asup : Z)
    (wd : option (list (dtime * dtime))) : AlertEngine.t :=
  AlertEngine.process t0 cam true (AlertEngine.init ll sl sim eps 0 sup 0 m asup wd).

Definition e2e_cleaned (e : AlertEngine.t) (cam : string)
    (eps : list (string * datetime * datetime)) (since now : datetime) : Prop :=
  AlertEngine.episode_store e = eps ++ [(cam, since, now)] /\
  AlertEngine.state e = [(cam, clear_state)] /\
  SiteAlertAggregator._pending_by_camera (AlertEngine.aggregator e) = [] /\
  SiteAlertAggregator._pending_by_site (AlertEngine.aggregator e) = [].


(** The end-to-end property of the specification: the flush at [t0] yields
    exactly one action, of kind ["single"], for the camera. *)
Definition window_zero_flush_is_single {tz : LocalZone} : Prop :=
  forall cam t0 ll sl sim eps sup m asup wd,
    exists c,
      camera_id c = cam /\ blur_since c = t0 /\
      fst (SiteAlertAggregator.process t0
             (AlertEngine.aggregator (e2e_observed cam t0 ll sl sim eps sup m asup wd))) =
      [mkAlertAction "single" [c] (site_id c) false].

(** The pieces of [parse_washdown_schedule]: the chunks that the loop
    visits, the window that a chunk adds and the line that it prints. *)
Definition chunks_of (spec : option string) : list string :=
  match spec with
  | None => []
  | Some EmptyString => []
  | Some s => split_on "," s
  end.

Definition window_of_chunk (chunk : string) : list (dtime * dtime) :=
  match parse_window (strip chunk) with
  | Returned w => [w]
  | Raised _ => []
  end.

Definition warning_of_chunk (chunk : string) : list string :=
  match strip chunk with
  | EmptyString => []
  | _ =>
      match parse_window (strip chunk) with
      | Returned _ => []
      | Raised _ => [warning (strip chunk)]
      end
  end.

(** [start <= t <= end] for a range that does not wrap, [t >= start or
    t <= end] for one that wraps past midnight. *)
Definition within (start end_ t : dtime) : Prop :=
  (dtime_leb start end_ = true /\
   dtime_leb start t = true /\ dtime_leb t end_ = true) \/
  (dtime_leb start end_ = false /\
   (dtime_leb start t = true \/ dtime_leb t end_ = true)).

(** Aggregators used in the examples: a candidate alone in its site under
    a quorum of three, the same under a quorum of one, and a site in
    cooldown after an aggregate action with one more candidate. *)
Definition demo_c1 : AlertCandidate := cand "CAM-01" "SiteA" 0.
Definition demo_c2 : AlertCandidate := cand "CAM-02" "SiteA" 0.
Definition demo_c3 : AlertCandidate := cand "CAM-03" "SiteA" 15000000.

Definition demo_alone : SiteAlertAggregator.t :=
  SiteAlertAggregator.enqueue demo_c1 (SiteAlertAggregator.init 10 3 60 None).

Definition demo_quorum_one : SiteAlertAggregator.t :=
  SiteAlertAggregator.enqueue demo_c1 (SiteAlertAggregator.init 5 1 10 None).

Definition demo_pair : SiteAlertAggregator.t :=
  SiteAlertAggregator.enqueue demo_c2
    (SiteAlertAggregator.enqueue demo_c1 (SiteAlertAggregator.init 30 2 120 None)).

(** Two candidates made ready at 00:30 UTC under a washdown range that
    wraps past midnight. *)
Definition demo_w1 : AlertCandidate := cand "CAM-01" "SiteA" 1800000000.
Definition demo_w2 : AlertCandidate := cand "CAM-02" "SiteA" 1800000000.

Definition demo_washdown : SiteAlertAggregator.t :=
  SiteAlertAggregator.enqueue demo_w2
    (SiteAlertAggregator.enqueue demo_w1
       (SiteAlertAggregator.init 30 2 60
          (Some [(mk_dtime 23 0 0 0, mk_dtime 1 0 0 0)]))).

Definition demo_cooldown : SiteAlertAggregator.t :=
  SiteAlertAggregator.enqueue demo_c3
    (snd (@SiteAlertAggregator.process utc_zone 0 demo_pair)).

(** ** Engines, runs of observations and the loop of [run] *)

(** Every camera state of an engine satisfies [P]. *)
Definition all_states (P : CameraAlertState -> Prop) (e : AlertEngine.t) : Prop :=
  forall cam st, dict_get cam (AlertEngine.state e) = Some st -> P st.

(** The fields of a camera state agree: [blur_start] is set exactly while the
    camera is blurry, [last_alert_until] exactly while an alert is open, and
    a candidate is pending only for a blurry camera. *)
Definition fields_agree (st : CameraAlertState) : Prop :=
  (is_blurry st = true <-> blur_start st <> None) /\
  (alert_open st = true <-> last_alert_until st <> None) /\
  (pending_candidate st = true -> is_blurry st = true).

(** The camera [cam] seen blurry at each of [times], in that order. *)
Definition observe_run (cam : string) (times : list datetime) (e : AlertEngine.t)
    : AlertEngine.t :=
  fold_left (fun e t => AlertEngine.process t cam true e) times e.

(** The candidate that [process] builds for [cam], blurry since [since], at
    the time [now]. *)
Definition candidate_of (e : AlertEngine.t) (cam : string) (since now : datetime)
    : AlertCandidate :=
  mkAlertCandidate cam (dict_get cam (AlertEngine.line_lookup e)) since now (site_of e cam).

Section Driven.
Context {tz : LocalZone}.

(** The engines that the loop of [run] produces: it calls [process] and
    [flush], and [_after_alert] only from within [flush]. *)
Inductive driven : AlertEngine.t -> Prop :=
| driven_init : forall ll sl sim eps th sup w m asup wd,
    driven (AlertEngine.init ll sl sim eps th sup w m asup wd)
| driven_process : forall e now cam blurry,
    driven e -> driven (AlertEngine.process now cam blurry e)
| driven_flush : forall e now notifier,
    driven e -> driven (AlertEngine.flush now notifier e).

End Driven.

(** Every pooled candidate belongs to a camera whose state says so, and an
    open alert belongs to a blurry camera. *)
Definition pooled_are_pending (e : AlertEngine.t) : Prop :=
  (forall k c,
     In (k, c) (SiteAlertAggregator._pending_by_camera (AlertEngine.aggregator e)) ->
     exists st, dict_get k (AlertEngine.state e) = Some st /\ pending_candidate st = true) /\
  (forall cam st, dict_get cam (AlertEngine.state e) = Some st ->
     alert_open st = true -> is_blurry st = true).

(** A time of day on a whole minute, as [%H:%M] yields. *)
Definition whole_minute (t : dtime) : Prop :=
  0 <= hour t <= 23 /\ 0 <= minute t <= 59 /\ second t = 0 /\ microsecond t = 0.

(** [c in s] for a string [c] of one character. *)
Fixpoint has_char (c : ascii) (s : string) : bool :=
  match s with
  | EmptyString => false
  | String a r => Ascii.eqb a c || has_char c r
  end.

(** [camera_id.split("-")[-1] if "-" in camera_id else camera_id], the label
    that [_handle_single] and [alert_aggregate] show; [split] returns at
    least one piece, so [[-1]] always exists. *)
Definition camera_label (camera_id : string) : string :=
  if has_char "-" camera_id
  then last (split_on "-" camera_id) EmptyString
  else camera_id.

(** The text [HH:MM] of a time of day and [HH:MM-HH:MM] of a window, as the
    help of [--washdown] asks for them, and windows separated by commas. *)
Definition digit_char (d : Z) : ascii := ascii_of_nat (48 + Z.to_nat d).

Definition two_digits (n : Z) : string :=
  String (digit_char (n / 10)) (String (digit_char (n mod 10)) EmptyString).

Definition hhmm (t : dtime) : string :=
  (two_digits (hour t) ++ String ":" (two_digits (minute t)))%string.

Definition window_text (w : dtime * dtime) : string :=
  (hhmm (fst w) ++ String "-" (hhmm (snd w)))%string.

Fixpoint join_commas (l : list string) : string :=
  match l with
  | [] => EmptyString
  | [x] => x
  | x :: r => (x ++ String "," (join_commas r))%string
  end.

(** [Simulator.__init__]: [{cid: False for cid in camera_ids}]. *)
Definition Simulator_init (camera_ids : list string) : Simulator.t :=
  Simulator.mk (fold_left (fun d cid => dict_set cid false d) camera_ids []).

Section Simulation.
Context {tz : LocalZone}.

(** Python's floats with their [<], and the generator: [random n] is the
    number that the [n]-th call of [random.random()] returns. The fields
    [p_blur_on], [p_blur_off] and [auto_clear] of a simulator are set by
    [__init__] and never assigned again. *)
Variable float : Type.
Variable float_lt : float -> float -> bool.
Variable random : nat -> float.
Variables p_blur_on p_blur_off : float.
Variable auto_clear : bool.

(** One iteration of [for cid in list(self.state.keys())]; the number counts
    the calls of [random.random()] made so far, and [None] is the [KeyError]
    of [self.state[cid]]. [and] does not draw when [auto_clear] is off. *)
Definition tick_step (acc : option (nat * Simulator.t)) (cid : string)
    : option (nat * Simulator.t) :=
  match acc with
  | None => None
  | Some (n, s) =>
      match dict_get cid (Simulator.state s) with
      | None => None
      | Some false =>
          if float_lt (random n) p_blur_on
          then Some (S n, Simulator.mk (dict_set cid true (Simulator.state s)))
          else Some (S n, s)
      | Some true =>
          if auto_clear
          then
            if float_lt (random n) p_blur_off
            then Some (S n, Simulator.mk (dict_set cid false (Simulator.state s)))
            else Some (S n, s)
          else Some (n, s)
      end
  end.

(** [tick]: the simulator after it, whose [state] is what [tick] returns a
    copy of. *)
Definition tick (n : nat) (s : Simulator.t) : option (nat * Simulator.t) :=
  fold_left tick_step (dict_keys (Simulator.state s)) (Some (n, s)).

(** What a change of a camera from [b] during the calls [n] to [n'] of the
    generator needs: a draw below the probability in force. *)
Definition cause (n n' : nat) (b : bool) : Prop :=
  if b
  then auto_clear = true /\
       exists k, (n <= k < n')%nat /\ float_lt (random k) p_blur_off = true
  else exists k, (n <= k < n')%nat /\ float_lt (random k) p_blur_on = true.

(** One iteration of [for cid, is_blur in states.items()] in [run]: a row of
    the events file and an observation of the engine. *)
Definition run_observe (now : datetime)
    (acc : list (datetime * string * bool) * AlertEngine.t)
    (item : string * bool) : list (datetime * string * bool) * AlertEngine.t :=
  (fst acc ++ [(now, fst item, snd item)],
   AlertEngine.process now (fst item) (snd item) (snd acc)).

(** One turn of [while not stop] in [run], at the instant [now]. The
    simulator [sim] of the loop and the simulator of the engine are one
    object, so the tick shows in the engine. *)
Definition run_tick (now : datetime) (notifier : Notifier) (n : nat)
    (store : list (datetime * string * bool)) (sim : Simulator.t)
    (e : AlertEngine.t)
    : option (nat * list (datetime * string * bool) * AlertEngine.t) :=
  match tick n sim with
  | None => None
  | Some (n', sim') =>
      let states := Simulator.state sim' in
      let e1 := AlertEngine.with_collaborators e (Some sim') (AlertEngine.episode_store e) in
      let '(store', e2) := fold_left (run_observe now) states (store, e1) in
      Some (n', store', AlertEngine.flush now notifier e2)
  end.

End Simulation.

(** The engine and its simulator agree on which cameras are blurry, the
    cameras of the simulator being [keys]. *)
Definition in_step_on (keys : list string) (e : AlertEngine.t) : Prop :=
  exists sim,
    AlertEngine.simulator e = Some sim /\
    dict_keys (Simulator.state sim) = keys /\
    forall cid b,
      dict_get cid (Simulator.state sim) = Some b ->
      exists st, dict_get cid (AlertEngine.state e) = Some st /\ is_blurry st = b.

(** Values used in the examples: a candidate of [CAM-01] under another
    site, an engine with a threshold of ten seconds, a simulator of two
    cameras with the engine that [run] builds around it, and draws in
    thousandths that are all 50. *)
Definition demo_moved : AlertCandidate := cand "CAM-01" "SiteB" 5000000.

Definition demo_slow : AlertEngine.t :=
  AlertEngine.init [] [] None [] 10 1 0 1 1 None.

Definition demo_sim : Simulator.t := Simulator_init ["CAM-01"; "CAM-02"]%string.

Definition demo_run_engine : AlertEngine.t :=
  AlertEngine.init [] [] (Some demo_sim) [] 0 1 0 1 1 None.

Definition demo_draws : nat -> Z := fun _ => 50.

(** Evaluation of dictionary operations on keys that are variables. *)
Ltac run_dicts :=
  unfold dict_mem; repeat (progress (simpl; rewrite ?String.eqb_refl)).

(** * Properties *)

(** ** Dictionaries *)

Section DictFacts.
Context {V : Type}.
Implicit Types (d : dict V) (k : string) (v : V).

Lemma dict_get_set_eq k v d : dict_get k (dict_set k v d) = Some v.
Proof.
  induction d as [|[k' v'] r IH]; simpl.
  - now rewrite String.eqb_refl.
  - destruct (String.eqb k k') eqn:E; simpl; rewrite E; auto.
Qed.

Lemma dict_get_set_ne k k' v d :
  k' <> k -> dict_get k' (dict_set k v d) = dict_get k' d.
Proof.
  intros N. induction d as [|[k2 v2] r IH]; simpl.
  - destruct (String.eqb_spec k' k); congruence.
  - destruct (String.eqb_spec k k2); simpl.
    + subst. destruct (String.eqb_spec k' k2); congruence.
    + destruct (String.eqb_spec k' k2); auto.
Qed.

Lemma dict_get_pop_ne k k' d :
  k' <> k -> dict_get k' (dict_pop k d) = dict_get k' d.
Proof.
  intros N. induction d as [|[k2 v2] r IH]; simpl; auto.
  destruct (String.eqb_spec k k2); simpl.
  - subst. destruct (String.eqb_spec k' k2); congruence.
  - destruct (String.eqb_spec k' k2); auto.
Qed.

Lemma dict_get_In k v d : dict_get k d = Some v -> In (k, v) d.
Proof.
  induction d as [|[k2 v2] r IH]; simpl; [discriminate|].
  destruct (String.eqb_spec k k2); intros H.
  - inversion H; subst; auto.
  - auto.
Qed.

Lemma dict_get_None k d : dict_get k d = None <-> ~ In k (dict_keys d).
Proof.
  induction d as [|[k2 v2] r IH]; simpl.
  - tauto.
  - destruct (String.eqb_spec k k2).
    + subst. split; [discriminate | intros H; exfalso; apply H; auto].
    + rewrite IH. split; intros H; [intros [E|I]; [congruence | tauto] | tauto].
Qed.

Lemma In_keys k v d : In (k, v) d -> In k (dict_keys d).
Proof. intros H. apply (in_map fst) in H. exact H. Qed.

Lemma In_dict_get k v d :
  NoDup (dict_keys d) -> In (k, v) d -> dict_get k d = Some v.
Proof.
  induction d as [|[k2 v2] r IH]; simpl; [tauto|].
  intros ND [E|I].
  - inversion E; subst. now rewrite String.eqb_refl.
  - inversion ND; subst. destruct (String.eqb_spec k k2).
    + subst. exfalso. apply H1. eapply In_keys; eauto.
    + auto.
Qed.

Lemma In_pop k k' v d : In (k', v) (dict_pop k d) -> In (k', v) d.
Proof.
  induction d as [|[k2 v2] r IH]; simpl; auto.
  destruct (String.eqb k k2); simpl; intuition.
Qed.

Lemma In_pop_ne k k' v d : k' <> k -> In (k', v) d -> In (k', v) (dict_pop k d).
Proof.
  intros N. induction d as [|[k2 v2] r IH]; simpl; auto.
  destruct (String.eqb_spec k k2); simpl.
  - intros [E|I]; [inversion E; congruence | auto].
  - intros [E|I]; auto.
Qed.

Lemma keys_pop_incl k d x : In x (dict_keys (dict_pop k d)) -> In x (dict_keys d).
Proof.
  induction d as [|[k2 v2] r IH]; simpl; auto.
  destruct (String.eqb k k2); simpl; intuition.
Qed.

Lemma NoDup_pop k d : NoDup (dict_keys d) -> NoDup (dict_keys (dict_pop k d)).
Proof.
  induction d as [|[k2 v2] r IH]; simpl; auto.
  intros ND. inversion ND; subst.
  destruct (String.eqb k k2); simpl; auto.
  constructor; auto. intros I. apply H1. eapply keys_pop_incl; eauto.
Qed.

Lemma pop_not_key k d : NoDup (dict_keys d) -> ~ In k (dict_keys (dict_pop k d)).
Proof.
  induction d as [|[k2 v2] r IH]; simpl; auto.
  intros ND. inversion ND; subst.
  destruct (String.eqb_spec k k2); simpl.
  - subst. auto.
  - intros [E|I]; [congruence | now apply IH].
Qed.

Lemma In_pop_key k v d : NoDup (dict_keys d) -> ~ In (k, v) (dict_pop k d).
Proof. intros ND I. eapply pop_not_key; eauto. eapply In_keys; eauto. Qed.

Lemma keys_set k v d x :
  In x (dict_keys (dict_set k v d)) <-> x = k \/ In x (dict_keys d).
Proof.
  induction d as [|[k2 v2] r IH]; simpl.
  - intuition.
  - destruct (String.eqb_spec k k2); simpl.
    + subst. intuition.
    + rewrite IH. intuition.
Qed.

Lemma NoDup_set k v d : NoDup (dict_keys d) -> NoDup (dict_keys (dict_set k v d)).
Proof.
  induction d as [|[k2 v2] r IH]; simpl.
  - intros _. constructor; [simpl; tauto | constructor].
  - intros ND. inversion ND; subst.
    destruct (String.eqb_spec k k2); simpl.
    + constructor; auto.
    + constructor; auto. rewrite keys_set. intros [E|I]; [congruence | tauto].
Qed.

Lemma In_set k v d k' v' :
  In (k', v') (dict_set k v d) -> (k' = k /\ v' = v) \/ (k' <> k /\ In (k', v') d) \/
                                   (In (k', v') d /\ In k (dict_keys d)).
Proof.
  induction d as [|[k2 v2] r IH]; simpl.
  - intros [E|[]]. inversion E; auto.
  - destruct (String.eqb_spec k k2); simpl.
    + subst. intros [E|I]; [inversion E; auto | right; right; auto].
    + intros [E|I].
      * inversion E; subst. right. left. split; auto.
      * destruct (IH I) as [H|[H|H]]; intuition.
Qed.

Lemma pop_set_fresh k v d : dict_get k d = None -> dict_pop k (dict_set k v d) = d.
Proof.
  induction d as [|[k2 v2] r IH]; simpl.
  - now rewrite String.eqb_refl.
  - destruct (String.eqb_spec k k2); [discriminate|].
    intros H. simpl. destruct (String.eqb_spec k k2); [congruence|].
    now rewrite IH.
Qed.

Lemma pop_absent k d : dict_get k d = None -> dict_pop k d = d.
Proof.
  induction d as [|[k2 v2] r IH]; simpl; auto.
  destruct (String.eqb_spec k k2); [discriminate|].
  intros H. now rewrite IH.
Qed.

Lemma values_pop_incl k d x : In x (dict_values (dict_pop k d)) -> In x (dict_values d).
Proof.
  induction d as [|[k2 v2] r IH]; simpl; auto.
  destruct (String.eqb k k2); simpl; intuition.
Qed.

Lemma values_set_incl k v d x :
  In x (dict_values (dict_set k v d)) -> x = v \/ In x (dict_values d).
Proof.
  induction d as [|[k2 v2] r IH]; simpl.
  - intuition.
  - destruct (String.eqb k k2); simpl; intuition.
Qed.

Lemma In_values k v d : In (k, v) d -> In v (dict_values d).
Proof. intros H. apply (in_map snd) in H. exact H. Qed.

Lemma values_In v d : In v (dict_values d) -> exists k, In (k, v) d.
Proof.
  unfold dict_values. rewrite in_map_iff. intros [[k v'] [E I]].
  simpl in E. subst. eauto.
Qed.
End DictFacts.

(** ** The pools of the aggregator *)

Import SiteAlertAggregator.

Lemma dict_pop_set (V : Type) k (v : V) d : dict_pop k (dict_set k v d) = dict_pop k d.
Proof.
  induction d as [|[k2 v2] r IH]; simpl.
  - now rewrite String.eqb_refl.
  - destruct (String.eqb_spec k k2); simpl.
    + destruct (String.eqb_spec k k2); congruence.
    + destruct (String.eqb_spec k k2); congruence.
Qed.

Lemma dict_is_empty_nil (V : Type) (d : dict V) : dict_is_empty d = true <-> d = [].
Proof. destruct d; simpl; split; congruence. Qed.

Lemma In_set_same (V : Type) k (v : V) d :
  In k (dict_keys d) -> In (k, v) (dict_set k v d).
Proof.
  induction d as [|[k2 v2] r IH]; simpl; [tauto|].
  destruct (String.eqb_spec k k2); simpl.
  - subst. auto.
  - intros [E|I]; [congruence | auto].
Qed.

Lemma In_set_other (V : Type) k (v : V) d k' v' :
  k' <> k -> In (k', v') d -> In (k', v') (dict_set k v d).
Proof.
  intros N. induction d as [|[k2 v2] r IH]; simpl; [tauto|].
  destruct (String.eqb_spec k k2); simpl.
  - subst. intros [E|I]; [inversion E; congruence | auto].
  - intros [E|I]; auto.
Qed.

Lemma In_set_inv (V : Type) k (v : V) d k' v' :
  NoDup (dict_keys d) ->
  In (k', v') (dict_set k v d) -> (k' = k /\ v' = v) \/ (k' <> k /\ In (k', v') d).
Proof.
  induction d as [|[k2 v2] r IH]; simpl.
  - intros _ [E|[]]. inversion E; auto.
  - intros ND. inversion ND; subst.
    destruct (String.eqb_spec k k2); simpl.
    + subst. intros [E|I]; [inversion E; auto|].
      right. split; auto. intros ->. apply H1. eapply In_keys; eauto.
    + intros [E|I].
      * inversion E; subst. right. split; auto.
      * destruct (IH H2 I) as [H|[H H']]; auto.
Qed.

Lemma pop_cameras_cons c cs (d : dict AlertCandidate) :
  pop_cameras (c :: cs) d = pop_cameras cs (dict_pop (camera_id c) d).
Proof. reflexivity. Qed.

Lemma pop_cameras_In cs : forall d k c,
  In (k, c) (pop_cameras cs d) -> In (k, c) d.
Proof.
  induction cs as [|x cs IH]; intros d k c; [auto|].
  rewrite pop_cameras_cons. intros H. apply IH in H. eapply In_pop; eauto.
Qed.

Lemma pop_cameras_NoDup cs : forall d,
  NoDup (dict_keys d) -> NoDup (dict_keys (pop_cameras cs d)).
Proof.
  induction cs as [|x cs IH]; intros d ND; [auto|].
  rewrite pop_cameras_cons. apply IH. now apply NoDup_pop.
Qed.

Lemma pop_cameras_keeps cs : forall d k c,
  ~ In k (map camera_id cs) -> In (k, c) d -> In (k, c) (pop_cameras cs d).
Proof.
  induction cs as [|x cs IH]; intros d k c N I; [auto|].
  rewrite pop_cameras_cons. simpl in N. apply IH; [tauto|].
  apply In_pop_ne; [|auto]. intros E. apply N. auto.
Qed.

Lemma pop_cameras_get cs : forall d k,
  ~ In k (map camera_id cs) -> dict_get k (pop_cameras cs d) = dict_get k d.
Proof.
  induction cs as [|x cs IH]; intros d k N; [auto|].
  rewrite pop_cameras_cons. simpl in N. rewrite IH by tauto.
  apply dict_get_pop_ne. intros E. apply N. auto.
Qed.

Lemma pop_cameras_not_key cs : forall d k,
  ~ In k (dict_keys d) -> ~ In k (dict_keys (pop_cameras cs d)).
Proof.
  induction cs as [|x cs IH]; intros d k N; [auto|].
  rewrite pop_cameras_cons. apply IH. intros I. apply N. eapply keys_pop_incl; eauto.
Qed.

Lemma pop_cameras_gone cs : forall d k,
  NoDup (dict_keys d) -> In k (map camera_id cs) ->
  ~ In k (dict_keys (pop_cameras cs d)).
Proof.
  induction cs as [|x cs IH]; intros d k ND I; [destruct I|].
  rewrite pop_cameras_cons. destruct (string_dec (camera_id x) k) as [E|N].
  - subst. apply pop_cameras_not_key. now apply pop_not_key.
  - apply IH; [now apply NoDup_pop|]. destruct I; [congruence | auto].
Qed.

Lemma pop_cameras_popped cs d k c :
  NoDup (dict_keys d) -> In (k, c) (pop_cameras cs d) -> ~ In k (map camera_id cs).
Proof.
  intros ND I J. eapply pop_cameras_gone; eauto. eapply In_keys; eauto.
Qed.

(** *** [remove_cams] keeps the pools consistent *)

Lemma wf_key_unique a k c c' :
  agg_wf a -> In (k, c) (_pending_by_camera a) -> In (k, c') (_pending_by_camera a) ->
  c = c'.
Proof.
  intros W I J. pose proof (wf_cam_nodup a W) as ND.
  apply (In_dict_get _ _ _ ND) in I. apply (In_dict_get _ _ _ ND) in J. congruence.
Qed.

Lemma wf_site_entry a s pool k c :
  agg_wf a -> In (s, pool) (_pending_by_site a) -> In (k, c) pool ->
  camera_id c = k /\ site_id c = s /\ In (k, c) (_pending_by_camera a).
Proof.
  intros W I J. destruct (wf_site a W s pool I) as (_ & _ & H).
  destruct (H k c J) as [Hs Hc]. destruct (wf_cam a W k c Hc) as [Hk _]. auto.
Qed.

Lemma wf_site_get a s pool :
  agg_wf a -> In (s, pool) (_pending_by_site a) ->
  dict_get s (_pending_by_site a) = Some pool.
Proof. intros W I. apply In_dict_get; auto. apply (wf_site_nodup a W). Qed.

Lemma remove_cams_wf a sid pool cands :
  agg_wf a ->
  dict_get sid (_pending_by_site a) = Some pool ->
  (forall c, In c cands -> In (camera_id c, c) pool) ->
  agg_wf (remove_cams sid cands a).
Proof.
  intros W G Hc. pose proof (dict_get_In _ _ _ G) as IP.
  assert (notin : forall k c s p, In (s, p) (_pending_by_site a) -> s <> sid ->
            In (k, c) p -> ~ In k (map camera_id cands)).
  { intros k c s p Is Ns Ik Jk. apply in_map_iff in Jk. destruct Jk as (c' & E & Ic').
    apply Hc in Ic'. rewrite E in Ic'.
    destruct (wf_site_entry a s p k c W Is Ik) as (_ & S1 & C1).
    destruct (wf_site_entry a sid pool k c' W IP Ic') as (_ & S2 & C2).
    assert (c = c') by (eapply wf_key_unique; eauto). subst. congruence. }
  destruct (wf_site a W sid pool IP) as (_ & NDpool & _).
  unfold remove_cams. rewrite G.
  constructor; simpl.
  - apply (wf_min_count a W).
  - apply (wf_suppress a W).
  - apply pop_cameras_NoDup, (wf_cam_nodup a W).
  - destruct (dict_is_empty _); [apply NoDup_pop | apply NoDup_set]; apply (wf_site_nodup a W).
  - intros k c I. pose proof (pop_cameras_popped _ _ _ _ (wf_cam_nodup a W) I) as Nk.
    apply pop_cameras_In in I. destruct (wf_cam a W k c I) as (Ek & p & Ip & Ikp).
    split; [auto|]. destruct (string_dec (site_id c) sid) as [E|N].
    + rewrite E in *. assert (p = pool).
      { apply (wf_site_get a _ _ W) in Ip. congruence. }
      subst p. pose proof (pop_cameras_keeps cands pool k c Nk Ikp) as Ik'.
      destruct (dict_is_empty (pop_cameras cands pool)) eqn:Em.
      * apply dict_is_empty_nil in Em. rewrite Em in Ik'. destruct Ik'.
      * exists (pop_cameras cands pool). split; auto.
        apply In_set_same. eapply In_keys; eauto.
    + exists p. split; auto.
      destruct (dict_is_empty _); [apply In_pop_ne | apply In_set_other]; auto.
  - intros s p I.
    assert (Hs : (s = sid /\ p = pop_cameras cands pool /\ p <> []) \/
                 (s <> sid /\ In (s, p) (_pending_by_site a))).
    { destruct (dict_is_empty (pop_cameras cands pool)) eqn:Em.
      - right. split; [|eapply In_pop; eauto].
        intros ->. eapply In_pop_key; [apply (wf_site_nodup a W)|]; eauto.
      - apply In_set_inv in I; [|apply (wf_site_nodup a W)].
        destruct I as [[-> ->]|[N I]]; [left|right]; auto.
        repeat split; auto. intros E. rewrite E in Em. discriminate. }
    destruct Hs as [(-> & -> & Ne)|(Ns & Is)].
    + split; [auto|]. split; [now apply pop_cameras_NoDup|].
      intros k c Ik. pose proof (pop_cameras_popped _ _ _ _ NDpool Ik) as Nk.
      apply pop_cameras_In in Ik.
      destruct (wf_site_entry a sid pool k c W IP Ik) as (_ & S1 & C1).
      split; auto. now apply pop_cameras_keeps.
    + destruct (wf_site a W s p Is) as (Ne & NDp & H).
      split; [auto|]. split; [auto|].
      intros k c Ik. destruct (H k c Ik) as [S1 C1]. split; [auto|].
      apply pop_cameras_keeps; [eapply notin; eauto | auto].
Qed.

Lemma with_cooldown_wf a cd : agg_wf a -> agg_wf (with_cooldown a cd).
Proof. intros [? ? ? ? ? ?]. constructor; simpl; auto. Qed.

Lemma cancel_remove a k c :
  agg_wf a -> dict_get k (_pending_by_camera a) = Some c ->
  cancel k a = remove_cams (site_id c) [c] a.
Proof.
  intros W G. pose proof (dict_get_In _ _ _ G) as I.
  destruct (wf_cam a W k c I) as (Ek & p & Ip & Ik).
  apply (wf_site_get a _ _ W) in Ip.
  unfold cancel, remove_cams, drop_from_site. rewrite G, Ip. simpl. rewrite Ek.
  reflexivity.
Qed.

Lemma cancel_wf a k : agg_wf a -> agg_wf (cancel k a).
Proof.
  intros W. destruct (dict_get k (_pending_by_camera a)) as [c|] eqn:G.
  - rewrite (cancel_remove a k c W G).
    pose proof (dict_get_In _ _ _ G) as I.
    destruct (wf_cam a W k c I) as (Ek & p & Ip & Ik).
    eapply remove_cams_wf; eauto.
    + eapply wf_site_get; eauto.
    + intros c' [<-|[]]. now rewrite Ek.
  - unfold cancel. now rewrite G.
Qed.

Lemma active_in_pool a now s pool c :
  agg_wf a -> In (s, pool) (_pending_by_site a) ->
  In c (active_of now a pool) -> In (camera_id c, c) pool.
Proof.
  intros W I J. unfold active_of in J. apply filter_In in J. destruct J as [J _].
  apply values_In in J. destruct J as [k J].
  destruct (wf_site_entry a s pool k c W I J) as (E & _). now rewrite E.
Qed.

Section Loops.
Context {tz : LocalZone}.

(** *** The first loop *)

Lemma aggregate_step_spec now acts a sid pool :
  agg_wf a -> dict_get sid (_pending_by_site a) = Some pool ->
  aggregate_step now (acts, a) (sid, pool) =
  (acts ++ site_dispatch now a (sid, pool),
   if quorum now a sid pool
   then with_cooldown (remove_cams sid (active_of now a pool) a)
          (dict_set sid (now + suppress a) (_site_cooldown a))
   else a).
Proof.
  intros W G. pose proof (dict_get_In _ _ _ G) as I.
  destruct (wf_site a W sid pool I) as (Ne & _ & _).
  unfold aggregate_step, site_dispatch. simpl.
  destruct (quorum now a sid pool) eqn:Q.
  - f_equal. unfold prune, remove_cams, dict_mem. simpl. rewrite G.
    destruct (dict_is_empty (pop_cameras (active_of now a pool) pool)) eqn:Em.
    + unfold with_cooldown, with_pools. simpl. now rewrite dict_pop_set.
    + reflexivity.
  - rewrite app_nil_r. f_equal. unfold prune.
    destruct pool; [congruence | reflexivity].
Qed.

Lemma step_state_wf now a sid pool :
  agg_wf a -> dict_get sid (_pending_by_site a) = Some pool ->
  agg_wf (step_state now a sid pool).
Proof.
  intros W G. unfold step_state. destruct (quorum now a sid pool); [|auto].
  apply with_cooldown_wf. eapply remove_cams_wf; eauto.
  intros c. eapply active_in_pool; eauto. eapply dict_get_In; eauto.
Qed.

Lemma step_state_config now a sid pool : same_config a (step_state now a sid pool).
Proof.
  unfold step_state, same_config. destruct (quorum now a sid pool); simpl; auto.
Qed.

Lemma step_state_other_site now a sid pool s :
  s <> sid ->
  dict_get s (_pending_by_site (step_state now a sid pool)) =
    dict_get s (_pending_by_site a) /\
  dict_get s (_site_cooldown (step_state now a sid pool)) =
    dict_get s (_site_cooldown a).
Proof.
  intros N. unfold step_state. destruct (quorum now a sid pool); simpl; [|auto].
  split; [|now apply dict_get_set_ne].
  destruct (dict_is_empty _); [now apply dict_get_pop_ne | now apply dict_get_set_ne].
Qed.

Lemma step_state_cooldown now a sid pool :
  dict_get sid (_site_cooldown (step_state now a sid pool)) =
  if quorum now a sid pool then Some (now + suppress a)
  else dict_get sid (_site_cooldown a).
Proof.
  unfold step_state. destruct (quorum now a sid pool); simpl; [|auto].
  apply dict_get_set_eq.
Qed.

Lemma step_state_by_camera now a sid pool :
  _pending_by_camera (step_state now a sid pool) =
  pop_cameras (dispatched_candidates (site_dispatch now a (sid, pool)))
    (_pending_by_camera a).
Proof.
  unfold step_state, site_dispatch, dispatched_candidates. simpl.
  destruct (quorum now a sid pool); simpl; [|reflexivity].
  now rewrite app_nil_r.
Qed.
End Loops.

Lemma flat_map_ext_in (A B : Type) (f g : A -> list B) l :
  (forall x, In x l -> f x = g x) -> flat_map f l = flat_map g l.
Proof.
  induction l as [|x l IH]; simpl; intros H; [reflexivity|].
  rewrite H by auto. rewrite IH; auto.
Qed.

Lemma pop_cameras_app x y (d : dict AlertCandidate) :
  pop_cameras (x ++ y) d = pop_cameras y (pop_cameras x d).
Proof. unfold pop_cameras. apply fold_left_app. Qed.

Lemma same_config_trans a b c : same_config a b -> same_config b c -> same_config a c.
Proof. unfold same_config. intuition congruence. Qed.

Section Loop1.
Context {tz : LocalZone}.

Lemma quorum_ext now a b s p :
  same_config a b ->
  dict_get s (_site_cooldown a) = dict_get s (_site_cooldown b) ->
  quorum now a s p = quorum now b s p.
Proof.
  intros (Hw & Hm & _ & _) Hc. unfold quorum, active_of. now rewrite Hw, Hm, Hc.
Qed.

Lemma site_dispatch_ext now a b s p :
  same_config a b ->
  dict_get s (_site_cooldown a) = dict_get s (_site_cooldown b) ->
  site_dispatch now a (s, p) = site_dispatch now b (s, p).
Proof.
  intros C Hc. unfold site_dispatch. simpl. rewrite (quorum_ext now a b s p C Hc).
  destruct C as (Hw & Hm & _ & Hs). unfold active_of, _within_washdown.
  now rewrite Hw, Hs.
Qed.

Lemma aggregates_fold now : forall items acts a,
  agg_wf a -> NoDup (map fst items) ->
  (forall s p, In (s, p) items -> dict_get s (_pending_by_site a) = Some p) ->
  exists a',
    fold_left (aggregate_step now) items (acts, a) =
      (acts ++ flat_map (site_dispatch now a) items, a') /\
    agg_wf a' /\ same_config a a' /\
    _pending_by_camera a' =
      pop_cameras (dispatched_candidates (flat_map (site_dispatch now a) items))
        (_pending_by_camera a) /\
    (forall s, ~ In s (map fst items) ->
       dict_get s (_site_cooldown a') = dict_get s (_site_cooldown a)) /\
    (forall s p, In (s, p) items ->
       dict_get s (_site_cooldown a') =
       if quorum now a s p then Some (now + suppress a)
       else dict_get s (_site_cooldown a)).
Proof.
  induction items as [|[sid pool] rest IH]; intros acts a W ND Live.
  - exists a. simpl. rewrite app_nil_r.
    split; [reflexivity|]. split; [exact W|].
    split; [unfold same_config; auto|]. split; [reflexivity|].
    split; [auto | intros s p []].
  - simpl in ND. inversion ND as [|? ? Nsid NDrest]; subst.
    assert (G : dict_get sid (_pending_by_site a) = Some pool) by (apply Live; simpl; auto).
    simpl fold_left. rewrite (aggregate_step_spec now acts a sid pool W G).
    fold (step_state now a sid pool).
    set (a1 := step_state now a sid pool).
    assert (other : forall s p, In (s, p) rest -> s <> sid).
    { intros s p I ->. apply Nsid. apply (in_map fst) in I. exact I. }
    destruct (IH (acts ++ site_dispatch now a (sid, pool)) a1) as (a' & F & W' & C' & BC & CDo & CDi).
    + now apply step_state_wf.
    + exact NDrest.
    + intros s p I. destruct (step_state_other_site now a sid pool s (other s p I)) as [E _].
      unfold a1. rewrite E. apply Live. simpl; auto.
    + assert (Ext : flat_map (site_dispatch now a1) rest = flat_map (site_dispatch now a) rest).
      { apply flat_map_ext_in. intros [s p] I. symmetry. apply site_dispatch_ext.
        - apply step_state_config.
        - symmetry. apply (step_state_other_site now a sid pool s (other s p I)). }
      exists a'. rewrite F, Ext. split; [|split; [|split; [|split; [|split]]]].
      * simpl flat_map. now rewrite app_assoc.
      * exact W'.
      * eapply same_config_trans; [apply step_state_config | exact C'].
      * rewrite BC, Ext. simpl flat_map. unfold dispatched_candidates.
        rewrite flat_map_app. rewrite pop_cameras_app. f_equal.
        apply step_state_by_camera.
      * intros s Ns. simpl in Ns. rewrite CDo by tauto.
        apply step_state_other_site. intros ->. tauto.
      * intros s p [E|I].
        -- inversion E; subst s p. rewrite CDo by exact Nsid.
           apply step_state_cooldown.
        -- rewrite (CDi s p I).
           pose proof (other s p I) as Ns.
           destruct (step_state_other_site now a sid pool s Ns) as [_ Ec].
           rewrite <- (quorum_ext now a a1 s p (step_state_config now a sid pool) (eq_sym Ec)).
           destruct (step_state_config now a sid pool) as (_ & _ & Hs & _).
           unfold a1. rewrite <- Hs, Ec. reflexivity.
Qed.

(** The first loop of [process] on consistent pools. *)
Lemma process_aggregates_spec now a :
  agg_wf a ->
  exists a',
    process_aggregates now a = (flat_map (site_dispatch now a) (_pending_by_site a), a') /\
    agg_wf a' /\ same_config a a' /\
    _pending_by_camera a' =
      pop_cameras
        (dispatched_candidates (flat_map (site_dispatch now a) (_pending_by_site a)))
        (_pending_by_camera a) /\
    (forall s, dict_get s (_site_cooldown a') =
       if quorum now a s (site_pool_of s a) &&
          dict_mem s (_pending_by_site a)
       then Some (now + suppress a)
       else dict_get s (_site_cooldown a)).
Proof.
  intros W.
  destruct (aggregates_fold now (_pending_by_site a) [] a W (wf_site_nodup a W))
    as (a' & F & W' & C' & BC & CDo & CDi).
  { intros s p I. eapply wf_site_get; eauto. }
  exists a'. split; [exact F|]. split; [exact W'|]. split; [exact C'|]. split; [exact BC|].
  intros s. unfold site_pool_of, dict_mem.
  destruct (dict_get s (_pending_by_site a)) as [p|] eqn:G.
  - rewrite andb_true_r. apply CDi. eapply dict_get_In; eauto.
  - rewrite andb_false_r. apply CDo. apply dict_get_None in G. exact G.
Qed.
End Loop1.

Section Loop2.
Context {tz : LocalZone}.

Lemma single_step_spec now acts a k c :
  dict_get k (_pending_by_camera a) = Some c ->
  single_step now (acts, a) (k, c) =
  (acts ++ map single_action (filter (aged now a) [c]),
   if aged now a c then cancel k a else a).
Proof.
  intros G. unfold single_step, aged, cancel. simpl. rewrite G.
  destruct (now - ready_at c >=? window a); simpl; [reflexivity|].
  now rewrite app_nil_r.
Qed.

Lemma cancel_config k a : same_config a (cancel k a).
Proof.
  unfold cancel, same_config. destruct (dict_get k (_pending_by_camera a)); simpl; auto.
Qed.

Lemma cancel_cooldown k a : _site_cooldown (cancel k a) = _site_cooldown a.
Proof. unfold cancel. destruct (dict_get k (_pending_by_camera a)); reflexivity. Qed.

Lemma cancel_by_camera k a :
  _pending_by_camera (cancel k a) = dict_pop k (_pending_by_camera a).
Proof.
  unfold cancel. destruct (dict_get k (_pending_by_camera a)) eqn:G; simpl; [reflexivity|].
  symmetry. now apply pop_absent.
Qed.

Lemma aged_ext now a b c : same_config a b -> aged now a c = aged now b c.
Proof. intros (Hw & _). unfold aged. now rewrite Hw. Qed.

Lemma singles_fold now : forall items acts a,
  agg_wf a -> NoDup (map fst items) ->
  (forall k c, In (k, c) items -> dict_get k (_pending_by_camera a) = Some c) ->
  exists a',
    fold_left (single_step now) items (acts, a) =
      (acts ++ map single_action (filter (aged now a) (map snd items)), a') /\
    agg_wf a' /\ same_config a a' /\
    _site_cooldown a' = _site_cooldown a /\
    _pending_by_camera a' =
      pop_cameras (filter (aged now a) (map snd items)) (_pending_by_camera a).
Proof.
  induction items as [|[k c] rest IH]; intros acts a W ND Live.
  - exists a. simpl. rewrite app_nil_r.
    split; [reflexivity|]. split; [exact W|].
    split; [unfold same_config; auto|]. split; reflexivity.
  - simpl in ND. inversion ND as [|? ? Nk NDrest]; subst.
    assert (G : dict_get k (_pending_by_camera a) = Some c) by (apply Live; simpl; auto).
    assert (Ek : camera_id c = k).
    { apply (wf_cam a W). eapply dict_get_In; eauto. }
    simpl fold_left. rewrite (single_step_spec now acts a k c G).
    set (a1 := if aged now a c then cancel k a else a).
    assert (W1 : agg_wf a1).
    { unfold a1. destruct (aged now a c); [now apply cancel_wf | exact W]. }
    assert (C1 : same_config a a1).
    { unfold a1. destruct (aged now a c); [apply cancel_config | unfold same_config; auto]. }
    assert (BC1 : _pending_by_camera a1 =
                  pop_cameras (filter (aged now a) [c]) (_pending_by_camera a)).
    { unfold a1. simpl. destruct (aged now a c); [|reflexivity].
      rewrite cancel_by_camera. simpl. now rewrite Ek. }
    assert (CD1 : _site_cooldown a1 = _site_cooldown a).
    { unfold a1. destruct (aged now a c); [apply cancel_cooldown | reflexivity]. }
    destruct (IH (acts ++ map single_action (filter (aged now a) [c])) a1 W1 NDrest)
      as (a' & F & W' & C' & CD & BC).
    + intros k' c' I. rewrite BC1.
      rewrite pop_cameras_get; [apply Live; simpl; auto|].
      intros J. apply in_map_iff in J. destruct J as (x & Ex & Ix).
      apply filter_In in Ix. destruct Ix as [[<-|[]] _].
      apply Nk. rewrite <- Ek, Ex. apply (in_map fst) in I. exact I.
    + assert (Ext : filter (aged now a1) (map snd rest) = filter (aged now a) (map snd rest)).
      { apply filter_ext. intros x. symmetry. now apply aged_ext. }
      exists a'. rewrite F, Ext.
      split; [|split; [exact W'|split; [|split]]].
      * change (map snd ((k, c) :: rest)) with ([c] ++ map snd rest).
        now rewrite filter_app, map_app, app_assoc.
      * eapply same_config_trans; eauto.
      * congruence.
      * rewrite BC, Ext, BC1. rewrite <- pop_cameras_app.
        change (map snd ((k, c) :: rest)) with ([c] ++ map snd rest).
        now rewrite filter_app.
Qed.

(** [process] on consistent pools: the aggregate actions of the sites in
    the order of [_pending_by_site], then a single action for every
    candidate that is left in the global pool and has aged out. *)
Lemma process_spec now a :
  agg_wf a ->
  exists a1 a2,
    let aggs := flat_map (site_dispatch now a) (_pending_by_site a) in
    let singles := filter (aged now a) (dict_values (_pending_by_camera a1)) in
    process now a = (aggs ++ map single_action singles, a2) /\
    _pending_by_camera a1 =
      pop_cameras (dispatched_candidates aggs) (_pending_by_camera a) /\
    _pending_by_camera a2 = pop_cameras singles (_pending_by_camera a1) /\
    agg_wf a1 /\ agg_wf a2 /\ same_config a a2 /\
    (forall s, dict_get s (_site_cooldown a2) =
       if quorum now a s (site_pool_of s a) && dict_mem s (_pending_by_site a)
       then Some (now + suppress a)
       else dict_get s (_site_cooldown a)).
Proof.
  intros W.
  destruct (process_aggregates_spec now a W) as (a1 & F1 & W1 & C1 & BC1 & CD1).
  destruct (singles_fold now (_pending_by_camera a1)
              (flat_map (site_dispatch now a) (_pending_by_site a)) a1 W1
              (wf_cam_nodup a1 W1))
    as (a2 & F2 & W2 & C2 & CD2 & BC2).
  { intros k c I. apply In_dict_get; auto. apply (wf_cam_nodup a1 W1). }
  assert (Ext : filter (aged now a1) (map snd (_pending_by_camera a1)) =
                filter (aged now a) (dict_values (_pending_by_camera a1))).
  { apply filter_ext. intros x. symmetry. now apply aged_ext. }
  exists a1, a2. cbv zeta.
  split; [|split; [exact BC1|split; [|split; [exact W1|split; [exact W2|split]]]]].
  - unfold process, process_singles. rewrite F1. simpl snd. rewrite F2, Ext. reflexivity.
  - rewrite BC2, Ext. reflexivity.
  - eapply same_config_trans; eauto.
  - intros s. rewrite CD2. apply CD1.
Qed.
End Loop2.

Section Actions.
Context {tz : LocalZone}.

Lemma in_aggregates now a act :
  In act (flat_map (site_dispatch now a) (_pending_by_site a)) <->
  exists s p, In (s, p) (_pending_by_site a) /\ quorum now a s p = true /\
              act = aggregate_action now a s p.
Proof.
  rewrite in_flat_map. split.
  - intros ([s p] & I & J). unfold site_dispatch in J. simpl in J.
    destruct (quorum now a s p) eqn:Q; [|destruct J].
    destruct J as [<-|[]]. exists s, p. auto.
  - intros (s & p & I & Q & ->). exists (s, p). split; [auto|].
    unfold site_dispatch. simpl. rewrite Q. left. reflexivity.
Qed.

Lemma camera_in_aggregates now a c :
  agg_wf a -> In (camera_id c, c) (_pending_by_camera a) ->
  (In (camera_id c)
      (map camera_id
         (dispatched_candidates
            (flat_map (site_dispatch now a) (_pending_by_site a)))) <->
   in_aggregate now a c = true).
Proof.
  intros W I. destruct (wf_cam a W _ _ I) as (_ & P & IP & IcP).
  pose proof (wf_site_get a _ _ W IP) as G.
  unfold in_aggregate, site_pool_of. rewrite G. rewrite andb_true_iff.
  split.
  - intros J. apply in_map_iff in J. destruct J as (c' & E & J).
    unfold dispatched_candidates in J. apply in_flat_map in J.
    destruct J as (act & Iact & Ic'). apply in_aggregates in Iact.
    destruct Iact as (s & p & Isp & Q & ->). simpl in Ic'.
    pose proof (active_in_pool a now s p c' W Isp Ic') as Ip.
    destruct (wf_site_entry a s p _ _ W Isp Ip) as (_ & Es & Ibc).
    rewrite E in Ibc. assert (c' = c) by (eapply wf_key_unique; eauto). subst c'.
    rewrite Es. pose proof (wf_site_get a _ _ W Isp) as G'.
    rewrite <- Es in G'. rewrite G in G'. inversion G'; subst p.
    split; [exact Q|]. unfold active_of in Ic'. apply filter_In in Ic'. apply Ic'.
  - intros [Q A]. apply in_map. unfold dispatched_candidates.
    apply in_flat_map. exists (aggregate_action now a (site_id c) P).
    split; [apply in_aggregates; eauto|]. simpl. unfold active_of.
    apply filter_In. split; [eapply In_values; eauto | exact A].
Qed.

(** The actions of a flush, for consistent pools: an aggregate action for
    every site that has quorum with its cooldown over, and a single action
    for every pooled candidate that has aged out and did not leave in the
    aggregate action of its site. *)
Lemma process_actions now a act :
  agg_wf a ->
  (In act (fst (process now a)) <->
   (exists s p, In (s, p) (_pending_by_site a) /\ quorum now a s p = true /\
                act = aggregate_action now a s p) \/
   (exists c, In (camera_id c, c) (_pending_by_camera a) /\
              aged now a c = true /\ in_aggregate now a c = false /\
              act = single_action c)).
Proof.
  intros W. destruct (process_spec now a W) as (a1 & a2 & F & BC1 & _).
  cbv zeta in F. rewrite F. simpl fst. rewrite in_app_iff, in_aggregates.
  apply or_iff_compat_l. rewrite in_map_iff. split.
  - intros (c & <- & I). apply filter_In in I. destruct I as [I A].
    apply values_In in I. destruct I as (k & I). rewrite BC1 in I.
    pose proof (pop_cameras_popped _ _ _ _ (wf_cam_nodup a W) I) as N.
    apply pop_cameras_In in I. destruct (wf_cam a W k c I) as (E & _). subst k.
    exists c. repeat split; auto.
    destruct (in_aggregate now a c) eqn:D; [|reflexivity].
    exfalso. apply N. now apply camera_in_aggregates.
  - intros (c & I & A & D & ->). exists c. split; [reflexivity|].
    apply filter_In. split; [|exact A]. apply In_values with (k := camera_id c).
    rewrite BC1. apply pop_cameras_keeps; [|exact I].
    intros J. apply camera_in_aggregates in J; auto. congruence.
Qed.
End Actions.

(** *** The checker [agg_wfb] is sound *)

Lemma nodupb_sound l : nodupb l = true -> NoDup l.
Proof.
  induction l as [|x l IH]; simpl; intros H; constructor.
  - apply andb_true_iff in H. destruct H as [H _].
    intros I. apply negb_true_iff in H.
    assert (existsb (String.eqb x) l = true); [|congruence].
    apply existsb_exists. exists x. split; [auto | apply String.eqb_refl].
  - apply andb_true_iff in H. apply IH, H.
Qed.

Lemma candidate_eqb_eq c d : candidate_eqb c d = true -> c = d.
Proof.
  unfold candidate_eqb. rewrite !andb_true_iff.
  intros ((((H1 & H2) & H3) & H4) & H5).
  apply String.eqb_eq in H1, H5. apply Z.eqb_eq in H3, H4.
  destruct c as [c1 c2 c3 c4 c5], d as [d1 d2 d3 d4 d5]; simpl in *. subst.
  f_equal. destruct c2, d2; simpl in H2; try discriminate; auto.
  apply Z.eqb_eq in H2. now subst.
Qed.

Lemma holds_in_sound k c pool : holds_in k c pool = true -> In (k, c) pool.
Proof.
  unfold holds_in. destruct (dict_get k pool) as [c'|] eqn:G; [|discriminate].
  intros E. apply candidate_eqb_eq in E. subst. now apply dict_get_In.
Qed.

Lemma agg_wfb_sound a : agg_wfb a = true -> agg_wf a.
Proof.
  unfold agg_wfb. rewrite !andb_true_iff.
  intros (((((H1 & H2) & H3) & H4) & H5) & H6).
  rewrite forallb_forall in H5, H6.
  constructor.
  - now apply Z.leb_le.
  - now apply Z.ltb_lt.
  - now apply nodupb_sound.
  - now apply nodupb_sound.
  - intros k c I. specialize (H5 _ I). simpl in H5.
    apply andb_true_iff in H5. destruct H5 as [E H5].
    apply String.eqb_eq in E. split; [auto|].
    destruct (dict_get (site_id c) (_pending_by_site a)) as [pool|] eqn:G; [|discriminate].
    exists pool. split; [now apply dict_get_In | now apply holds_in_sound].
  - intros s pool I. specialize (H6 _ I). simpl in H6.
    rewrite !andb_true_iff in H6. destruct H6 as ((Ne & ND) & H6).
    split; [|split].
    + intros ->. discriminate.
    + now apply nodupb_sound.
    + intros k c J. rewrite forallb_forall in H6. specialize (H6 _ J). simpl in H6.
      apply andb_true_iff in H6. destruct H6 as [E H6].
      apply String.eqb_eq in E. split; [auto | now apply holds_in_sound].
Qed.

Section References.
Context {tz : LocalZone}.

(** An action of a flush that refers to a camera holds the pooled
    candidate of that camera, either in the aggregate action of its site
    or in its single action. *)
Lemma action_refs now a act cam :
  agg_wf a -> In act (fst (process now a)) -> In cam (action_cameras act) ->
  exists c, In (cam, c) (_pending_by_camera a) /\ camera_id c = cam /\
    ((in_aggregate now a c = true /\
      act = aggregate_action now a (site_id c) (site_pool_of (site_id c) a)) \/
     (in_aggregate now a c = false /\ aged now a c = true /\ act = single_action c)).
Proof.
  intros W I R. apply process_actions in I; [|exact W].
  unfold action_cameras in R. apply in_map_iff in R. destruct R as (c & E & Ic).
  destruct I as [(s & p & Isp & Q & ->)|(c' & Ibc & A & D & ->)].
  - simpl in Ic. pose proof (active_in_pool a now s p c W Isp Ic) as Ip.
    destruct (wf_site_entry a s p _ _ W Isp Ip) as (_ & Es & Ibc).
    exists c. rewrite E in Ibc. split; [exact Ibc|]. split; [exact E|]. left.
    pose proof (wf_site_get a _ _ W Isp) as G.
    unfold in_aggregate, site_pool_of. rewrite Es, G. split; [|reflexivity].
    rewrite Q. unfold active_of in Ic. apply filter_In in Ic. apply Ic.
  - simpl in Ic. destruct Ic as [<-|[]]. exists c'. rewrite E in Ibc.
    split; [exact Ibc|]. split; [exact E|]. right. auto.
Qed.
End References.

(** ** Single actions and the window *)

Section Singles.
Context {tz : LocalZone}.

Lemma alone_pooled a c :
  agg_wf a ->
  dict_get (site_id c) (_pending_by_site a) = Some [(camera_id c, c)] ->
  In (camera_id c, c) (_pending_by_camera a).
Proof.
  intros W G. apply dict_get_In in G.
  destruct (wf_site a W _ _ G) as (_ & _ & H). apply (H (camera_id c) c). simpl; auto.
Qed.

Lemma single_action_inj c d : single_action c = single_action d -> c = d.
Proof. unfold single_action. intros E. now inversion E. Qed.

(** C5. A candidate that is alone in its site while the site has fewer
    active candidates than [min_count] is emitted by [process] as a single
    action exactly when [now - ready_at >= window]; before that no action
    of the flush refers to its camera. *)
Theorem single_exactly_when_window_reached now a c :
  agg_wf a ->
  dict_get (site_id c) (_pending_by_site a) = Some [(camera_id c, c)] ->
  Z.of_nat (List.length (active_of now a [(camera_id c, c)])) < min_count a ->
  (In (single_action c) (fst (process now a)) <-> now - ready_at c >= window a) /\
  (now - ready_at c < window a ->
   forall act, In act (fst (process now a)) ->
               ~ In (camera_id c) (action_cameras act)).
Proof.
  intros W G Q. pose proof (alone_pooled a c W G) as I.
  assert (D : in_aggregate now a c = false).
  { unfold in_aggregate, site_pool_of. rewrite G. unfold quorum.
    apply andb_false_iff. left. apply andb_false_iff. left.
    apply Z.leb_gt. exact Q. }
  split; [split|].
  - intros J. apply process_actions in J; [|exact W].
    destruct J as [(s & p & _ & _ & E)|(c' & _ & A & _ & E)].
    + unfold single_action, aggregate_action in E. inversion E.
    + apply single_action_inj in E. subst c'. unfold aged in A.
      apply Z.geb_le in A. lia.
  - intros A. apply process_actions; [exact W|]. right. exists c.
    repeat split; auto. unfold aged. apply Z.geb_le. lia.
  - intros L act J R.
    destruct (action_refs now a act _ W J R) as (c' & Ic' & _ & H).
    assert (c' = c) by (eapply wf_key_unique; eauto). subst c'.
    destruct H as [[H _]|(_ & A & _)]; [congruence|].
    unfold aged in A. apply Z.geb_le in A. lia.
Qed.

(** C9. With [min_count = 1], a site that holds exactly one candidate,
    whose age is within the window, and whose cooldown is over or absent,
    is dispatched as an aggregate action that holds just that candidate;
    no other action of the flush, and so no single action, refers to the
    camera. *)
Theorem quorum_of_one_is_aggregate now a c :
  agg_wf a ->
  min_count a = 1 ->
  dict_get (site_id c) (_pending_by_site a) = Some [(camera_id c, c)] ->
  now - ready_at c <= window a ->
  cooldown_over now (dict_get (site_id c) (_site_cooldown a)) = true ->
  In (mkAlertAction "aggregate" [c] (site_id c) (_within_washdown a [c]))
     (fst (process now a)) /\
  (forall act, In act (fst (process now a)) ->
     In (camera_id c) (action_cameras act) ->
     act = mkAlertAction "aggregate" [c] (site_id c) (_within_washdown a [c])).
Proof.
  intros W M G A CD. pose proof (alone_pooled a c W G) as I.
  assert (Act : active_of now a [(camera_id c, c)] = [c]).
  { unfold active_of. simpl. apply Z.leb_le in A. now rewrite A. }
  assert (Q : quorum now a (site_id c) [(camera_id c, c)] = true).
  { unfold quorum. rewrite Act, M, CD. reflexivity. }
  assert (E : aggregate_action now a (site_id c) [(camera_id c, c)] =
              mkAlertAction "aggregate" [c] (site_id c) (_within_washdown a [c])).
  { unfold aggregate_action. now rewrite Act. }
  split.
  - apply process_actions; [exact W|]. left.
    exists (site_id c), [(camera_id c, c)]. split; [now apply dict_get_In|]. auto.
  - intros act J R.
    destruct (action_refs now a act _ W J R) as (c' & Ic' & _ & H).
    assert (c' = c) by (eapply wf_key_unique; eauto). subst c'.
    unfold in_aggregate, site_pool_of in H. rewrite G in H.
    destruct H as [[_ H]|(H & _)]; [congruence|].
    rewrite Q in H. apply Z.leb_le in A. rewrite A in H. discriminate.
Qed.

Lemma single_step_cooldown_free now acts a cd item :
  single_step now (acts, with_cooldown a cd) item =
  (fst (single_step now (acts, a) item),
   with_cooldown (snd (single_step now (acts, a) item)) cd).
Proof.
  unfold single_step. simpl.
  destruct (now - ready_at (snd item) >=? window a); reflexivity.
Qed.

Lemma singles_cooldown_free now cd : forall items acts a,
  fold_left (single_step now) items (acts, with_cooldown a cd) =
  (fst (fold_left (single_step now) items (acts, a)),
   with_cooldown (snd (fold_left (single_step now) items (acts, a))) cd).
Proof.
  induction items as [|x items IH]; intros acts a; [reflexivity|].
  simpl fold_left. rewrite single_step_cooldown_free.
  destruct (single_step now (acts, a) x) as [acts1 a1]. simpl. apply IH.
Qed.

(** C10. The cooldown of a site only holds back aggregate actions: in a
    flush before the recorded cooldown of its site, a pooled candidate
    whose age has reached the window is emitted as a single action; and
    the second loop of [process] does not read the cooldowns: run with any
    other cooldown table it emits the same actions and leaves the same
    pools. *)
Theorem cooldown_does_not_hold_singles now a c cd :
  agg_wf a ->
  In (camera_id c, c) (_pending_by_camera a) ->
  dict_get (site_id c) (_site_cooldown a) = Some cd ->
  now < cd ->
  now - ready_at c >= window a ->
  In (single_action c) (fst (process now a)) /\
  (forall acts b cd',
     process_singles now (acts, with_cooldown b cd') =
     (fst (process_singles now (acts, b)),
      with_cooldown (snd (process_singles now (acts, b))) cd')).
Proof.
  intros W I G L A. split.
  - apply process_actions; [exact W|]. right. exists c.
    split; [exact I|]. split; [unfold aged; apply Z.geb_le; lia|]. split; [|reflexivity].
    unfold in_aggregate, quorum. rewrite G. simpl.
    apply andb_false_iff. left. apply andb_false_iff. right.
    destruct (Z.geb_spec now cd); [lia | reflexivity].
  - intros acts b cd'. unfold process_singles. simpl. apply singles_cooldown_free.
Qed.
End Singles.

Lemma single_exactly_when_window_reached_witness :
  agg_wf demo_alone /\
  dict_get (site_id demo_c1) (_pending_by_site demo_alone) =
    Some [(camera_id demo_c1, demo_c1)] /\
  Z.of_nat (List.length (active_of 11000000 demo_alone [(camera_id demo_c1, demo_c1)]))
    < min_count demo_alone /\
  ((In (single_action demo_c1) (fst (@process utc_zone 11000000 demo_alone)) <->
    11000000 - ready_at demo_c1 >= window demo_alone) /\
   (11000000 - ready_at demo_c1 < window demo_alone ->
    forall act, In act (fst (@process utc_zone 11000000 demo_alone)) ->
                ~ In (camera_id demo_c1) (action_cameras act))).
Proof.
  split; [apply agg_wfb_sound; vm_compute; reflexivity|].
  split; [vm_compute; reflexivity|].
  split; [vm_compute; reflexivity|].
  apply (@single_exactly_when_window_reached utc_zone 11000000 demo_alone demo_c1).
  - apply agg_wfb_sound. vm_compute. reflexivity.
  - vm_compute. reflexivity.
  - vm_compute. reflexivity.
Defined.

Lemma quorum_of_one_is_aggregate_witness :
  agg_wf demo_quorum_one /\
  min_count demo_quorum_one = 1 /\
  dict_get (site_id demo_c1) (_pending_by_site demo_quorum_one) =
    Some [(camera_id demo_c1, demo_c1)] /\
  0 - ready_at demo_c1 <= window demo_quorum_one /\
  cooldown_over 0 (dict_get (site_id demo_c1) (_site_cooldown demo_quorum_one)) = true /\
  In (mkAlertAction "aggregate" [demo_c1] (site_id demo_c1)
        (@_within_washdown utc_zone demo_quorum_one [demo_c1]))
     (fst (@process utc_zone 0 demo_quorum_one)).
Proof.
  split; [apply agg_wfb_sound; vm_compute; reflexivity|].
  split; [reflexivity|].
  split; [vm_compute; reflexivity|].
  split; [vm_compute; discriminate|].
  split; [vm_compute; reflexivity|].
  apply (@quorum_of_one_is_aggregate utc_zone 0 demo_quorum_one demo_c1).
  - apply agg_wfb_sound. vm_compute. reflexivity.
  - reflexivity.
  - vm_compute. reflexivity.
  - vm_compute. discriminate.
  - vm_compute. reflexivity.
Defined.

Lemma cooldown_does_not_hold_singles_witness :
  agg_wf demo_cooldown /\
  In (camera_id demo_c3, demo_c3) (_pending_by_camera demo_cooldown) /\
  dict_get (site_id demo_c3) (_site_cooldown demo_cooldown) = Some 120000000 /\
  50000000 < 120000000 /\
  50000000 - ready_at demo_c3 >= window demo_cooldown /\
  In (single_action demo_c3) (fst (@process utc_zone 50000000 demo_cooldown)).
Proof.
  split; [apply agg_wfb_sound; vm_compute; reflexivity|].
  split; [vm_compute; auto|].
  split; [vm_compute; reflexivity|].
  split; [lia|].
  split; [vm_compute; discriminate|].
  apply (@cooldown_does_not_hold_singles utc_zone 50000000 demo_cooldown demo_c3 120000000).
  - apply agg_wfb_sound. vm_compute. reflexivity.
  - vm_compute. auto.
  - vm_compute. reflexivity.
  - lia.
  - vm_compute. discriminate.
Defined.

(** ** Invariants of a flush that do not need consistent pools *)

Section Invariants.
Context {tz : LocalZone}.

Lemma aggregate_step_fst now acc x :
  fst (aggregate_step now acc x) = fst acc ++ site_dispatch now (snd acc) x.
Proof.
  unfold aggregate_step, site_dispatch.
  destruct (quorum now (snd acc) (fst x) (snd x)); simpl; [reflexivity|].
  now rewrite app_nil_r.
Qed.

Lemma single_step_fst now acc x :
  fst (single_step now acc x) =
  fst acc ++ (if aged now (snd acc) (snd x) then [single_action (snd x)] else []).
Proof.
  unfold single_step, aged.
  destruct (now - ready_at (snd x) >=? window (snd acc)); simpl; [reflexivity|].
  now rewrite app_nil_r.
Qed.

Lemma aggregate_step_snd now acts acts' a x :
  snd (aggregate_step now (acts, a) x) = snd (aggregate_step now (acts', a) x).
Proof. unfold aggregate_step. simpl. destruct (quorum now a (fst x) (snd x)); reflexivity. Qed.

Lemma single_step_snd now acts acts' a x :
  snd (single_step now (acts, a) x) = snd (single_step now (acts', a) x).
Proof.
  unfold single_step. simpl. destruct (now - ready_at (snd x) >=? window a); reflexivity.
Qed.

Variable Inv : t -> Prop.
Variable Good : AlertAction -> Prop.
Variable Ok1 : string * dict AlertCandidate -> Prop.
Variable Ok2 : string * AlertCandidate -> Prop.
Variable now : datetime.

Hypothesis aggregate_step_inv : forall a x,
  Inv a -> Ok1 x ->
  Inv (snd (aggregate_step now ([], a) x)) /\ Forall Good (site_dispatch now a x).
Hypothesis single_step_inv : forall a x,
  Inv a -> Ok2 x ->
  Inv (snd (single_step now ([], a) x)) /\
  (aged now a (snd x) = true -> Good (single_action (snd x))).
Hypothesis pooled_ok : forall a, Inv a -> Forall Ok2 (_pending_by_camera a).

Lemma aggregates_invariant : forall items acts a,
  Forall Ok1 items -> Inv a -> Forall Good acts ->
  Inv (snd (fold_left (aggregate_step now) items (acts, a))) /\
  Forall Good (fst (fold_left (aggregate_step now) items (acts, a))).
Proof.
  induction items as [|x items IH]; intros acts a O I G; [simpl; auto|].
  inversion O; subst. simpl fold_left.
  destruct (aggregate_step_inv a x I H1) as [I1 G1].
  destruct (aggregate_step now (acts, a) x) as [acts1 a1] eqn:E.
  apply IH; auto.
  - rewrite (aggregate_step_snd now [] acts) in I1. now rewrite E in I1.
  - pose proof (aggregate_step_fst now (acts, a) x) as F. rewrite E in F.
    simpl in F. rewrite F. apply Forall_app. auto.
Qed.

Lemma singles_invariant : forall items acts a,
  Forall Ok2 items -> Inv a -> Forall Good acts ->
  Inv (snd (fold_left (single_step now) items (acts, a))) /\
  Forall Good (fst (fold_left (single_step now) items (acts, a))).
Proof.
  induction items as [|x items IH]; intros acts a O I G; [simpl; auto|].
  inversion O; subst. simpl fold_left.
  destruct (single_step_inv a x I H1) as [I1 G1].
  destruct (single_step now (acts, a) x) as [acts1 a1] eqn:E.
  apply IH; auto.
  - rewrite (single_step_snd now [] acts) in I1. now rewrite E in I1.
  - pose proof (single_step_fst now (acts, a) x) as F. rewrite E in F.
    simpl in F. rewrite F. apply Forall_app. split; [auto|].
    destruct (aged now a (snd x)); auto.
Qed.

Lemma process_invariant a :
  Forall Ok1 (_pending_by_site a) -> Inv a ->
  Inv (snd (process now a)) /\ Forall Good (fst (process now a)).
Proof.
  intros O I. unfold process, process_singles, process_aggregates.
  destruct (aggregates_invariant (_pending_by_site a) [] a O I (Forall_nil _)) as [I1 G1].
  destruct (fold_left (aggregate_step now) (_pending_by_site a) ([], a)) as [acts1 a1].
  simpl in *. apply singles_invariant; auto.
Qed.
End Invariants.

(** ** The washdown hint *)

Lemma in_range_within s e t : in_range s e t = true <-> within s e t.
Proof.
  unfold in_range, within. destruct (dtime_leb s e).
  - rewrite andb_true_iff. intuition congruence.
  - rewrite orb_true_iff. intuition congruence.
Qed.

Section Washdown.
Context {tz : LocalZone}.

Lemma within_washdown_iff a cands :
  _within_washdown a cands = true <->
  exists c, In c cands /\
    exists w, In w (washdown_schedule a) /\
      within (fst w) (snd w) (astimezone_time (ready_at c)).
Proof.
  unfold _within_washdown.
  assert (H : existsb (fun cand =>
                existsb (fun w => in_range (fst w) (snd w)
                                    (astimezone_time (ready_at cand)))
                        (washdown_schedule a)) cands = true <->
              exists c, In c cands /\
                exists w, In w (washdown_schedule a) /\
                  within (fst w) (snd w) (astimezone_time (ready_at c))).
  { rewrite existsb_exists. split.
    - intros (c & I & E). apply existsb_exists in E. destruct E as (w & J & E).
      exists c. split; [auto|]. exists w. split; [auto|]. now apply in_range_within.
    - intros (c & I & w & J & E). exists c. split; [auto|].
      apply existsb_exists. exists w. split; [auto|]. now apply in_range_within. }
  destruct (washdown_schedule a) as [|w0 ws] eqn:S; [|exact H].
  split; [discriminate|]. intros (c & _ & w & [] & _).
Qed.

(** C6. The washdown hint of an aggregate action of a flush is true
    exactly when the [ready_at] of one of its candidates, as a local time
    of day, lies within one of the configured ranges ([start <= t <= end]
    for a range with [start <= end], [t >= start] or [t <= end] for a
    wrapping one); the hint of a single action is false. *)
Theorem washdown_hint_of_actions now a act :
  In act (fst (process now a)) ->
  (kind act = "aggregate"%string ->
   (washdown_hint act = true <->
    exists c, In c (candidates act) /\
      exists w, In w (washdown_schedule a) /\
        within (fst w) (snd w) (astimezone_time (ready_at c)))) /\
  (kind act = "single"%string -> washdown_hint act = false).
Proof.
  intros I.
  pose (Good := fun act : AlertAction =>
    (kind act = "aggregate"%string /\
     forall b, washdown_schedule b = washdown_schedule a ->
               washdown_hint act = _within_washdown b (candidates act)) \/
    (kind act = "single"%string /\ washdown_hint act = false)).
  assert (G : Forall Good (fst (process now a))).
  { apply (process_invariant
             (fun b => washdown_schedule b = washdown_schedule a) Good
             (fun _ => True) (fun _ => True) now); auto.
    - intros b x E _. split.
      + unfold aggregate_step. simpl.
        destruct (quorum now b (fst x) (snd x)); unfold prune; simpl;
          repeat (match goal with |- context [if ?t then _ else _] => destruct t end);
          simpl; auto.
      + unfold site_dispatch. destruct (quorum now b (fst x) (snd x)); constructor; auto.
        left. simpl. split; [reflexivity|]. intros b' E'.
        unfold _within_washdown. now rewrite E, E'.
    - intros b x E _. split.
      + unfold single_step. simpl.
        destruct (now - ready_at (snd x) >=? window b); simpl; auto.
      + intros _. right. simpl. auto.
    - intros b _. apply Forall_forall. auto.
    - apply Forall_forall. auto. }
  rewrite Forall_forall in G. specialize (G act I).
  destruct G as [[K H]|[K H]].
  - split; [|intros K'; rewrite K in K'; discriminate].
    intros _. rewrite (H a eq_refl). apply within_washdown_iff.
  - split; [intros K'; rewrite K in K'; discriminate | auto].
Qed.
End Washdown.

Lemma washdown_hint_of_actions_witness :
  In (mkAlertAction "aggregate" [demo_w1; demo_w2] "SiteA" true)
     (fst (@process utc_zone 1800000000 demo_washdown)) /\
  (washdown_hint (mkAlertAction "aggregate" [demo_w1; demo_w2] "SiteA" true) = true <->
   exists c, In c [demo_w1; demo_w2] /\
     exists w, In w (washdown_schedule demo_washdown) /\
       within (fst w) (snd w) (@astimezone_time utc_zone (ready_at c))).
Proof.
  split; [vm_compute; auto|].
  apply (@washdown_hint_of_actions utc_zone 1800000000 demo_washdown
           (mkAlertAction "aggregate" [demo_w1; demo_w2] "SiteA" true)).
  - vm_compute. auto.
  - reflexivity.
Defined.

(** ** Aggregate actions and the cooldown of a site *)

Section Cooldown.
Context {tz : LocalZone}.

Lemma prune_cooldown s p a :
  _site_cooldown (prune s p a) = _site_cooldown a /\ same_config a (prune s p a).
Proof. unfold prune, same_config. destruct (dict_is_empty p); simpl; auto. Qed.

Lemma aggregate_step_cooldown now acts a x :
  _site_cooldown (snd (aggregate_step now (acts, a) x)) =
    (if quorum now a (fst x) (snd x)
     then dict_set (fst x) (now + suppress a) (_site_cooldown a)
     else _site_cooldown a) /\
  same_config a (snd (aggregate_step now (acts, a) x)).
Proof.
  unfold aggregate_step. simpl. destruct (quorum now a (fst x) (snd x)); simpl.
  - match goal with |- context [prune ?s ?p ?b] =>
      destruct (prune_cooldown s p b) as [E C] end.
    rewrite E. split; [reflexivity|].
    eapply same_config_trans; [|exact C]. unfold same_config. simpl. auto.
  - apply prune_cooldown.
Qed.

Lemma single_step_cooldown now acts a x :
  _site_cooldown (snd (single_step now (acts, a) x)) = _site_cooldown a /\
  same_config a (snd (single_step now (acts, a) x)).
Proof.
  unfold single_step, same_config. simpl.
  destruct (now - ready_at (snd x) >=? window a); simpl; auto.
Qed.

Lemma cooling_process sup sid bound now a :
  0 < sup -> cooling sup sid bound a ->
  cooling sup sid bound (snd (process now a)) /\
  (now < bound ->
   forall act, In act (fst (process now a)) ->
     ~ (kind act = "aggregate"%string /\ action_site_id act = sid)).
Proof.
  intros Sup J.
  pose (Good := fun act : AlertAction =>
    now < bound -> ~ (kind act = "aggregate"%string /\ action_site_id act = sid)).
  destruct (process_invariant (cooling sup sid bound) Good
              (fun _ => True) (fun _ => True) now) with (a := a) as [I G]; auto.
  - intros b x (Sb & cd & Gc & B) _.
    destruct (aggregate_step_cooldown now [] b x) as [E (_ & _ & Es & _)].
    split.
    + split; [congruence|]. rewrite E.
      destruct (quorum now b (fst x) (snd x)) eqn:Q; [|eauto].
      destruct (string_dec sid (fst x)) as [Ex|N].
      * rewrite <- Ex in *.
        rewrite dict_get_set_eq. eexists. split; [reflexivity|].
        unfold quorum in Q. apply andb_true_iff in Q. destruct Q as [_ Q].
        rewrite Gc in Q. simpl in Q. apply Z.geb_le in Q. lia.
      * rewrite dict_get_set_ne by auto. eauto.
    + unfold site_dispatch. destruct (quorum now b (fst x) (snd x)) eqn:Q; constructor; auto.
      intros L [_ K]. simpl in K. rewrite K in *.
      unfold quorum in Q. apply andb_true_iff in Q. destruct Q as [_ Q].
      rewrite Gc in Q. simpl in Q. apply Z.geb_le in Q. lia.
  - intros b x (Sb & cd & Gc & B) _.
    destruct (single_step_cooldown now [] b x) as [E (_ & _ & Es & _)].
    split.
    + split; [congruence|]. rewrite E. eauto.
    + intros _ _ [K _]. discriminate K.
  - intros b _. apply Forall_forall. auto.
  - apply Forall_forall. auto.
  - split; [exact I|]. intros L act Iact. rewrite Forall_forall in G.
    apply (G act Iact L).
Qed.

Lemma cooling_run sup sid bound : forall ops a,
  0 < sup -> cooling sup sid bound a -> cooling sup sid bound (agg_run ops a).
Proof.
  induction ops as [|op ops IH]; intros a Sup J; [exact J|].
  simpl. apply IH; [exact Sup|]. destruct op as [c|cam|now]; simpl.
  - exact J.
  - destruct J as (S & cd & G & B). split.
    + destruct (cancel_config cam a) as (_ & _ & E & _). congruence.
    + rewrite cancel_cooldown. eauto.
  - now apply cooling_process.
Qed.

(** Every candidate of an action of a flush has left both pools. *)
Lemma dispatched_removed now a act c :
  agg_wf a -> In act (fst (process now a)) -> In c (candidates act) ->
  dict_get (camera_id c) (_pending_by_camera (snd (process now a))) = None /\
  forall s p, In (s, p) (_pending_by_site (snd (process now a))) ->
              dict_get (camera_id c) p = None.
Proof.
  intros W I Ic.
  destruct (process_spec now a W) as (a1 & a2 & F & BC1 & BC2 & W1 & W2 & _).
  cbv zeta in F. rewrite F in *. simpl fst in I. simpl snd.
  assert (N : ~ In (camera_id c) (dict_keys (_pending_by_camera a2))).
  { rewrite BC2. apply in_app_iff in I. destruct I as [I|I].
    - apply pop_cameras_not_key. rewrite BC1. apply pop_cameras_gone.
      + apply (wf_cam_nodup a W).
      + apply in_map. unfold dispatched_candidates. apply in_flat_map. eauto.
    - apply in_map_iff in I. destruct I as (c0 & <- & I0). simpl in Ic.
      destruct Ic as [<-|[]]. apply pop_cameras_gone.
      + apply (wf_cam_nodup a1 W1).
      + now apply in_map. }
  split; [now apply dict_get_None|].
  intros s p Isp. destruct (dict_get (camera_id c) p) as [c'|] eqn:G; [|reflexivity].
  exfalso. apply N. apply dict_get_In in G.
  destruct (wf_site_entry a2 s p _ _ W2 Isp G) as (_ & _ & Ibc).
  eapply In_keys; eauto.
Qed.

(** C3. For consistent pools, a flush emits an aggregate action for a site
    exactly when the pool of the site holds at least [min_count] candidates
    with [now - ready_at <= window] and the site has no cooldown or
    [now >= cooldown]. When it does, the candidates of the action have left
    both pools, the cooldown of the site is [now + suppress], and whatever
    is enqueued, cancelled or flushed afterwards, no flush at a time before
    [now + suppress] emits an aggregate action for that site. *)
Theorem aggregate_dispatch_and_cooldown now a sid :
  agg_wf a ->
  let emits := fun t b =>
    exists act, In act (fst (process t b)) /\
                kind act = "aggregate"%string /\ action_site_id act = sid in
  let a' := snd (process now a) in
  (emits now a <->
   min_count a <= Z.of_nat (List.length (active_of now a (site_pool_of sid a))) /\
   match dict_get sid (_site_cooldown a) with
   | None => True
   | Some cooldown => now >= cooldown
   end) /\
  (emits now a ->
   (forall act c, In act (fst (process now a)) ->
      kind act = "aggregate"%string -> action_site_id act = sid ->
      In c (candidates act) ->
      dict_get (camera_id c) (_pending_by_camera a') = None /\
      forall s p, In (s, p) (_pending_by_site a') -> dict_get (camera_id c) p = None) /\
   dict_get sid (_site_cooldown a') = Some (now + suppress a) /\
   forall ops now', now' < now + suppress a -> ~ emits now' (agg_run ops a')).
Proof.
  intros W emits a'.
  assert (Iff : emits now a <->
                quorum now a sid (site_pool_of sid a) = true /\
                dict_mem sid (_pending_by_site a) = true).
  { unfold emits. split.
    - intros (act & I & K & S). apply process_actions in I; [|exact W].
      destruct I as [(s & p & Isp & Q & ->)|(c & _ & _ & _ & ->)]; [|discriminate K].
      simpl in S. subst s. pose proof (wf_site_get a _ _ W Isp) as G.
      unfold site_pool_of, dict_mem. rewrite G. auto.
    - intros [Q M]. unfold site_pool_of, dict_mem in *.
      destruct (dict_get sid (_pending_by_site a)) as [p|] eqn:G; [|discriminate].
      exists (aggregate_action now a sid p). split; [|auto].
      apply process_actions; [exact W|]. left. exists sid, p.
      split; [now apply dict_get_In | auto]. }
  split.
  - rewrite Iff. unfold quorum, cooldown_over. rewrite andb_true_iff, Z.leb_le.
    split.
    + intros [[L C] _]. split; [exact L|].
      destruct (dict_get sid (_site_cooldown a)); [apply Z.geb_le in C; lia | exact I].
    + intros [L C]. split; [split; [exact L|]|].
      * destruct (dict_get sid (_site_cooldown a)); [apply Z.geb_le; lia | reflexivity].
      * unfold site_pool_of, dict_mem in *.
        destruct (dict_get sid (_pending_by_site a)); [reflexivity|].
        pose proof (wf_min_count a W). simpl in L. lia.
  - intros E. apply Iff in E. destruct E as [Q M].
    assert (CD : dict_get sid (_site_cooldown a') = Some (now + suppress a)).
    { destruct (process_spec now a W) as (a1 & a2 & F & _ & _ & _ & _ & _ & C).
      cbv zeta in F. unfold a'. rewrite F. simpl snd. rewrite C, Q, M. reflexivity. }
    split; [|split; [exact CD|]].
    + intros act c I _ _ Ic. now apply (dispatched_removed now a act c).
    + intros ops now' L (act & I & K & S).
      assert (J : cooling (suppress a) sid (now + suppress a) (agg_run ops a')).
      { apply cooling_run; [apply (wf_suppress a W)|]. split.
        - destruct (process_spec now a W) as (a1 & a2 & F & _ & _ & _ & _ & C & _).
          cbv zeta in F. unfold a'. rewrite F. simpl snd.
          destruct C as (_ & _ & Es & _). auto.
        - exists (now + suppress a). split; [exact CD | lia]. }
      destruct (cooling_process _ _ _ now' _ (wf_suppress a W) J) as [_ B].
      apply (B L act I). auto.
Qed.
End Cooldown.

(** ** Cancelling a candidate *)

Lemma dict_set_same (V : Type) k (v : V) d : dict_get k d = Some v -> dict_set k v d = d.
Proof.
  induction d as [|[k2 v2] r IH]; simpl; [discriminate|].
  destruct (String.eqb_spec k k2).
  - intros E. inversion E. now subst.
  - intros E. now rewrite IH.
Qed.

Lemma dict_set_set (V : Type) k (v v' : V) d :
  dict_set k v (dict_set k v' d) = dict_set k v d.
Proof.
  induction d as [|[k2 v2] r IH]; simpl.
  - now rewrite String.eqb_refl.
  - destruct (String.eqb_spec k k2); simpl.
    + destruct (String.eqb_spec k k2); congruence.
    + destruct (String.eqb_spec k k2); congruence.
Qed.

Lemma pop_cameras_values cs : forall (d : dict AlertCandidate) c,
  In c (dict_values (pop_cameras cs d)) -> In c (dict_values d).
Proof.
  intros d c I. apply values_In in I. destruct I as (k & I).
  apply pop_cameras_In in I. eapply In_values; eauto.
Qed.

Lemma wf_absent a cam :
  agg_wf a -> ~ In cam (dict_keys (_pending_by_camera a)) -> absent cam a.
Proof.
  intros W N. split.
  - intros c I E. apply values_In in I. destruct I as (k & I).
    destruct (wf_cam a W k c I) as (Ek & _). apply N. rewrite <- E, Ek.
    eapply In_keys; eauto.
  - intros s p c Isp I E. apply values_In in I. destruct I as (k & I).
    destruct (wf_site_entry a s p k c W Isp I) as (Ek & _ & Ibc).
    apply N. rewrite <- E, Ek. eapply In_keys; eauto.
Qed.

Lemma drop_from_site_values site cam by_site s p c :
  In (s, p) (drop_from_site site cam by_site) -> In c (dict_values p) ->
  exists p0, In (s, p0) by_site /\ In c (dict_values p0).
Proof.
  unfold drop_from_site. destruct (dict_get site by_site) as [p0|] eqn:G; [|eauto].
  destruct (dict_is_empty (dict_pop cam p0)).
  - intros I J. exists p. split; [eapply In_pop; eauto | auto].
  - intros I J. apply In_set in I.
    destruct I as [[-> ->]|[[_ I]|[I _]]]; [|eauto|eauto].
    exists p0. split; [now apply dict_get_In | eapply values_pop_incl; eauto].
Qed.

Lemma enqueue_absent cam c a :
  camera_id c <> cam -> absent cam a -> absent cam (enqueue c a).
Proof.
  intros N [A1 A2]. split; simpl.
  - intros c' I. apply values_set_incl in I. destruct I as [->|I]; auto.
  - intros s p c' I J. apply In_set in I.
    assert (H : (p = dict_set (camera_id c) c
                      match dict_get (site_id c) (_pending_by_site a) with
                      | Some p => p
                      | None => []
                      end) \/ In (s, p) (_pending_by_site a)) by tauto.
    clear I. destruct H as [->|I]; [|eauto].
    apply values_set_incl in J. destruct J as [->|J]; [auto|].
    destruct (dict_get (site_id c) (_pending_by_site a)) as [p0|] eqn:G; [|destruct J].
    apply dict_get_In in G. eauto.
Qed.

Lemma cancel_absent cam k a : absent cam a -> absent cam (cancel k a).
Proof.
  intros [A1 A2]. unfold cancel.
  destruct (dict_get k (_pending_by_camera a)) as [c|]; [|split; auto].
  split; simpl.
  - intros c' I. apply values_pop_incl in I. auto.
  - intros s p c' I J.
    destruct (drop_from_site_values _ _ _ _ _ _ I J) as (p0 & I0 & J0). eauto.
Qed.

Section Cancel.
Context {tz : LocalZone}.

Lemma process_absent cam now a :
  absent cam a ->
  absent cam (snd (process now a)) /\
  forall act, In act (fst (process now a)) -> ~ In cam (action_cameras act).
Proof.
  intros A.
  pose (Good := fun act : AlertAction =>
                  forall c, In c (candidates act) -> camera_id c <> cam).
  destruct (process_invariant (absent cam) Good
              (fun x => forall c, In c (dict_values (snd x)) -> camera_id c <> cam)
              (fun x => camera_id (snd x) <> cam) now) with (a := a) as [I G]; auto.
  - intros b x [B1 B2] O. split.
    + unfold aggregate_step. simpl.
      destruct (quorum now b (fst x) (snd x)); unfold prune.
      * assert (H : absent cam
                 (with_cooldown
                    (with_pools b
                       (pop_cameras (active_of now b (snd x)) (_pending_by_camera b))
                       (if dict_mem (fst x) (_pending_by_site b)
                        then dict_set (fst x)
                               (pop_cameras (active_of now b (snd x)) (snd x))
                               (_pending_by_site b)
                        else _pending_by_site b))
                    (dict_set (fst x) (now + suppress b) (_site_cooldown b)))).
        { split; simpl.
          - intros c I. apply pop_cameras_values in I. auto.
          - intros s p c I J. destruct (dict_mem (fst x) (_pending_by_site b)); [|eauto].
            apply In_set in I.
            assert (H : p = pop_cameras (active_of now b (snd x)) (snd x) \/
                        In (s, p) (_pending_by_site b)) by tauto.
            destruct H as [->|H]; [|eauto].
            apply pop_cameras_values in J. auto. }
        destruct (dict_is_empty _); [|exact H].
        destruct H as [H1 H2]. split; simpl; [exact H1|].
        intros s p c I J. apply In_pop in I. eapply H2; eauto.
      * destruct (dict_is_empty (snd x)); [|split; auto].
        split; simpl; [exact B1|].
        intros s p c I J. apply In_pop in I. eauto.
    + unfold site_dispatch. destruct (quorum now b (fst x) (snd x)); constructor; auto.
      intros c I. simpl in I. unfold active_of in I. apply filter_In in I. apply O, I.
  - intros b x [B1 B2] O. split.
    + unfold single_step. simpl.
      destruct (now - ready_at (snd x) >=? window b); [|split; auto].
      split; simpl.
      * intros c I. apply values_pop_incl in I. auto.
      * intros s p c I J.
        destruct (drop_from_site_values _ _ _ _ _ _ I J) as (p0 & I0 & J0). eauto.
    + intros _ c [<-|[]]. exact O.
  - intros b [B1 _]. apply Forall_forall. intros [k c] I. simpl.
    apply B1. eapply In_values; eauto.
  - destruct A as [_ A2]. apply Forall_forall. intros [s p] I c J. simpl in J. eauto.
  - split; [exact I|]. intros act Iact R. rewrite Forall_forall in G.
    unfold action_cameras in R. apply in_map_iff in R. destruct R as (c & E & Ic).
    apply (G act Iact c Ic E).
Qed.

Lemma run_absent cam : forall ops a,
  (forall op, In op ops -> ~ enqueues cam op) ->
  absent cam a -> absent cam (agg_run ops a).
Proof.
  induction ops as [|op ops IH]; intros a N A; [exact A|].
  simpl. apply IH; [intros o I; apply N; simpl; auto|].
  assert (No : ~ enqueues cam op) by (apply N; simpl; auto).
  destruct op as [c|k|now]; simpl.
  - apply enqueue_absent; auto.
  - now apply cancel_absent.
  - now apply process_absent.
Qed.

Lemma cancel_site_pools a cam s k :
  agg_wf a -> k <> cam ->
  dict_get k (site_pool_of s (cancel cam a)) = dict_get k (site_pool_of s a).
Proof.
  intros W Nk. unfold cancel.
  destruct (dict_get cam (_pending_by_camera a)) as [c|]; [|reflexivity].
  unfold site_pool_of, drop_from_site. simpl.
  destruct (dict_get (site_id c) (_pending_by_site a)) as [p|] eqn:G; [|reflexivity].
  destruct (string_dec s (site_id c)) as [->|Ns].
  - rewrite G. destruct (dict_is_empty (dict_pop cam p)) eqn:Em.
    + assert (D : dict_get (site_id c) (dict_pop (site_id c) (_pending_by_site a)) = None).
      { apply dict_get_None, pop_not_key, (wf_site_nodup a W). }
      rewrite D. apply dict_is_empty_nil in Em.
      rewrite <- (dict_get_pop_ne cam k p Nk), Em. reflexivity.
    + rewrite dict_get_set_eq. now apply dict_get_pop_ne.
  - destruct (dict_is_empty (dict_pop cam p)).
    + now rewrite dict_get_pop_ne.
    + now rewrite dict_get_set_ne.
Qed.

Lemma enqueue_cancel a c :
  agg_wf a -> dict_get (camera_id c) (_pending_by_camera a) = None ->
  cancel (camera_id c) (enqueue c a) = a.
Proof.
  intros W G. unfold cancel, enqueue. simpl. rewrite dict_get_set_eq.
  unfold drop_from_site. rewrite dict_get_set_eq. rewrite pop_set_fresh by exact G.
  destruct (dict_get (site_id c) (_pending_by_site a)) as [p|] eqn:Gs.
  - pose proof (dict_get_In _ _ _ Gs) as Is.
    destruct (wf_site a W _ _ Is) as (Ne & _ & H).
    assert (Gp : dict_get (camera_id c) p = None).
    { destruct (dict_get (camera_id c) p) as [c'|] eqn:Gp; [|reflexivity].
      apply dict_get_In in Gp. destruct (H _ _ Gp) as [_ Ibc].
      apply dict_get_None in G. exfalso. apply G. eapply In_keys; eauto. }
    rewrite pop_set_fresh by exact Gp.
    destruct p as [|x p]; [congruence|]. simpl dict_is_empty. cbv iota.
    rewrite dict_set_set. rewrite (dict_set_same _ _ _ _ Gs).
    destruct a; reflexivity.
  - simpl. rewrite String.eqb_refl. simpl. rewrite pop_set_fresh by exact Gs.
    destruct a; reflexivity.
Qed.

(** C7. For consistent pools, cancelling a camera that has a pending
    candidate takes the candidate out of the global pool and out of the
    pool of its site, leaves no empty site pool, and leaves the entries of
    the other cameras and the cooldowns as they were; as long as the camera
    is not enqueued again, no later flush at any time emits an action that
    refers to it; cancelling a candidate that was just enqueued gives back
    the pools as they were before; cancelling a camera without a pending
    candidate changes nothing. *)
Theorem cancel_removes_candidate a cam :
  agg_wf a ->
  (forall c, dict_get cam (_pending_by_camera a) = Some c ->
     dict_get cam (_pending_by_camera (cancel cam a)) = None /\
     (forall s p, In (s, p) (_pending_by_site (cancel cam a)) ->
                  dict_get cam p = None /\ p <> []) /\
     (forall k, k <> cam ->
        dict_get k (_pending_by_camera (cancel cam a)) =
        dict_get k (_pending_by_camera a)) /\
     (forall s k, k <> cam ->
        dict_get k (site_pool_of s (cancel cam a)) = dict_get k (site_pool_of s a)) /\
     _site_cooldown (cancel cam a) = _site_cooldown a /\
     (forall ops now act,
        (forall op, In op ops -> ~ enqueues cam op) ->
        In act (fst (process now (agg_run ops (cancel cam a)))) ->
        ~ In cam (action_cameras act))) /\
  (forall c, camera_id c = cam -> dict_get cam (_pending_by_camera a) = None ->
             cancel cam (enqueue c a) = a) /\
  (dict_get cam (_pending_by_camera a) = None -> cancel cam a = a).
Proof.
  intros W. split; [|split].
  - intros c G. pose proof (cancel_wf a cam W) as W'.
    assert (N : ~ In cam (dict_keys (_pending_by_camera (cancel cam a)))).
    { rewrite cancel_by_camera. apply pop_not_key, (wf_cam_nodup a W). }
    split; [now apply dict_get_None|]. split; [|split; [|split; [|split]]].
    + intros s p I. split; [|apply (wf_site _ W' s p I)].
      destruct (dict_get cam p) as [c'|] eqn:Gp; [|reflexivity].
      exfalso. apply N. apply dict_get_In in Gp.
      destruct (wf_site_entry _ s p _ _ W' I Gp) as (_ & _ & Ibc).
      eapply In_keys; eauto.
    + intros k Nk. rewrite cancel_by_camera. now apply dict_get_pop_ne.
    + intros s k Nk. now apply cancel_site_pools.
    + apply cancel_cooldown.
    + intros ops now act No I.
      apply (process_absent cam now (agg_run ops (cancel cam a))); [|exact I].
      apply run_absent; [exact No|]. now apply wf_absent.
  - intros c <- G. now apply enqueue_cancel.
  - intros G. unfold cancel. now rewrite G.
Qed.
End Cancel.

Lemma aggregate_dispatch_and_cooldown_witness :
  agg_wf demo_pair /\
  ((exists act, In act (fst (@process utc_zone 0 demo_pair)) /\
                kind act = "aggregate"%string /\ action_site_id act = "SiteA"%string) <->
   min_count demo_pair <=
     Z.of_nat (List.length (active_of 0 demo_pair (site_pool_of "SiteA" demo_pair))) /\
   match dict_get "SiteA" (_site_cooldown demo_pair) with
   | None => True
   | Some cooldown => 0 >= cooldown
   end).
Proof.
  split; [apply agg_wfb_sound; vm_compute; reflexivity|].
  apply (@aggregate_dispatch_and_cooldown utc_zone 0 demo_pair "SiteA").
  apply agg_wfb_sound. vm_compute. reflexivity.
Defined.

Lemma cancel_removes_candidate_witness :
  agg_wf demo_pair /\
  dict_get "CAM-01" (_pending_by_camera demo_pair) = Some demo_c1 /\
  dict_get "CAM-01" (_pending_by_camera (cancel "CAM-01" demo_pair)) = None.
Proof.
  split; [apply agg_wfb_sound; vm_compute; reflexivity|].
  split; [vm_compute; reflexivity|].
  apply (proj1 (@cancel_removes_candidate utc_zone demo_pair "CAM-01"
                  (agg_wfb_sound demo_pair eq_refl)) demo_c1).
  vm_compute. reflexivity.
Defined.

(** ** The response to an alert *)

Lemma after_alert_cons now decision cam cams e :
  AlertEngine._after_alert now (cam :: cams) decision e =
  AlertEngine._after_alert now cams decision
    (AlertEngine.after_alert_step now decision e cam).
Proof. reflexivity. Qed.

Lemma after_alert_step_other now decision e cam cam' :
  cam' <> cam ->
  dict_get cam' (AlertEngine.state (AlertEngine.after_alert_step now decision e cam)) =
  dict_get cam' (AlertEngine.state e).
Proof.
  intros N. unfold AlertEngine.after_alert_step.
  destruct (dict_get cam (AlertEngine.state e)); [|reflexivity].
  destruct (String.eqb decision "clean"); simpl; now apply dict_get_set_ne.
Qed.

Lemma after_alert_step_fixed now decision e cam :
  AlertEngine.aggregator (AlertEngine.after_alert_step now decision e cam) =
    AlertEngine.aggregator e /\
  AlertEngine.suppress (AlertEngine.after_alert_step now decision e cam) =
    AlertEngine.suppress e /\
  AlertEngine.threshold (AlertEngine.after_alert_step now decision e cam) =
    AlertEngine.threshold e /\
  AlertEngine.site_lookup (AlertEngine.after_alert_step now decision e cam) =
    AlertEngine.site_lookup e /\
  AlertEngine.line_lookup (AlertEngine.after_alert_step now decision e cam) =
    AlertEngine.line_lookup e.
Proof.
  unfold AlertEngine.after_alert_step.
  destruct (dict_get cam (AlertEngine.state e)); [|auto].
  destruct (String.eqb decision "clean"); simpl; auto.
Qed.

Lemma after_alert_fixed now decision : forall cams e,
  AlertEngine.aggregator (AlertEngine._after_alert now cams decision e) =
    AlertEngine.aggregator e /\
  AlertEngine.suppress (AlertEngine._after_alert now cams decision e) =
    AlertEngine.suppress e /\
  AlertEngine.threshold (AlertEngine._after_alert now cams decision e) =
    AlertEngine.threshold e /\
  AlertEngine.site_lookup (AlertEngine._after_alert now cams decision e) =
    AlertEngine.site_lookup e /\
  AlertEngine.line_lookup (AlertEngine._after_alert now cams decision e) =
    AlertEngine.line_lookup e.
Proof.
  induction cams as [|c cams IH]; intros e; [simpl; auto|].
  rewrite after_alert_cons.
  destruct (IH (AlertEngine.after_alert_step now decision e c)) as (A & B & C & D & E).
  destruct (after_alert_step_fixed now decision e c) as (A' & B' & C' & D' & E').
  repeat split; congruence.
Qed.

Lemma after_alert_other now decision cam : forall cams e,
  ~ In cam cams ->
  dict_get cam (AlertEngine.state (AlertEngine._after_alert now cams decision e)) =
  dict_get cam (AlertEngine.state e).
Proof.
  induction cams as [|c cams IH]; intros e N; [reflexivity|].
  rewrite after_alert_cons. simpl in N. rewrite IH by tauto.
  apply after_alert_step_other. intros E. apply N. auto.
Qed.

(** *** The answer ["clean"] *)

Lemma clean_step_state now e cam st :
  dict_get cam (AlertEngine.state e) = Some st ->
  dict_get cam (AlertEngine.state (AlertEngine.after_alert_step now "clean" e cam)) =
  Some clear_state.
Proof.
  intros G. unfold AlertEngine.after_alert_step. rewrite G. simpl.
  apply dict_get_set_eq.
Qed.

Lemma clean_state now cam : forall cams e st,
  In cam cams -> dict_get cam (AlertEngine.state e) = Some st ->
  dict_get cam (AlertEngine.state (AlertEngine._after_alert now cams "clean" e)) =
  Some clear_state.
Proof.
  induction cams as [|c cams IH]; intros e st I G; [destruct I|].
  rewrite after_alert_cons. destruct (string_dec c cam) as [->|N].
  - pose proof (clean_step_state now e cam st G) as G1.
    destruct (in_dec string_dec cam cams) as [J|J].
    + eapply IH; eauto.
    + now rewrite after_alert_other.
  - destruct I as [E|I]; [congruence|]. eapply IH; [exact I|].
    rewrite after_alert_step_other by auto. exact G.
Qed.

Lemma step_episodes now decision e cam :
  exists l, AlertEngine.episode_store (AlertEngine.after_alert_step now decision e cam) =
            AlertEngine.episode_store e ++ l.
Proof.
  unfold AlertEngine.after_alert_step.
  destruct (dict_get cam (AlertEngine.state e)) as [st|];
    [|exists []; now rewrite app_nil_r].
  destruct (String.eqb decision "clean"); simpl; [|exists []; now rewrite app_nil_r].
  destruct (blur_start st); [eauto | exists []; now rewrite app_nil_r].
Qed.

Lemma after_alert_episodes now decision : forall cams e,
  exists l, AlertEngine.episode_store (AlertEngine._after_alert now cams decision e) =
            AlertEngine.episode_store e ++ l.
Proof.
  induction cams as [|c cams IH]; intros e; [exists []; simpl; now rewrite app_nil_r|].
  rewrite after_alert_cons.
  destruct (IH (AlertEngine.after_alert_step now decision e c)) as (l & E).
  destruct (step_episodes now decision e c) as (l0 & E0).
  exists (l0 ++ l). rewrite E, E0. now rewrite app_assoc.
Qed.

Lemma clean_episode now cam : forall cams e st since,
  In cam cams -> dict_get cam (AlertEngine.state e) = Some st ->
  blur_start st = Some since ->
  exists l1 l2,
    AlertEngine.episode_store (AlertEngine._after_alert now cams "clean" e) =
    AlertEngine.episode_store e ++ l1 ++ (cam, since, now) :: l2.
Proof.
  induction cams as [|c cams IH]; intros e st since I G B; [destruct I|].
  rewrite after_alert_cons. destruct (string_dec c cam) as [->|N].
  - destruct (after_alert_episodes now "clean" cams
                (AlertEngine.after_alert_step now "clean" e cam)) as (l & E).
    exists [], l. rewrite E. unfold AlertEngine.after_alert_step. rewrite G. simpl.
    rewrite B. simpl. now rewrite <- app_assoc.
  - destruct I as [E|I]; [congruence|].
    destruct (IH (AlertEngine.after_alert_step now "clean" e c) st since I) as (l1 & l2 & E);
      [rewrite after_alert_step_other by auto; exact G | exact B |].
    destruct (step_episodes now "clean" e c) as (l0 & E0).
    exists (l0 ++ l1), l2. rewrite E, E0. now rewrite <- !app_assoc.
Qed.

Lemma set_blurry_same cam sim :
  dict_get cam (Simulator.state (Simulator.set_blurry cam false sim)) =
  cleared (dict_get cam (Simulator.state sim)).
Proof.
  unfold Simulator.set_blurry, dict_mem.
  destruct (dict_get cam (Simulator.state sim)) eqn:G; simpl.
  - apply dict_get_set_eq.
  - exact G.
Qed.

Lemma set_blurry_other cam cam' b sim :
  cam' <> cam ->
  dict_get cam' (Simulator.state (Simulator.set_blurry cam b sim)) =
  dict_get cam' (Simulator.state sim).
Proof.
  intros N. unfold Simulator.set_blurry.
  destruct (dict_mem cam (Simulator.state sim)); simpl; [|reflexivity].
  now apply dict_get_set_ne.
Qed.

Lemma clean_simulator now cam : forall cams e st sim,
  dict_get cam (AlertEngine.state e) = Some st ->
  AlertEngine.simulator e = Some sim ->
  exists sim',
    AlertEngine.simulator (AlertEngine._after_alert now cams "clean" e) = Some sim' /\
    dict_get cam (Simulator.state sim') =
    if in_dec string_dec cam cams
    then cleared (dict_get cam (Simulator.state sim))
    else dict_get cam (Simulator.state sim).
Proof.
  induction cams as [|c cams IH]; intros e st sim G S; [exists sim; auto|].
  rewrite after_alert_cons. destruct (string_dec c cam) as [->|N].
  - destruct (IH (AlertEngine.after_alert_step now "clean" e cam) clear_state
                (Simulator.set_blurry cam false sim)) as (sim' & S' & G').
    + eapply clean_step_state; eauto.
    + unfold AlertEngine.after_alert_step. rewrite G. simpl. now rewrite S.
    + exists sim'. split; [exact S'|]. rewrite G', set_blurry_same.
      destruct (in_dec string_dec cam (cam :: cams)) as [_|J]; [|exfalso; apply J; simpl; auto].
      destruct (in_dec string_dec cam cams); [|reflexivity].
      destruct (dict_get cam (Simulator.state sim)); reflexivity.
  - assert (exists sim1,
              AlertEngine.simulator (AlertEngine.after_alert_step now "clean" e c) = Some sim1 /\
              dict_get cam (Simulator.state sim1) = dict_get cam (Simulator.state sim))
      as (sim1 & S1 & G1).
    { unfold AlertEngine.after_alert_step.
      destruct (dict_get c (AlertEngine.state e)); simpl; [|eauto].
      rewrite S. simpl. eexists. split; [reflexivity|]. now apply set_blurry_other. }
    destruct (IH (AlertEngine.after_alert_step now "clean" e c) st sim1) as (sim' & S' & G');
      [rewrite after_alert_step_other by auto; exact G | exact S1 |].
    exists sim'. split; [exact S'|]. rewrite G', G1.
    destruct (in_dec string_dec cam cams) as [J|J];
      destruct (in_dec string_dec cam (c :: cams)) as [K|K]; try reflexivity.
    + exfalso. apply K. simpl; auto.
    + destruct K as [K|K]; [congruence | contradiction].
Qed.

(** *** Any other answer, handled as ["ignore"] *)

Lemma ignore_step_state now decision e cam st :
  String.eqb decision "clean" = false ->
  dict_get cam (AlertEngine.state e) = Some st ->
  dict_get cam (AlertEngine.state (AlertEngine.after_alert_step now decision e cam)) =
  Some (ignored_state (now + AlertEngine.suppress e) st).
Proof.
  intros D G. unfold AlertEngine.after_alert_step. rewrite G, D. simpl.
  apply dict_get_set_eq.
Qed.

Lemma ignore_state now decision cam : forall cams e st,
  String.eqb decision "clean" = false ->
  In cam cams -> dict_get cam (AlertEngine.state e) = Some st ->
  dict_get cam (AlertEngine.state (AlertEngine._after_alert now cams decision e)) =
  Some (ignored_state (now + AlertEngine.suppress e) st).
Proof.
  induction cams as [|c cams IH]; intros e st D I G; [destruct I|].
  rewrite after_alert_cons. destruct (string_dec c cam) as [->|N].
  - pose proof (ignore_step_state now decision e cam st D G) as G1.
    destruct (in_dec string_dec cam cams) as [J|J].
    + rewrite (IH _ _ D J G1).
      destruct (after_alert_step_fixed now decision e cam) as (_ & -> & _).
      reflexivity.
    + now rewrite after_alert_other.
  - destruct I as [E|I]; [congruence|].
    rewrite (IH (AlertEngine.after_alert_step now decision e c) st D I).
    + destruct (after_alert_step_fixed now decision e c) as (_ & -> & _). reflexivity.
    + rewrite after_alert_step_other by auto. exact G.
Qed.

Lemma ignore_collaborators now decision : forall cams e,
  String.eqb decision "clean" = false ->
  AlertEngine.episode_store (AlertEngine._after_alert now cams decision e) =
    AlertEngine.episode_store e /\
  AlertEngine.simulator (AlertEngine._after_alert now cams decision e) =
    AlertEngine.simulator e.
Proof.
  induction cams as [|c cams IH]; intros e D; [auto|].
  rewrite after_alert_cons.
  destruct (IH (AlertEngine.after_alert_step now decision e c) D) as [-> ->].
  unfold AlertEngine.after_alert_step.
  destruct (dict_get c (AlertEngine.state e)); [|auto]. rewrite D. auto.
Qed.

(** An observation before the deadline of an open alert enqueues nothing;
    when the camera is seen blurry it changes neither the aggregator nor the
    open alert. *)
Lemma observe_suppressed t cam blurry e st until_ :
  dict_get cam (AlertEngine.state e) = Some st ->
  alert_open st = true -> last_alert_until st = Some until_ -> t < until_ ->
  (forall k c,
     In (k, c) (_pending_by_camera (AlertEngine.aggregator (AlertEngine.process t cam blurry e))) ->
     In (k, c) (_pending_by_camera (AlertEngine.aggregator e))) /\
  (blurry = true ->
   AlertEngine.aggregator (AlertEngine.process t cam blurry e) = AlertEngine.aggregator e /\
   exists st',
     dict_get cam (AlertEngine.state (AlertEngine.process t cam blurry e)) = Some st' /\
     is_blurry st' = true /\ alert_open st' = true /\
     last_alert_until st' = Some until_ /\
     pending_candidate st' = pending_candidate st).
Proof.
  intros G O U L.
  assert (Lb : (t <? until_) = true) by now apply Z.ltb_lt.
  unfold AlertEngine.process, AlertEngine.state_of. rewrite G.
  destruct blurry.
  - assert (E : exists st',
               AlertEngine.observe_blurry t cam e st = (st', None) /\
               is_blurry st' = true /\ alert_open st' = true /\
               last_alert_until st' = Some until_ /\
               pending_candidate st' = pending_candidate st).
    { unfold AlertEngine.observe_blurry.
      destruct (is_blurry st) eqn:B; simpl; rewrite U, O, Lb; simpl.
      - destruct (blur_start st); eexists; (split; [reflexivity | auto]).
      - eexists; (split; [reflexivity | simpl; auto]). }
    destruct E as (st' & -> & E1 & E2 & E3 & E4). simpl.
    split; [auto|]. intros _. split; [reflexivity|].
    exists st'. rewrite dict_get_set_eq. auto.
  - split; [|discriminate].
    destruct (pending_candidate st); simpl; [|auto].
    intros k c I. rewrite cancel_by_camera in I. eapply In_pop; eauto.
Qed.

(** C4. The response to an alert, applied to the cameras of the action.
    On ["clean"], a camera of the list that has a state is put back to clear,
    its physical flag is cleared in the simulator when the engine has one,
    and, if its [blur_start] was set, the episode
    [(camera_id, blur_start, now)] is appended to the episode store.
    On any other answer the camera keeps [is_blurry] and [blur_start], gets
    [alert_open = true] and [last_alert_until = now + suppress], and neither
    the episode store nor the simulator changes. While an alert is open, an
    observation at a time before [last_alert_until] enqueues no candidate. *)
Theorem response_applied now cams e cam st :
  In cam cams ->
  dict_get cam (AlertEngine.state e) = Some st ->
  (dict_get cam (AlertEngine.state (AlertEngine._after_alert now cams "clean" e)) =
     Some (mkCameraAlertState false None None false false) /\
   (forall since, blur_start st = Some since ->
      exists l1 l2,
        AlertEngine.episode_store (AlertEngine._after_alert now cams "clean" e) =
        AlertEngine.episode_store e ++ l1 ++ (cam, since, now) :: l2) /\
   (forall sim, AlertEngine.simulator e = Some sim ->
      exists sim',
        AlertEngine.simulator (AlertEngine._after_alert now cams "clean" e) = Some sim' /\
        dict_get cam (Simulator.state sim') =
        match dict_get cam (Simulator.state sim) with
        | Some _ => Some false
        | None => None
        end)) /\
  (forall decision, decision <> "clean"%string ->
     let e' := AlertEngine._after_alert now cams decision e in
     dict_get cam (AlertEngine.state e') =
       Some (mkCameraAlertState (is_blurry st) (blur_start st)
               (Some (now + AlertEngine.suppress e)) true false) /\
     AlertEngine.episode_store e' = AlertEngine.episode_store e /\
     AlertEngine.simulator e' = AlertEngine.simulator e /\
     forall t blurry, t < now + AlertEngine.suppress e ->
       forall k c,
         In (k, c) (_pending_by_camera
                      (AlertEngine.aggregator (AlertEngine.process t cam blurry e'))) ->
         In (k, c) (_pending_by_camera (AlertEngine.aggregator e'))) /\
  (forall e0 st0 until_ t blurry,
     dict_get cam (AlertEngine.state e0) = Some st0 ->
     alert_open st0 = true -> last_alert_until st0 = Some until_ -> t < until_ ->
     (forall k c,
        In (k, c) (_pending_by_camera
                     (AlertEngine.aggregator (AlertEngine.process t cam blurry e0))) ->
        In (k, c) (_pending_by_camera (AlertEngine.aggregator e0))) /\
     (blurry = true ->
      AlertEngine.aggregator (AlertEngine.process t cam blurry e0) =
        AlertEngine.aggregator e0 /\
      exists st',
        dict_get cam (AlertEngine.state (AlertEngine.process t cam blurry e0)) = Some st' /\
        is_blurry st' = true /\ alert_open st' = true /\
        last_alert_until st' = Some until_ /\
        pending_candidate st' = pending_candidate st0)).
Proof.
  intros I G. split; [|split].
  - split; [eapply clean_state; eauto|]. split.
    + intros since B. eapply clean_episode; eauto.
    + intros sim S. destruct (clean_simulator now cam cams e st sim G S) as (sim' & S' & G').
      exists sim'. split; [exact S'|]. rewrite G'.
      destruct (in_dec string_dec cam cams); [reflexivity | contradiction].
  - intros decision D e'.
    assert (Db : String.eqb decision "clean" = false) by now apply String.eqb_neq.
    pose proof (ignore_state now decision cam cams e st Db I G) as S.
    destruct (ignore_collaborators now decision cams e Db) as [Ep Si].
    split; [exact S|]. split; [exact Ep|]. split; [exact Si|].
    intros t blurry L.
    eapply (observe_suppressed t cam blurry e'); [exact S | reflexivity | reflexivity | exact L].
  - intros e0 st0 until_ t blurry G0 O U L. now apply observe_suppressed.
Qed.

Lemma response_applied_witness :
  In "CAM-01"%string ["CAM-01"%string] /\
  dict_get "CAM-01" (AlertEngine.state demo_pending) =
    Some (mkCameraAlertState true (Some 0) None false true) /\
  dict_get "CAM-01"
    (AlertEngine.state (AlertEngine._after_alert 5000000 ["CAM-01"%string] "clean" demo_pending)) =
    Some (mkCameraAlertState false None None false false) /\
  exists l1 l2,
    AlertEngine.episode_store
      (AlertEngine._after_alert 5000000 ["CAM-01"%string] "clean" demo_pending) =
    AlertEngine.episode_store demo_pending ++ l1 ++ ("CAM-01"%string, 0, 5000000) :: l2.
Proof.
  assert (I : In "CAM-01"%string ["CAM-01"%string]) by (simpl; auto).
  assert (G : dict_get "CAM-01" (AlertEngine.state demo_pending) =
              Some (mkCameraAlertState true (Some 0) None false true))
    by (vm_compute; reflexivity).
  split; [exact I|]. split; [exact G|].
  destruct (response_applied 5000000 ["CAM-01"%string] demo_pending "CAM-01"
              (mkCameraAlertState true (Some 0) None false true) I G)
    as ((S & E & _) & _).
  split; [exact S|]. apply (E 0). reflexivity.
Defined.

(** ** Consistent pools in the engine *)

Lemma In_set_new (V : Type) k (v : V) d : In (k, v) (dict_set k v d).
Proof. apply dict_get_In, dict_get_set_eq. Qed.

Lemma init_wf w m s wd : agg_wf (init w m s wd).
Proof.
  constructor; simpl.
  - lia.
  - unfold timedelta_seconds. lia.
  - constructor.
  - constructor.
  - intros k c [].
  - intros k p [].
Qed.

(** [enqueue] keeps the pools consistent when the camera has no pending
    candidate, or one of the same site. *)
Lemma enqueue_wf a c :
  agg_wf a ->
  (forall c0, dict_get (camera_id c) (_pending_by_camera a) = Some c0 ->
              site_id c0 = site_id c) ->
  agg_wf (enqueue c a).
Proof.
  intros W Same.
  set (P := match dict_get (site_id c) (_pending_by_site a) with
            | Some p => p
            | None => []
            end).
  assert (HP : P = [] \/ In (site_id c, P) (_pending_by_site a)).
  { unfold P. destruct (dict_get (site_id c) (_pending_by_site a)) eqn:G; [|auto].
    right. now apply dict_get_In. }
  assert (NDP : NoDup (dict_keys P)).
  { destruct HP as [->|I]; [constructor | apply (wf_site a W _ _ I)]. }
  assert (PE : forall k c', In (k, c') P ->
                 site_id c' = site_id c /\ In (k, c') (_pending_by_camera a)).
  { destruct HP as [->|I]; [intros ? ? [] | apply (wf_site a W _ _ I)]. }
  unfold enqueue. fold P. constructor; simpl.
  - apply (wf_min_count a W).
  - apply (wf_suppress a W).
  - apply NoDup_set, (wf_cam_nodup a W).
  - apply NoDup_set, (wf_site_nodup a W).
  - intros k c' I. apply In_set_inv in I; [|apply (wf_cam_nodup a W)].
    destruct I as [[-> ->]|[N I]].
    + split; [reflexivity|]. exists (dict_set (camera_id c) c P).
      split; apply In_set_new.
    + destruct (wf_cam a W k c' I) as (Ek & p & Ip & Ik). split; [exact Ek|].
      destruct (string_dec (site_id c') (site_id c)) as [E|Ns].
      * exists (dict_set (camera_id c) c P). rewrite E. split; [apply In_set_new|].
        apply In_set_other; [exact N|].
        rewrite E in Ip. apply (wf_site_get a _ _ W) in Ip. unfold P. now rewrite Ip.
      * exists p. split; [now apply In_set_other | exact Ik].
  - intros s p I. apply In_set_inv in I; [|apply (wf_site_nodup a W)].
    destruct I as [[-> ->]|[N I]].
    + split; [|split].
      * intros E. pose proof (In_set_new _ (camera_id c) c P) as J. rewrite E in J. destruct J.
      * now apply NoDup_set.
      * intros k c' J. apply In_set_inv in J; [|exact NDP].
        destruct J as [[-> ->]|[Nk J]].
        -- split; [reflexivity | apply In_set_new].
        -- destruct (PE k c' J) as [Es Ibc]. split; [exact Es|].
           now apply In_set_other.
    + destruct (wf_site a W s p I) as (Ne & NDp & H).
      split; [exact Ne|]. split; [exact NDp|].
      intros k c' J. destruct (H k c' J) as [Es Ibc]. split; [exact Es|].
      destruct (string_dec k (camera_id c)) as [->|Nk].
      * exfalso. apply N. rewrite <- Es. apply Same.
        apply In_dict_get; [apply (wf_cam_nodup a W) | exact Ibc].
      * now apply In_set_other.
Qed.

Section ProcessWf.
Context {tz : LocalZone}.

Lemma process_wf now a : agg_wf a -> agg_wf (snd (process now a)).
Proof.
  intros W. destruct (process_spec now a W) as (a1 & a2 & F & _ & _ & _ & W2 & _).
  cbv zeta in F. rewrite F. exact W2.
Qed.

(** A flush only takes candidates out of the global pool, those of the
    cameras that its actions refer to. *)
Lemma process_by_camera now a k c :
  agg_wf a ->
  (In (k, c) (_pending_by_camera (snd (process now a))) <->
   In (k, c) (_pending_by_camera a) /\
   ~ In k (dispatched_cameras (fst (process now a)))).
Proof.
  intros W. destruct (process_spec now a W) as (a1 & a2 & F & BC1 & BC2 & W1 & _).
  cbv zeta in F. rewrite F. simpl fst. simpl snd.
  assert (D : forall x,
            In x (dispatched_cameras
                    (flat_map (site_dispatch now a) (_pending_by_site a) ++
                     map single_action
                       (filter (aged now a) (dict_values (_pending_by_camera a1))))) <->
            In x (map camera_id
                    (dispatched_candidates
                       (flat_map (site_dispatch now a) (_pending_by_site a)))) \/
            In x (map camera_id
                    (filter (aged now a) (dict_values (_pending_by_camera a1))))).
  { intros x. unfold dispatched_cameras, dispatched_candidates, action_cameras.
    rewrite flat_map_app, in_app_iff.
    rewrite !in_flat_map, !in_map_iff. split.
    - intros [(act & I & J)|(act & I & J)].
      + left. apply in_map_iff in J. destruct J as (c0 & E & J).
        exists c0. split; [exact E|]. apply in_flat_map. eauto.
      + right. apply in_map_iff in I. destruct I as (c0 & <- & I). simpl in J.
        destruct J as [<-|[]]. eauto.
    - intros [(c0 & E & J)|(c0 & E & J)].
      + left. apply in_flat_map in J. destruct J as (act & I & J).
        exists act. split; [exact I|]. apply in_map_iff. eauto.
      + right. exists (single_action c0). split; [apply in_map_iff; eauto|].
        simpl. auto. }
  rewrite D, BC2. split.
  - intros I. split.
    + apply pop_cameras_In in I. rewrite BC1 in I. now apply pop_cameras_In in I.
    + intros [J|J].
      * apply pop_cameras_In in I. rewrite BC1 in I.
        eapply (pop_cameras_popped _ _ _ _ (wf_cam_nodup a W)); eauto.
      * eapply (pop_cameras_popped _ _ _ _ (wf_cam_nodup a1 W1)); eauto.
  - intros [I N]. apply pop_cameras_keeps; [tauto|].
    rewrite BC1. apply pop_cameras_keeps; [tauto | exact I].
Qed.
End ProcessWf.

(** ** The invariant of the engine *)

Lemma inv_init ll sl sim eps th sup w m asup wd :
  engine_inv (AlertEngine.init ll sl sim eps th sup w m asup wd).
Proof.
  split; [apply init_wf|]. split.
  - intros k c [].
  - intros cam st G. discriminate G.
Qed.

Lemma observe_blurry_spec now cam e st :
  let r := AlertEngine.observe_blurry now cam e st in
  is_blurry (fst r) = true /\
  alert_open (fst r) = alert_open st /\
  last_alert_until (fst r) = last_alert_until st /\
  match snd r with
  | None => pending_candidate (fst r) = pending_candidate st
  | Some c =>
      pending_candidate (fst r) = true /\ pending_candidate st = false /\
      camera_id c = cam /\ site_id c = site_of e cam /\ ready_at c = now /\
      (alert_open st = true ->
       forall until_, last_alert_until st = Some until_ -> until_ <= now)
  end.
Proof.
  unfold AlertEngine.observe_blurry.
  set (st1 := if negb (is_blurry st)
              then mkCameraAlertState true (Some now) (last_alert_until st)
                     (alert_open st) (pending_candidate st)
              else st).
  assert (H1 : is_blurry st1 = true /\ alert_open st1 = alert_open st /\
               last_alert_until st1 = last_alert_until st /\
               pending_candidate st1 = pending_candidate st).
  { unfold st1. destruct (is_blurry st) eqn:B; simpl; auto. }
  destruct H1 as (B1 & O1 & U1 & P1).
  destruct (blur_start st1) as [since|]; [|simpl; auto].
  destruct ((match last_alert_until st1 with
             | Some until_ => negb (alert_open st1 && (now <? until_))
             | None => true
             end) && negb (pending_candidate st1)) eqn:A; [|simpl; auto].
  destruct (now - since >=? AlertEngine.threshold e); [|simpl; auto].
  simpl. apply andb_true_iff in A. destruct A as [A Pn].
  apply negb_true_iff in Pn. rewrite P1 in Pn.
  repeat split; auto.
  intros O until_ U. rewrite U1, U, O1, O in A. simpl in A.
  apply negb_true_iff, Z.ltb_ge in A. exact A.
Qed.

Lemma observe_clear_spec st :
  (alert_open st = true -> last_alert_until st <> None) ->
  pending_candidate (AlertEngine.observe_clear st) = false /\
  (alert_open (AlertEngine.observe_clear st) = true ->
   last_alert_until (AlertEngine.observe_clear st) <> None).
Proof.
  intros S. unfold AlertEngine.observe_clear.
  destruct (pending_candidate st) eqn:P; destruct (is_blurry st) eqn:B; simpl;
    rewrite ?B; simpl; rewrite ?P; split; auto; discriminate.
Qed.

Lemma inv_process now cam blurry e :
  engine_inv e -> engine_inv (AlertEngine.process now cam blurry e).
Proof.
  intros (W & Si & St).
  assert (St0 : state_ok e cam (AlertEngine.state_of cam e)).
  { unfold AlertEngine.state_of. destruct (dict_get cam (AlertEngine.state e)) eqn:G.
    - now apply St.
    - split; simpl; discriminate. }
  unfold AlertEngine.process. destruct blurry.
  - pose proof (observe_blurry_spec now cam e (AlertEngine.state_of cam e)) as H.
    cbv zeta in H.
    destruct (AlertEngine.observe_blurry now cam e (AlertEngine.state_of cam e))
      as [st' [c|]]; simpl in H.
    + destruct H as (B & O & U & P & P0 & Ec & Es & Er & Re).
      split; [|split]; simpl.
      * apply enqueue_wf; [exact W|]. intros c0 G0. rewrite Ec in G0.
        apply dict_get_In in G0. rewrite (Si _ _ G0). now rewrite Es.
      * intros k c' I. apply In_set_inv in I; [|apply (wf_cam_nodup _ W)].
        destruct I as [[-> ->]|[_ I]]; [now rewrite Es, Ec | now apply Si].
      * intros cam' st'' G. destruct (string_dec cam' cam) as [->|N].
        -- rewrite dict_get_set_eq in G. inversion G; subst st''.
           destruct St0 as [S1 S2]. split; simpl.
           ++ rewrite O, U. exact S1.
           ++ intros _. split; [exact B|]. exists c. rewrite Ec, dict_get_set_eq.
              split; [reflexivity|]. rewrite O, U. intros Op.
              destruct (last_alert_until (AlertEngine.state_of cam e)) as [u|] eqn:Eu.
              ** exists u. split; [reflexivity|]. rewrite Er. now apply Re.
              ** exfalso. now apply S1.
        -- rewrite dict_get_set_ne in G by exact N.
           destruct (St cam' st'' G) as [S1 S2]. split; simpl; [exact S1|].
           intros Pn. destruct (S2 Pn) as (Bn & c0 & G0 & R0). split; [exact Bn|].
           exists c0. rewrite Ec, dict_get_set_ne by exact N. auto.
    + destruct H as (B & O & U & P).
      split; [exact W|]. split; [exact Si|]. simpl.
      intros cam' st'' G. destruct (string_dec cam' cam) as [->|N].
      * rewrite dict_get_set_eq in G. inversion G; subst st''.
        destruct St0 as [S1 S2]. split; simpl.
        -- rewrite O, U. exact S1.
        -- rewrite P, O, U. intros Pn. destruct (S2 Pn) as (_ & H). split; [exact B | exact H].
      * rewrite dict_get_set_ne in G by exact N. now apply St.
  - assert (Ok : forall a',
              state_ok (AlertEngine.with_aggregator
                          (AlertEngine.with_state e
                             (dict_set cam (AlertEngine.observe_clear (AlertEngine.state_of cam e))
                                (AlertEngine.state e))) a')
                cam (AlertEngine.observe_clear (AlertEngine.state_of cam e))).
    { intros a'. destruct St0 as [S1 _].
      destruct (observe_clear_spec _ S1) as [Pc Oc].
      split; [exact Oc|]. rewrite Pc. discriminate. }
    destruct (pending_candidate (AlertEngine.state_of cam e)) eqn:P.
    + split; [|split]; simpl.
      * now apply cancel_wf.
      * intros k c I. rewrite cancel_by_camera in I. apply In_pop in I. now apply Si.
      * intros cam' st'' G. destruct (string_dec cam' cam) as [->|N].
        -- rewrite dict_get_set_eq in G. inversion G; subst st''. apply Ok.
        -- rewrite dict_get_set_ne in G by exact N.
           destruct (St cam' st'' G) as [S1 S2]. split; simpl; [exact S1|].
           intros Pn. destruct (S2 Pn) as (Bn & c0 & G0 & R0). split; [exact Bn|].
           exists c0. rewrite cancel_by_camera, dict_get_pop_ne by exact N. auto.
    + split; [exact W|]. split; [exact Si|]. simpl.
      intros cam' st'' G. destruct (string_dec cam' cam) as [->|N].
      * rewrite dict_get_set_eq in G. inversion G; subst st''.
        apply (Ok (AlertEngine.aggregator e)).
      * rewrite dict_get_set_ne in G by exact N. now apply St.
Qed.

Lemma after_alert_none now decision cam : forall cams e,
  dict_get cam (AlertEngine.state e) = None ->
  dict_get cam (AlertEngine.state (AlertEngine._after_alert now cams decision e)) = None.
Proof.
  induction cams as [|c cams IH]; intros e G; [exact G|].
  rewrite after_alert_cons. apply IH. destruct (string_dec c cam) as [->|N].
  - unfold AlertEngine.after_alert_step. now rewrite G.
  - rewrite after_alert_step_other by auto. exact G.
Qed.

Lemma after_alert_touch now decision cams e cam :
  (dict_get cam (AlertEngine.state (AlertEngine._after_alert now cams decision e)) =
     dict_get cam (AlertEngine.state e) /\
   (dict_get cam (AlertEngine.state e) <> None -> ~ In cam cams)) \/
  settled (dict_get cam (AlertEngine.state (AlertEngine._after_alert now cams decision e))).
Proof.
  destruct (dict_get cam (AlertEngine.state e)) as [st|] eqn:G.
  - destruct (in_dec string_dec cam cams) as [I|N].
    + right. destruct (String.eqb decision "clean") eqn:D.
      * apply String.eqb_eq in D. subst decision.
        rewrite (clean_state now cam cams e st I G).
        exists clear_state. split; [reflexivity|]. split; [reflexivity | discriminate].
      * rewrite (ignore_state now decision cam cams e st D I G).
        eexists. split; [reflexivity|]. split; [reflexivity | discriminate].
    + left. rewrite after_alert_other by exact N. auto.
  - left. rewrite after_alert_none by exact G. split; [reflexivity | congruence].
Qed.

Lemma handle_fixed now notifier n e act :
  AlertEngine.aggregator (snd (AlertEngine.handle now notifier (n, e) act)) =
    AlertEngine.aggregator e /\
  AlertEngine.site_lookup (snd (AlertEngine.handle now notifier (n, e) act)) =
    AlertEngine.site_lookup e.
Proof.
  unfold AlertEngine.handle, AlertEngine._handle_aggregate, AlertEngine._handle_single.
  simpl. destruct (String.eqb (kind act) "aggregate").
  - destruct (after_alert_fixed now (notifier n act) (map camera_id (candidates act)) e)
      as (A & _ & _ & B & _). auto.
  - destruct (candidates act) as [|c l]; [auto|].
    destruct (dict_get (camera_id c) (AlertEngine.state e)); [|auto].
    destruct (after_alert_fixed now (notifier n act) [camera_id c] e)
      as (A & _ & _ & B & _). auto.
Qed.

Lemma handle_touch now notifier n e act cam :
  (kind act = "aggregate"%string \/ exists c, candidates act = [c]) ->
  (dict_get cam (AlertEngine.state (snd (AlertEngine.handle now notifier (n, e) act))) =
     dict_get cam (AlertEngine.state e) /\
   (dict_get cam (AlertEngine.state e) <> None -> ~ In cam (action_cameras act))) \/
  settled (dict_get cam (AlertEngine.state (snd (AlertEngine.handle now notifier (n, e) act)))).
Proof.
  intros K. unfold AlertEngine.handle, AlertEngine._handle_aggregate,
    AlertEngine._handle_single, action_cameras. simpl.
  destruct (String.eqb (kind act) "aggregate") eqn:Ek.
  - apply after_alert_touch.
  - destruct K as [K|(c & Ec)]; [rewrite K in Ek; discriminate|].
    rewrite Ec. simpl.
    destruct (dict_get (camera_id c) (AlertEngine.state e)) eqn:G.
    + apply (after_alert_touch now (notifier n act) [camera_id c] e cam).
    + left. split; [reflexivity|]. intros H [E|[]]. subst cam. congruence.
Qed.

Lemma handle_fold_touch now notifier cam : forall acts n e,
  (forall act, In act acts ->
     kind act = "aggregate"%string \/ exists c, candidates act = [c]) ->
  let e' := snd (fold_left (AlertEngine.handle now notifier) acts (n, e)) in
  AlertEngine.aggregator e' = AlertEngine.aggregator e /\
  AlertEngine.site_lookup e' = AlertEngine.site_lookup e /\
  ((dict_get cam (AlertEngine.state e') = dict_get cam (AlertEngine.state e) /\
    (dict_get cam (AlertEngine.state e) <> None ->
     ~ In cam (dispatched_cameras acts))) \/
   settled (dict_get cam (AlertEngine.state e'))).
Proof.
  induction acts as [|act acts IH]; intros n e K; cbv zeta.
  - simpl. split; [reflexivity|]. split; [reflexivity|]. left. auto.
  - simpl fold_left.
    destruct (AlertEngine.handle now notifier (n, e) act) as [n1 e1] eqn:H.
    assert (He : e1 = snd (AlertEngine.handle now notifier (n, e) act)) by now rewrite H.
    destruct (IH n1 e1) as (A & S & T); [intros a I; apply K; simpl; auto|].
    destruct (handle_fixed now notifier n e act) as [A1 S1]. rewrite <- He in A1, S1.
    split; [congruence|]. split; [congruence|].
    destruct T as [[E N]|T]; [|right; exact T].
    destruct (handle_touch now notifier n e act cam) as [[E1 N1]|T1];
      [apply K; simpl; auto | |].
    + rewrite <- He in E1. left. split; [congruence|].
      intros Hs. unfold dispatched_cameras. simpl. rewrite in_app_iff.
      intros [I|I]; [now apply N1 | apply N; [congruence | exact I]].
    + rewrite <- He in T1. right. now rewrite E.
Qed.

Lemma inv_after_alert now cams decision e :
  engine_inv e -> engine_inv (AlertEngine._after_alert now cams decision e).
Proof.
  intros (W & Si & St).
  destruct (after_alert_fixed now decision cams e) as (A & _ & _ & S & _).
  split; [now rewrite A|]. split.
  - intros k c I. rewrite A in I. unfold site_of. rewrite S. now apply Si.
  - intros cam st G.
    destruct (after_alert_touch now decision cams e cam) as [[E _]|(st' & E & P & O)].
    + rewrite E in G. destruct (St cam st G) as [S1 S2]. split; [exact S1|].
      rewrite A. exact S2.
    + rewrite G in E. inversion E; subst st'. split; [exact O|]. rewrite P. discriminate.
Qed.

(** [_after_alert] leaves no candidate pending for a camera that it was
    given, and neither does an observation of a camera as clear. *)
Lemma after_alert_step_settles now decision e cam st :
  dict_get cam (AlertEngine.state (AlertEngine.after_alert_step now decision e cam)) =
    Some st ->
  pending_candidate st = false.
Proof.
  unfold AlertEngine.after_alert_step.
  destruct (dict_get cam (AlertEngine.state e)) as [st0|] eqn:G; [|congruence].
  destruct (String.eqb decision "clean"); simpl; rewrite dict_get_set_eq;
    intros E; inversion E; reflexivity.
Qed.

Lemma after_alert_settles now decision cam : forall cams e st,
  In cam cams ->
  dict_get cam (AlertEngine.state (AlertEngine._after_alert now cams decision e)) =
    Some st ->
  pending_candidate st = false.
Proof.
  induction cams as [|c cams IH]; intros e st I G; [destruct I|].
  rewrite after_alert_cons in G.
  destruct (in_dec string_dec cam cams) as [J|J]; [now apply (IH _ st J G)|].
  destruct I as [->|I]; [|contradiction].
  rewrite (after_alert_other now decision cam cams _ J) in G.
  now apply (after_alert_step_settles now decision e cam st).
Qed.

Lemma clear_observation_settles now cam e :
  exists st,
    dict_get cam (AlertEngine.state (AlertEngine.process now cam false e)) = Some st /\
    pending_candidate st = false.
Proof.
  exists (AlertEngine.observe_clear (AlertEngine.state_of cam e)). split.
  - unfold AlertEngine.process.
    destruct (pending_candidate (AlertEngine.state_of cam e)); simpl;
      apply dict_get_set_eq.
  - unfold AlertEngine.observe_clear.
    destruct (pending_candidate (AlertEngine.state_of cam e)) eqn:P; simpl;
      destruct (is_blurry (AlertEngine.state_of cam e)); simpl; auto.
Qed.

Section EngineInvariant.
Context {tz : LocalZone}.

Lemma process_action_shape now a act :
  agg_wf a -> In act (fst (process now a)) ->
  kind act = "aggregate"%string \/ exists c, candidates act = [c].
Proof.
  intros W I. apply process_actions in I; [|exact W].
  destruct I as [(s & p & _ & _ & ->)|(c & _ & _ & _ & ->)]; [left|right]; simpl; eauto.
Qed.

Lemma inv_flush now notifier e :
  engine_inv e -> engine_inv (AlertEngine.flush now notifier e).
Proof.
  intros (W & Si & St). unfold AlertEngine.flush.
  destruct (process now (AlertEngine.aggregator e)) as [acts a'] eqn:F.
  assert (Fa : acts = fst (process now (AlertEngine.aggregator e))) by now rewrite F.
  assert (Fs : a' = snd (process now (AlertEngine.aggregator e))) by now rewrite F.
  assert (W' : agg_wf a') by (rewrite Fs; now apply process_wf).
  assert (K : forall act, In act acts ->
                kind act = "aggregate"%string \/ exists c, candidates act = [c]).
  { intros act I. rewrite Fa in I.
    exact (process_action_shape now (AlertEngine.aggregator e) act W I). }
  set (e' := snd (fold_left (AlertEngine.handle now notifier) acts
                    (0%nat, AlertEngine.with_aggregator e a'))).
  assert (Fx : AlertEngine.aggregator e' = a' /\
               AlertEngine.site_lookup e' = AlertEngine.site_lookup e).
  { destruct (handle_fold_touch now notifier "" acts 0%nat
                (AlertEngine.with_aggregator e a') K) as (A & S & _). auto. }
  destruct Fx as [A S].
  split; [now rewrite A|]. split.
  - intros k c I. rewrite A, Fs in I. apply process_by_camera in I; [|exact W].
    unfold site_of. rewrite S. apply Si, I.
  - intros cam st G.
    destruct (handle_fold_touch now notifier cam acts 0%nat
                (AlertEngine.with_aggregator e a') K) as (_ & _ & T).
    fold e' in T. destruct T as [[E N]|(st' & E & P & O)].
    + simpl in E, N. rewrite E in G. destruct (St cam st G) as [S1 S2].
      split; [exact S1|]. intros Pn. destruct (S2 Pn) as (B & c & Gc & R).
      split; [exact B|]. exists c. split; [|exact R].
      rewrite A. apply In_dict_get; [apply (wf_cam_nodup _ W')|].
      rewrite Fs. apply process_by_camera; [exact W|].
      split; [now apply dict_get_In|]. rewrite <- Fa. apply N. congruence.
    + rewrite G in E. inversion E; subst st'. split; [exact O|]. rewrite P. discriminate.
Qed.

Lemma reachable_inv e : reachable e -> engine_inv e.
Proof.
  induction 1.
  - apply inv_init.
  - now apply inv_process.
  - now apply inv_flush.
  - now apply inv_after_alert.
Qed.

(** C1, as the code has it. In every reachable engine an open alert has a
    deadline, and a camera has [pending_candidate] and [alert_open] both
    true only for a candidate enqueued again at or after the deadline of an
    alert that was answered ["ignore"]: the camera is blurry, its candidate
    is held in the global pool, and the [ready_at] of that candidate is not
    before [last_alert_until]. Right after [_after_alert] no candidate is
    pending for any camera that it was given, whatever the answer, and
    after an observation of a camera as clear none is pending for it. *)
Theorem pending_and_open_only_for_realert e :
  reachable e ->
  (forall cam st,
     dict_get cam (AlertEngine.state e) = Some st ->
     (alert_open st = true -> exists until_, last_alert_until st = Some until_) /\
     (pending_candidate st = true -> alert_open st = true ->
      is_blurry st = true /\
      exists until_ c,
        last_alert_until st = Some until_ /\
        dict_get cam (_pending_by_camera (AlertEngine.aggregator e)) = Some c /\
        until_ <= ready_at c)) /\
  (forall now cams decision cam st,
     In cam cams ->
     dict_get cam (AlertEngine.state (AlertEngine._after_alert now cams decision e)) =
       Some st ->
     pending_candidate st = false) /\
  (forall now cam,
     exists st,
       dict_get cam (AlertEngine.state (AlertEngine.process now cam false e)) = Some st /\
       pending_candidate st = false).
Proof.
  intros R. split; [|split].
  - intros cam st G. destruct (reachable_inv e R) as (_ & _ & St).
    destruct (St cam st G) as [S1 S2]. split.
    + intros O. destruct (last_alert_until st) as [u|]; [eauto|]. exfalso. now apply S1.
    + intros P O. destruct (S2 P) as (B & c & Gc & H). split; [exact B|].
      destruct (H O) as (u & U & L). eauto.
  - intros now cams decision cam st I G.
    now apply (after_alert_settles now decision cam cams e st).
  - intros now cam. apply clear_observation_settles.
Qed.

(** The pools of the aggregator of a reachable engine are consistent. *)
Lemma reachable_wf e : reachable e -> agg_wf (AlertEngine.aggregator e).
Proof. intros R. apply (reachable_inv e R). Qed.
End EngineInvariant.

Lemma demo_realert_reachable : @reachable utc_zone demo_realert.
Proof.
  unfold demo_realert, demo_engine.
  apply reach_process, reach_flush, reach_process, reach_init.
Qed.

(** C1, as stated, fails: after an alert answered ["ignore"], a camera that
    is still blurry when the suppression is over gets a new candidate while
    [alert_open] stays true. *)
Lemma pending_and_open_together : ~ @never_pending_and_open utc_zone.
Proof.
  intros H.
  apply (H demo_realert "CAM-01"%string
           (mkCameraAlertState true (Some 0) (Some 1000000) true true)
           demo_realert_reachable).
  - vm_compute. reflexivity.
  - split; reflexivity.
Qed.

Lemma pending_and_open_only_for_realert_witness :
  @reachable utc_zone demo_realert /\
  dict_get "CAM-01" (AlertEngine.state demo_realert) =
    Some (mkCameraAlertState true (Some 0) (Some 1000000) true true) /\
  (exists until_ c,
     Some 1000000 = Some until_ /\
     dict_get "CAM-01" (_pending_by_camera (AlertEngine.aggregator demo_realert)) = Some c /\
     until_ <= ready_at c) /\
  (forall st,
     dict_get "CAM-01"
       (AlertEngine.state
          (AlertEngine._after_alert 1000000 ["CAM-01"%string] "ignore" demo_realert)) =
       Some st ->
     pending_candidate st = false).
Proof.
  split; [exact demo_realert_reachable|].
  split; [vm_compute; reflexivity|].
  destruct (@pending_and_open_only_for_realert utc_zone demo_realert
              demo_realert_reachable) as (A & B & _).
  split.
  - apply (proj2 (A "CAM-01"%string
                    (mkCameraAlertState true (Some 0) (Some 1000000) true true)
                    eq_refl) eq_refl eq_refl).
  - intros st G.
    apply (B 1000000 ["CAM-01"%string] "ignore"%string "CAM-01"%string st
             (or_introl eq_refl) G).
Defined.

(** ** End to end with a window configured as zero *)

Section E2E.
Context {tz : LocalZone}.
Variables (cam : string) (t0 : datetime) (ll : dict Z) (sl : dict string)
  (sim : option Simulator.t) (eps : list (string * datetime * datetime))
  (sup m asup : Z) (wd : option (list (dtime * dtime))).

(** C2, as the code has it. One camera, threshold 0, window configured as
    0 and so clamped to one second, the camera seen blurry at [t0]. With
    [aggregate_min <= 1] the flush at [t0] yields exactly one action, of
    kind ["aggregate"], holding the candidate of the camera with
    [blur_since = t0]; answered ["clean"], the episode [(cam, t0, t0)] is
    appended, the state of the camera is clear and the pools are empty.
    With [aggregate_min >= 2] the flush at [t0] yields no action, and a
    first flush at [t >= t0 + 1s] yields exactly one action, of kind
    ["single"], for that candidate; answered ["clean"], the episode
    [(cam, t0, t)] is appended and the state of the camera is clear. *)
Theorem end_to_end_window_zero :
  let e1 := e2e_observed cam t0 ll sl sim eps sup m asup wd in
  let c := e2e_candidate cam t0 ll sl in
  let agg := mkAlertAction "aggregate" [c] (site_id c)
               (_within_washdown (AlertEngine.aggregator e1) [c]) in
  (m <= 1 ->
   fst (process t0 (AlertEngine.aggregator e1)) = [agg] /\
   forall notifier, notifier 0%nat agg = "clean"%string ->
     e2e_cleaned (AlertEngine.flush t0 notifier e1) cam eps t0 t0) /\
  (2 <= m ->
   fst (process t0 (AlertEngine.aggregator e1)) = [] /\
   forall t, t0 + 1000000 <= t ->
     fst (process t (AlertEngine.aggregator e1)) = [single_action c] /\
     forall notifier, notifier 0%nat (single_action c) = "clean"%string ->
       e2e_cleaned (AlertEngine.flush t notifier e1) cam eps t0 t).
Proof.
  intros e1 c agg.
  assert (E1 : e1 =
    AlertEngine.mk ll sl sim eps 0 (timedelta_seconds (Z.max 1 sup))
      [(cam, mkCameraAlertState true (Some t0) None false true)]
      (mk 1000000 (Z.max 1 m) (timedelta_seconds (Z.max 1 asup))
          (match wd with Some w => w | None => [] end)
          [(cam, c)] [(site_id c, [(cam, c)])] [])).
  { unfold e1, e2e_observed, AlertEngine.process, AlertEngine.state_of,
      AlertEngine.observe_blurry. simpl. rewrite Z.sub_diag. reflexivity. }
  split.
  - intros M.
    assert (P : process t0 (AlertEngine.aggregator e1) =
                ([agg], mk 1000000 1 (timedelta_seconds (Z.max 1 asup))
                           (match wd with Some w => w | None => [] end) [] []
                           [(site_id c, t0 + timedelta_seconds (Z.max 1 asup))])).
    { unfold agg. rewrite E1. unfold process, process_aggregates, process_singles,
        aggregate_step, quorum, active_of, prune. simpl.
      rewrite Z.sub_diag, (Z.max_l 1 m) by lia. run_dicts. reflexivity. }
    split; [now rewrite P|].
    intros notifier N. unfold AlertEngine.flush. rewrite P.
    simpl. unfold AlertEngine.handle. simpl. rewrite N.
    unfold AlertEngine._handle_aggregate, AlertEngine._after_alert,
      AlertEngine.after_alert_step. rewrite E1. run_dicts.
    unfold e2e_cleaned. simpl. auto.
  - intros M.
    assert (Q1 : (Z.max 1 m <=? 1) = false) by (apply Z.leb_gt; lia).
    assert (Q0 : (Z.max 1 m <=? 0) = false) by (apply Z.leb_gt; lia).
    split.
    + rewrite E1. unfold process, process_aggregates, process_singles,
        aggregate_step, quorum, active_of, prune, single_step. simpl.
      rewrite Z.sub_diag. simpl. rewrite Q1. simpl. rewrite Z.sub_diag. reflexivity.
    + intros t L.
      assert (G : (t - t0 >=? 1000000) = true) by (apply Z.geb_le; lia).
      assert (P : process t (AlertEngine.aggregator e1) =
                  ([single_action c],
                   mk 1000000 (Z.max 1 m) (timedelta_seconds (Z.max 1 asup))
                      (match wd with Some w => w | None => [] end) [] [] [])).
      { rewrite E1. unfold process, process_aggregates, process_singles,
          aggregate_step, quorum, active_of, prune, single_step, drop_from_site. simpl.
        destruct (t - t0 <=? 1000000); simpl; rewrite ?Q1, ?Q0; simpl;
          rewrite G; run_dicts; reflexivity. }
      split; [now rewrite P|].
      intros notifier N. unfold AlertEngine.flush. rewrite P.
      simpl. unfold AlertEngine.handle. simpl. rewrite N.
      unfold AlertEngine._handle_single, AlertEngine._after_alert,
        AlertEngine.after_alert_step. rewrite E1. run_dicts.
      unfold e2e_cleaned. simpl. auto.
Qed.
End E2E.

(** C2, as stated, fails: the window is at least one second, so at [t0] the
    candidate has not aged out; with a quorum of one the flush yields an
    aggregate action, with a quorum of two it yields nothing. *)
Lemma window_zero_flush_not_single : ~ @window_zero_flush_is_single utc_zone.
Proof.
  intros H.
  destruct (H "CAM-01"%string 0 [] [] None [] 1 1 5 None) as (c & _ & _ & E).
  vm_compute in E. discriminate E.
Qed.

Lemma end_to_end_window_zero_witness :
  1 <= 1 /\
  fst (@process utc_zone 0
         (AlertEngine.aggregator (e2e_observed "CAM-01" 0 [] [] None [] 1 1 5 None))) =
  [mkAlertAction "aggregate" [e2e_candidate "CAM-01" 0 [] []] "Default" false].
Proof.
  split; [lia|].
  apply (proj1 (@end_to_end_window_zero utc_zone "CAM-01" 0 [] [] None [] 1 1 5 None)).
  lia.
Defined.

(** ** [parse_washdown_schedule] *)

Lemma strptime_raises s e : strptime_HM s = Raised e -> e = ValueError.
Proof.
  unfold strptime_HM. destruct (parse_hour s) as [[h rest]|]; [|congruence].
  destruct (parse_minute rest); congruence.
Qed.

Lemma parse_window_raises chunk e : parse_window chunk = Raised e -> e = ValueError.
Proof.
  unfold parse_window.
  destruct (split_on "-" chunk) as [|a [|b [|x l]]]; try congruence.
  destruct (strptime_HM (strip a)) eqn:A; [|intros E; inversion E; subst; eapply strptime_raises; eauto].
  destruct (strptime_HM (strip b)) eqn:B; [congruence|].
  intros E. inversion E; subst. eapply strptime_raises; eauto.
Qed.

Lemma parse_chunk_spec windows printed chunk :
  parse_chunk (Returned (windows, printed)) chunk =
  Returned (windows ++ window_of_chunk chunk, printed ++ warning_of_chunk chunk).
Proof.
  unfold parse_chunk, window_of_chunk, warning_of_chunk.
  destruct (strip chunk) as [|c r] eqn:S.
  - simpl. now rewrite !app_nil_r.
  - destruct (parse_window (String c r)) as [w|e] eqn:P.
    + now rewrite app_nil_r.
    + rewrite (parse_window_raises _ _ P). now rewrite app_nil_r.
Qed.

Lemma parse_chunks_spec : forall chunks windows printed,
  fold_left parse_chunk chunks (Returned (windows, printed)) =
  Returned (windows ++ flat_map window_of_chunk chunks,
            printed ++ flat_map warning_of_chunk chunks).
Proof.
  induction chunks as [|chunk chunks IH]; intros windows printed;
    cbn [fold_left flat_map].
  - now rewrite !app_nil_r.
  - rewrite parse_chunk_spec, IH. now rewrite <- !app_assoc.
Qed.

(** C8. [parse_washdown_schedule] returns for every input and never lets an
    exception out. The list it returns holds, in order, the windows of the
    comma-separated chunks that parse as [HH:MM-HH:MM]; every other chunk is
    dropped, with one warning printed for it unless it is blank, a blank
    chunk being skipped without a word. *)
Theorem parse_washdown_schedule_total spec :
  parse_washdown_schedule spec =
  Returned (flat_map window_of_chunk (chunks_of spec),
            flat_map warning_of_chunk (chunks_of spec)) /\
  (forall chunk, In chunk (chunks_of spec) ->
     match parse_window (strip chunk) with
     | Returned w => window_of_chunk chunk = [w] /\ warning_of_chunk chunk = []
     | Raised _ =>
         window_of_chunk chunk = [] /\
         warning_of_chunk chunk =
           if String.eqb (strip chunk) "" then [] else [warning (strip chunk)]
     end).
Proof.
  split.
  - destruct spec as [[|c r]|]; try reflexivity.
    unfold parse_washdown_schedule, chunks_of.
    now rewrite parse_chunks_spec.
  - intros chunk _. unfold window_of_chunk, warning_of_chunk.
    destruct (parse_window (strip chunk)) as [w|e] eqn:P.
    + split; [reflexivity|]. destruct (strip chunk); [|reflexivity].
      vm_compute in P. discriminate P.
    + split; [reflexivity|]. destruct (strip chunk); reflexivity.
Qed.

(** ** More on the aggregator *)

(** X1. [enqueue] files a candidate under its camera, in the pool of all
    cameras and in the pool of its site, in place of what was filed for that
    camera; the other cameras and the cooldowns stay as they are, and
    enqueuing the same candidate twice is the same as once. *)
Theorem enqueue_insert a c :
  dict_get (camera_id c) (_pending_by_camera (enqueue c a)) = Some c /\
  dict_get (camera_id c) (site_pool_of (site_id c) (enqueue c a)) = Some c /\
  (forall k, k <> camera_id c ->
     dict_get k (_pending_by_camera (enqueue c a)) = dict_get k (_pending_by_camera a)) /\
  _site_cooldown (enqueue c a) = _site_cooldown a /\
  enqueue c (enqueue c a) = enqueue c a.
Proof.
  split; [|split; [|split; [|split]]].
  - simpl. apply dict_get_set_eq.
  - unfold site_pool_of. simpl. rewrite dict_get_set_eq. apply dict_get_set_eq.
  - intros k N. simpl. now apply dict_get_set_ne.
  - reflexivity.
  - unfold enqueue. simpl. rewrite dict_get_set_eq, !dict_set_set. reflexivity.
Qed.

(** X2. [enqueue] does not take a camera out of the pool of another site:
    when a camera with a pending candidate is enqueued again under a
    different site, the old candidate stays in the pool of the old site, also
    after [cancel] has removed the camera, and the pools no longer agree. *)
Theorem enqueue_other_site_leaves_stale a c c0 :
  agg_wf a ->
  dict_get (camera_id c) (_pending_by_camera a) = Some c0 ->
  site_id c0 <> site_id c ->
  let a' := cancel (camera_id c) (enqueue c a) in
  dict_get (camera_id c) (_pending_by_camera a') = None /\
  dict_get (camera_id c) (site_pool_of (site_id c0) a') = Some c0 /\
  ~ agg_wf (enqueue c a).
Proof.
  intros W G N a'.
  pose proof (dict_get_In _ _ _ G) as I.
  destruct (wf_cam a W _ _ I) as (Ek & p & Ip & Ik).
  pose proof (wf_site_get a _ _ W Ip) as Gp.
  destruct (wf_site a W _ _ Ip) as (_ & NDp & _).
  split; [|split].
  - unfold a'. rewrite cancel_by_camera. simpl.
    apply dict_get_None, pop_not_key, NoDup_set, (wf_cam_nodup a W).
  - unfold a', cancel. simpl. rewrite dict_get_set_eq. simpl.
    unfold site_pool_of, drop_from_site. simpl. rewrite dict_get_set_eq.
    match goal with |- context [dict_is_empty ?x] => destruct (dict_is_empty x) end.
    + rewrite dict_get_pop_ne, dict_get_set_ne, Gp by auto.
      now apply In_dict_get.
    + rewrite !dict_get_set_ne, Gp by auto. now apply In_dict_get.
  - intros W'.
    assert (J : In (site_id c0, p) (_pending_by_site (enqueue c a))).
    { simpl. apply In_set_other; auto. }
    destruct (wf_site_entry _ _ _ _ _ W' J Ik) as (_ & _ & Ibc).
    simpl in Ibc. apply In_set_inv in Ibc; [|apply (wf_cam_nodup a W)].
    destruct Ibc as [[_ E]|[Ne _]]; [subst; congruence | congruence].
Qed.

Section MoreFlush.
Context {tz : LocalZone}.

(** X3. The pools stay consistent: [cancel] and [process] keep [agg_wf], and
    so does [enqueue] of a candidate whose camera is not pending under
    another site. *)
Theorem pools_stay_consistent a :
  agg_wf a ->
  (forall c,
     (forall c0, dict_get (camera_id c) (_pending_by_camera a) = Some c0 ->
                 site_id c0 = site_id c) ->
     agg_wf (enqueue c a)) /\
  (forall cam, agg_wf (cancel cam a)) /\
  (forall now, agg_wf (snd (process now a))).
Proof.
  intros W. split; [|split].
  - intros c S. now apply enqueue_wf.
  - intros cam. now apply cancel_wf.
  - intros now. now apply process_wf.
Qed.

Lemma process_survivors now a k c :
  agg_wf a -> In (k, c) (_pending_by_camera (snd (process now a))) ->
  now - ready_at c < window a.
Proof.
  intros W I.
  destruct (process_spec now a W) as (a1 & a2 & F & BC1 & BC2 & W1 & _).
  cbv zeta in F. rewrite F in I. simpl snd in I. rewrite BC2 in I.
  destruct (aged now a c) eqn:A; [|unfold aged in A; destruct (Z.geb_spec (now - ready_at c) (window a)); [discriminate | lia]].
  exfalso. pose proof (pop_cameras_popped _ _ _ _ (wf_cam_nodup a1 W1) I) as N.
  apply pop_cameras_In in I. destruct (wf_cam a1 W1 k c I) as (E & _).
  apply N. rewrite <- E. apply in_map. apply filter_In. split; [|exact A].
  eapply In_values; eauto.
Qed.

(** X4. [process] takes out of the pool exactly the candidates of the
    cameras that it dispatches, and every candidate that it leaves is younger
    than the window. *)
Theorem flush_takes_what_it_dispatches now a k c :
  agg_wf a ->
  (In (k, c) (_pending_by_camera (snd (process now a))) <->
   In (k, c) (_pending_by_camera a) /\
   ~ In k (dispatched_cameras (fst (process now a)))) /\
  (In (k, c) (_pending_by_camera (snd (process now a))) ->
   now - ready_at c < window a).
Proof.
  intros W. split; [now apply process_by_camera | now apply process_survivors].
Qed.

Lemma actions_shape now a act :
  agg_wf a -> In act (fst (process now a)) ->
  candidates act <> [] /\
  (forall c, In c (candidates act) ->
     In (camera_id c, c) (_pending_by_camera a) /\ site_id c = action_site_id act) /\
  ((kind act = "aggregate"%string /\
    min_count a <= Z.of_nat (List.length (candidates act)) /\
    (forall c, In c (candidates act) -> now - ready_at c <= window a)) \/
   (kind act = "single"%string /\ washdown_hint act = false /\
    exists c, candidates act = [c] /\ now - ready_at c >= window a)).
Proof.
  intros W I. apply process_actions in I; [|exact W].
  destruct I as [(s & p & Isp & Q & ->)|(c & Ibc & A & _ & ->)].
  - unfold quorum in Q. apply andb_true_iff in Q. destruct Q as [Q _].
    apply Z.leb_le in Q. simpl.
    split; [|split].
    + intros E. rewrite E in Q. simpl in Q. pose proof (wf_min_count a W). lia.
    + intros c Ic. pose proof (active_in_pool a now s p c W Isp Ic) as Ip.
      destruct (wf_site_entry a s p _ _ W Isp Ip) as (_ & Es & Ibc). auto.
    + left. split; [reflexivity|]. split; [exact Q|].
      intros c Ic. unfold active_of in Ic. apply filter_In in Ic.
      destruct Ic as [_ L]. now apply Z.leb_le in L.
  - simpl. split; [discriminate|]. split.
    + intros c' [<-|[]]. auto.
    + right. split; [reflexivity|]. split; [reflexivity|]. exists c.
      split; [reflexivity|]. unfold aged in A. apply Z.geb_le in A. lia.
Qed.

(** X5. Every action of [process] holds at least one candidate, each of
    them pending before the call and of the site of the action. An aggregate
    holds at least [min_count] candidates, none older than the window; a
    single holds one candidate, at least as old as the window, and carries
    no washdown hint. *)
Theorem dispatched_actions_shape now a act :
  agg_wf a -> In act (fst (process now a)) ->
  candidates act <> [] /\
  (forall c, In c (candidates act) ->
     In (camera_id c, c) (_pending_by_camera a) /\ site_id c = action_site_id act) /\
  ((kind act = "aggregate"%string /\
    min_count a <= Z.of_nat (List.length (candidates act)) /\
    (forall c, In c (candidates act) -> now - ready_at c <= window a)) \/
   (kind act = "single"%string /\ washdown_hint act = false /\
    exists c, candidates act = [c] /\ now - ready_at c >= window a)).
Proof. apply actions_shape. Qed.
End MoreFlush.

Lemma NoDup_flat_map_disjoint (A B : Type) (f : A -> list B) : forall l,
  NoDup l -> (forall x, In x l -> NoDup (f x)) ->
  (forall x y b, In x l -> In y l -> In b (f x) -> In b (f y) -> x = y) ->
  NoDup (flat_map f l).
Proof.
  induction l as [|x l IH]; intros ND P D; simpl; [constructor|].
  inversion ND as [|? ? Nx NDl]; subst.
  apply NoDup_app.
  - apply P. simpl; auto.
  - apply IH; auto.
    + intros y I. apply P. simpl; auto.
    + intros y z b Iy Iz. apply D; simpl; auto.
  - intros b Ib J. apply in_flat_map in J. destruct J as (y & Iy & Jy).
    assert (x = y) by (apply (D x y b); simpl; auto). subst. contradiction.
Qed.

Lemma NoDup_map_filter (A B : Type) (f : A -> B) (t : A -> bool) : forall l,
  NoDup (map f l) -> NoDup (map f (filter t l)).
Proof.
  induction l as [|x l IH]; simpl; intros ND; [constructor|].
  inversion ND as [|? ? Nx NDl]; subst.
  destruct (t x); simpl; [|auto]. constructor; [|auto].
  intros I. apply Nx. apply in_map_iff in I. destruct I as (y & E & I).
  apply filter_In in I. rewrite <- E. apply in_map. apply I.
Qed.

Lemma NoDup_keys_items (V : Type) (d : dict V) : NoDup (dict_keys d) -> NoDup d.
Proof. apply NoDup_map_inv. Qed.

Lemma wf_pool_cameras a s p :
  agg_wf a -> In (s, p) (_pending_by_site a) ->
  map camera_id (dict_values p) = dict_keys p.
Proof.
  intros W I. unfold dict_values, dict_keys. rewrite map_map.
  apply map_ext_in. intros [k c] J. simpl.
  apply (wf_site_entry a s p k c W I J).
Qed.

Lemma wf_global_cameras a :
  agg_wf a ->
  map camera_id (dict_values (_pending_by_camera a)) = dict_keys (_pending_by_camera a).
Proof.
  intros W. unfold dict_values, dict_keys. rewrite map_map.
  apply map_ext_in. intros [k c] J. simpl. apply (wf_cam a W k c J).
Qed.

Lemma map_of_flat_map (A B C : Type) (f : B -> C) (g : A -> list B) l :
  map f (flat_map g l) = flat_map (fun x => map f (g x)) l.
Proof.
  induction l as [|x l IH]; simpl; [reflexivity|]. now rewrite map_app, IH.
Qed.

Lemma flat_map_of_flat_map (A B C : Type) (f : B -> list C) (g : A -> list B) l :
  flat_map f (flat_map g l) = flat_map (fun x => flat_map f (g x)) l.
Proof.
  induction l as [|x l IH]; simpl; [reflexivity|]. now rewrite flat_map_app, IH.
Qed.

Section Once.
Context {tz : LocalZone}.

Lemma site_cameras now a s p cam :
  agg_wf a -> In (s, p) (_pending_by_site a) ->
  In cam (map camera_id (flat_map candidates (site_dispatch now a (s, p)))) ->
  exists c, In (cam, c) (_pending_by_camera a) /\ site_id c = s.
Proof.
  intros W I J. apply in_map_iff in J. destruct J as (c & E & J).
  apply in_flat_map in J. destruct J as (act & Ia & Ic).
  unfold site_dispatch in Ia. simpl in Ia.
  destruct (quorum now a s p); [|destruct Ia]. destruct Ia as [<-|[]]. simpl in Ic.
  pose proof (active_in_pool a now s p c W I Ic) as Ip.
  destruct (wf_site_entry a s p _ _ W I Ip) as (_ & Es & Ibc).
  exists c. rewrite <- E. auto.
Qed.

Lemma aggregates_cameras_nodup now a :
  agg_wf a ->
  NoDup (map camera_id
           (dispatched_candidates (flat_map (site_dispatch now a) (_pending_by_site a)))).
Proof.
  intros W. unfold dispatched_candidates.
  rewrite flat_map_of_flat_map, map_of_flat_map.
  apply NoDup_flat_map_disjoint.
  - apply NoDup_keys_items, (wf_site_nodup a W).
  - intros [s p] I. unfold site_dispatch. simpl.
    destruct (quorum now a s p); simpl; [|constructor].
    rewrite app_nil_r. unfold active_of. apply NoDup_map_filter.
    rewrite (wf_pool_cameras a s p W I). apply (wf_site a W s p I).
  - intros [s p] [s' p'] cam I I' J J'.
    destruct (site_cameras now a s p cam W I J) as (c & Ic & Es).
    destruct (site_cameras now a s' p' cam W I' J') as (c' & Ic' & Es').
    assert (c = c') by (eapply wf_key_unique; eauto). subst c'.
    assert (s = s') by congruence. subst s'.
    apply (wf_site_get a _ _ W) in I, I'. congruence.
Qed.

Lemma dispatched_cameras_nodup now a :
  agg_wf a -> NoDup (dispatched_cameras (fst (process now a))).
Proof.
  intros W. destruct (process_spec now a W) as (a1 & a2 & F & BC1 & _ & W1 & _).
  cbv zeta in F. rewrite F. simpl fst.
  unfold dispatched_cameras. rewrite flat_map_app.
  assert (E1 : flat_map action_cameras (flat_map (site_dispatch now a) (_pending_by_site a)) =
               map camera_id (dispatched_candidates
                                (flat_map (site_dispatch now a) (_pending_by_site a)))).
  { unfold action_cameras, dispatched_candidates.
    generalize (flat_map (site_dispatch now a) (_pending_by_site a)).
    induction l as [|x l IH]; simpl; [reflexivity|]. now rewrite map_app, IH. }
  assert (E2 : forall l, flat_map action_cameras (map single_action l) = map camera_id l).
  { induction l as [|x l IH]; simpl; [reflexivity|]. now rewrite IH. }
  rewrite E1, E2. apply NoDup_app.
  - now apply aggregates_cameras_nodup.
  - apply NoDup_map_filter. rewrite (wf_global_cameras a1 W1). apply (wf_cam_nodup a1 W1).
  - intros cam I J. apply in_map_iff in J. destruct J as (c & E & J).
    apply filter_In in J. destruct J as [J _]. apply values_In in J. destruct J as (k & J).
    destruct (wf_cam a1 W1 k c J) as (Ek & _).
    rewrite BC1 in J. apply (pop_cameras_popped _ _ _ _ (wf_cam_nodup a W)) in J.
    apply J. congruence.
Qed.

(** X6. No camera is dispatched twice by one call of [process]. *)
Theorem one_action_per_camera now a :
  agg_wf a -> NoDup (dispatched_cameras (fst (process now a))).
Proof. apply dispatched_cameras_nodup. Qed.
End Once.

Section Twice.
Context {tz : LocalZone}.

Lemma wf_pool_values_nodup a s p :
  agg_wf a -> In (s, p) (_pending_by_site a) -> NoDup (dict_values p).
Proof.
  intros W I. apply NoDup_map_inv with (f := camera_id).
  rewrite (wf_pool_cameras a s p W I). apply (wf_site a W s p I).
Qed.

(** X7. A second call of [process] at the same instant dispatches nothing. *)
Theorem second_flush_is_empty now a :
  agg_wf a -> fst (process now (snd (process now a))) = [].
Proof.
  intros W.
  destruct (fst (process now (snd (process now a)))) as [|act l] eqn:E; [reflexivity|].
  exfalso.
  assert (I : In act (fst (process now (snd (process now a)))))
    by (rewrite E; simpl; auto).
  clear E l. pose proof (process_wf now a W) as W2.
  destruct (process_spec now a W) as (a1 & a2 & F & _ & _ & _ & _ & C & CD).
  cbv zeta in F.
  assert (Ea2 : snd (process now a) = a2) by now rewrite F.
  rewrite Ea2 in *. destruct C as (Cw & Cm & Cs & _).
  apply process_actions in I; [|exact W2].
  destruct I as [(s & p' & Isp & Q & _)|(c & Ibc & A & _ & _)].
  - unfold quorum in Q. apply andb_true_iff in Q. destruct Q as [Qn Qc].
    rewrite CD in Qc.
    destruct (quorum now a s (site_pool_of s a) && dict_mem s (_pending_by_site a)) eqn:Q0.
    + simpl in Qc. apply Z.geb_le in Qc. pose proof (wf_suppress a W). lia.
    + destruct (wf_site a2 W2 s p' Isp) as (Ne & _ & Hp').
      destruct p' as [|[k0 c0] r]; [congruence|].
      set (p' := (k0, c0) :: r) in *.
      assert (In0 : forall k c, In (k, c) p' ->
                site_id c = s /\ In (k, c) (_pending_by_camera a)).
      { intros k c J. destruct (Hp' k c J) as [Es Jb]. split; [exact Es|].
        rewrite <- Ea2 in Jb. apply process_by_camera in Jb; [|exact W]. apply Jb. }
      assert (GP : exists P, dict_get s (_pending_by_site a) = Some P /\
                   forall k c, In (k, c) p' -> In (k, c) P).
      { destruct (In0 k0 c0) as [Es Jb]; [unfold p'; simpl; auto|].
        destruct (wf_cam a W _ _ Jb) as (_ & P & IP & _). rewrite Es in IP.
        exists P. split; [now apply (wf_site_get a _ _ W)|].
        intros k c J. destruct (In0 k c J) as [Es' Jb'].
        destruct (wf_cam a W _ _ Jb') as (_ & P' & IP' & JP'). rewrite Es' in IP'.
        apply (wf_site_get a _ _ W) in IP, IP'. congruence. }
      destruct GP as (P & GP & Sub).
      unfold site_pool_of, dict_mem in Q0. rewrite GP in Q0. rewrite andb_true_r in Q0.
      unfold quorum in Q0. rewrite Qc, andb_true_r in Q0.
      apply Z.leb_gt in Q0. apply Z.leb_le in Qn.
      assert (L : (List.length (active_of now a2 p') <= List.length (active_of now a P))%nat).
      { apply NoDup_incl_length.
        - unfold active_of. apply NoDup_filter. eapply wf_pool_values_nodup; eauto.
        - intros c Ic. unfold active_of in *. apply filter_In in Ic. destruct Ic as [Ic T].
          apply filter_In. split; [|now rewrite Cw].
          apply values_In in Ic. destruct Ic as (k & Ic). eapply In_values; eauto. }
      lia.
  - rewrite <- Ea2 in Ibc. apply process_survivors in Ibc; [|exact W].
    unfold aged in A. apply Z.geb_le in A. lia.
Qed.

Lemma dispatch_sites now a : forall l,
  map action_site_id (flat_map (site_dispatch now a) l) =
  dict_keys (filter (fun item => quorum now a (fst item) (snd item)) l).
Proof.
  induction l as [|[s p] l IH]; simpl; [reflexivity|].
  unfold site_dispatch at 1. simpl. destruct (quorum now a s p); simpl; now rewrite IH.
Qed.

(** X8. [process] returns the aggregate actions first, one for each site
    that reaches its quorum, in the order of the sites, and the single
    actions after them. *)
Theorem aggregates_before_singles now a :
  agg_wf a ->
  exists aggs singles,
    fst (process now a) = aggs ++ singles /\
    Forall (fun act => kind act = "aggregate"%string) aggs /\
    Forall (fun act => kind act = "single"%string) singles /\
    map action_site_id aggs =
    dict_keys (filter (fun item => quorum now a (fst item) (snd item))
                 (_pending_by_site a)).
Proof.
  intros W. destruct (process_spec now a W) as (a1 & a2 & F & _).
  cbv zeta in F. rewrite F. simpl fst.
  eexists. eexists. split; [reflexivity|]. split; [|split].
  - apply Forall_forall. intros act I. apply in_aggregates in I.
    destruct I as (s & p & _ & _ & ->). reflexivity.
  - apply Forall_forall. intros act I. apply in_map_iff in I.
    destruct I as (c & <- & _). reflexivity.
  - apply dispatch_sites.
Qed.

(** X9. [process] never removes the cooldown of a site and never moves it
    back; a cooldown after the call is the one before it or
    [now + suppress]. *)
Theorem cooldown_only_moves_forward now a s :
  agg_wf a ->
  (forall cd, dict_get s (_site_cooldown a) = Some cd ->
     exists cd', dict_get s (_site_cooldown (snd (process now a))) = Some cd' /\ cd <= cd') /\
  (forall cd', dict_get s (_site_cooldown (snd (process now a))) = Some cd' ->
     dict_get s (_site_cooldown a) = Some cd' \/ cd' = now + suppress a).
Proof.
  intros W. destruct (process_spec now a W) as (a1 & a2 & F & _ & _ & _ & _ & _ & CD).
  cbv zeta in F. rewrite F. simpl snd. rewrite CD.
  destruct (quorum now a s (site_pool_of s a) && dict_mem s (_pending_by_site a)) eqn:Q.
  - split.
    + intros cd G. eexists. split; [reflexivity|].
      apply andb_true_iff in Q. destruct Q as [Q _]. unfold quorum in Q.
      apply andb_true_iff in Q. destruct Q as [_ Q]. rewrite G in Q. simpl in Q.
      apply Z.geb_le in Q. pose proof (wf_suppress a W). lia.
    + intros cd' E. inversion E. auto.
  - split; [intros cd G; exists cd; split; [exact G | lia] | auto].
Qed.
End Twice.
Lemma after_alert_step_state now decision e cam cam' :
  dict_get cam' (AlertEngine.state (AlertEngine.after_alert_step now decision e cam)) =
  if String.eqb cam' cam
  then match dict_get cam (AlertEngine.state e) with
       | None => None
       | Some st =>
           Some (if String.eqb decision "clean" then clear_state
                 else ignored_state (now + AlertEngine.suppress e) st)
       end
  else dict_get cam' (AlertEngine.state e).
Proof.
  destruct (String.eqb_spec cam' cam) as [->|N].
  - unfold AlertEngine.after_alert_step.
    destruct (dict_get cam (AlertEngine.state e)) as [st|] eqn:G; [|exact G].
    destruct (String.eqb decision "clean"); simpl; apply dict_get_set_eq.
  - now apply after_alert_step_other.
Qed.

Section StatePredicate.
Variable P : CameraAlertState -> Prop.
Hypothesis P_default : P CameraAlertState_default.
Hypothesis P_blurry : forall now cam e st,
  P st -> P (fst (AlertEngine.observe_blurry now cam e st)).
Hypothesis P_clear : forall st, P st -> P (AlertEngine.observe_clear st).
Hypothesis P_clean : P clear_state.
Hypothesis P_ignore : forall until_ st, P st -> P (ignored_state until_ st).

Lemma all_states_process now cam blurry e :
  all_states P e -> all_states P (AlertEngine.process now cam blurry e).
Proof.
  intros A cam' st' G.
  assert (P0 : P (AlertEngine.state_of cam e)).
  { unfold AlertEngine.state_of. destruct (dict_get cam (AlertEngine.state e)) eqn:G0;
      [eapply A; eauto | exact P_default]. }
  assert (H : dict_get cam' (AlertEngine.state (AlertEngine.process now cam blurry e)) =
              dict_get cam'
                (dict_set cam
                   (if blurry
                    then fst (AlertEngine.observe_blurry now cam e (AlertEngine.state_of cam e))
                    else AlertEngine.observe_clear (AlertEngine.state_of cam e))
                   (AlertEngine.state e))).
  { unfold AlertEngine.process. destruct blurry.
    - destruct (AlertEngine.observe_blurry now cam e (AlertEngine.state_of cam e))
        as [s [c|]]; reflexivity.
    - destruct (pending_candidate (AlertEngine.state_of cam e)); reflexivity. }
  rewrite H in G. destruct (string_dec cam' cam) as [->|N].
  - rewrite dict_get_set_eq in G. inversion G; subst.
    destruct blurry; [apply P_blurry | apply P_clear]; exact P0.
  - rewrite dict_get_set_ne in G by exact N. eapply A; eauto.
Qed.

Lemma all_states_step now decision e cam :
  all_states P e -> all_states P (AlertEngine.after_alert_step now decision e cam).
Proof.
  intros A cam' st' G. rewrite after_alert_step_state in G.
  destruct (String.eqb cam' cam); [|eapply A; eauto].
  destruct (dict_get cam (AlertEngine.state e)) as [st|] eqn:G0; [|discriminate].
  inversion G; subst. destruct (String.eqb decision "clean"); [exact P_clean|].
  apply P_ignore. eapply A; eauto.
Qed.

Lemma all_states_after_alert now decision : forall cams e,
  all_states P e -> all_states P (AlertEngine._after_alert now cams decision e).
Proof.
  induction cams as [|c cams IH]; intros e A; [exact A|].
  rewrite after_alert_cons. apply IH. now apply all_states_step.
Qed.

Lemma all_states_handle now notifier acc act :
  all_states P (snd acc) ->
  all_states P (snd (AlertEngine.handle now notifier acc act)).
Proof.
  intros A. unfold AlertEngine.handle, AlertEngine._handle_aggregate,
    AlertEngine._handle_single. simpl.
  destruct (String.eqb (kind act) "aggregate"); [now apply all_states_after_alert|].
  destruct (candidates act) as [|c l]; [exact A|].
  destruct (dict_get (camera_id c) (AlertEngine.state (snd acc))); [|exact A].
  now apply all_states_step.
Qed.

Lemma all_states_handles now notifier : forall acts acc,
  all_states P (snd acc) ->
  all_states P (snd (fold_left (AlertEngine.handle now notifier) acts acc)).
Proof.
  induction acts as [|act acts IH]; intros acc A; [exact A|].
  simpl. apply IH. now apply all_states_handle.
Qed.

Lemma all_states_flush {tz : LocalZone} now notifier e :
  all_states P e -> all_states P (AlertEngine.flush now notifier e).
Proof.
  intros A. unfold AlertEngine.flush.
  destruct (process now (AlertEngine.aggregator e)) as [acts a'].
  apply all_states_handles. exact A.
Qed.

Lemma all_states_reachable {tz : LocalZone} e : reachable e -> all_states P e.
Proof.
  induction 1.
  - intros cam st G. discriminate G.
  - now apply all_states_process.
  - now apply all_states_flush.
  - now apply all_states_after_alert.
Qed.
End StatePredicate.

Lemma observe_blurry_start now cam e st :
  blur_start (fst (AlertEngine.observe_blurry now cam e st)) =
  if is_blurry st then blur_start st else Some now.
Proof.
  unfold AlertEngine.observe_blurry.
  destruct (is_blurry st); simpl.
  - destruct (blur_start st) as [since|] eqn:B; [|exact B].
    destruct (last_alert_until st); destruct (pending_candidate st);
      destruct (alert_open st); simpl;
      repeat (match goal with |- context [if ?x then _ else _] => destruct x end);
      simpl; auto.
  - destruct (last_alert_until st); destruct (pending_candidate st);
      destruct (alert_open st); simpl;
      repeat (match goal with |- context [if ?x then _ else _] => destruct x end);
      simpl; auto.
Qed.

Lemma reachable_fields_agree {tz : LocalZone} e cam st :
  reachable e -> dict_get cam (AlertEngine.state e) = Some st ->
  (is_blurry st = true <-> blur_start st <> None) /\
  (alert_open st = true <-> last_alert_until st <> None) /\
  (pending_candidate st = true -> is_blurry st = true).
Proof.
  intros R G. cut (all_states fields_agree e); [intros A; exact (A cam st G)|].
  clear cam st G.
  refine (@all_states_reachable fields_agree _ _ _ _ _ tz e R).
  - unfold fields_agree. simpl. repeat split; try discriminate; try congruence.
  - intros now cam e0 st (B & O & Pn).
    pose proof (observe_blurry_spec now cam e0 st) as H. cbv zeta in H.
    destruct H as (Hb & Ho & Hu & H).
    assert (Bs : blur_start (fst (AlertEngine.observe_blurry now cam e0 st)) <> None).
    { rewrite observe_blurry_start. destruct (is_blurry st); [|discriminate].
      apply B. reflexivity. }
    unfold fields_agree. rewrite Hb, Ho, Hu. split; [tauto|]. split; [exact O | auto].
  - intros st (B & O & Pn). unfold AlertEngine.observe_clear, fields_agree.
    destruct (pending_candidate st) eqn:Ep; destruct (is_blurry st) eqn:Eb; simpl;
      rewrite ?Eb; simpl; rewrite ?Ep; repeat split; try discriminate; try congruence;
      try tauto.
  - unfold fields_agree. simpl. repeat split; try discriminate; try congruence.
  - intros u st (B & O & Pn). unfold fields_agree. simpl.
    repeat split; try discriminate; try congruence; tauto.
Qed.

(** X10. In every reachable engine the fields of a camera state agree:
    [blur_start] is set exactly while the camera is blurry,
    [last_alert_until] exactly while an alert is open, and a candidate is
    pending only for a blurry camera. *)
Theorem state_fields_agree {tz : LocalZone} e cam st :
  reachable e -> dict_get cam (AlertEngine.state e) = Some st ->
  (is_blurry st = true <-> blur_start st <> None) /\
  (alert_open st = true <-> last_alert_until st <> None) /\
  (pending_candidate st = true -> is_blurry st = true).
Proof. apply reachable_fields_agree. Qed.

(** ** One candidate for one run of blurry observations *)

Lemma process_fixed now cam blurry e :
  AlertEngine.threshold (AlertEngine.process now cam blurry e) = AlertEngine.threshold e /\
  AlertEngine.suppress (AlertEngine.process now cam blurry e) = AlertEngine.suppress e /\
  AlertEngine.line_lookup (AlertEngine.process now cam blurry e) = AlertEngine.line_lookup e /\
  AlertEngine.site_lookup (AlertEngine.process now cam blurry e) = AlertEngine.site_lookup e /\
  AlertEngine.episode_store (AlertEngine.process now cam blurry e) =
    AlertEngine.episode_store e /\
  AlertEngine.simulator (AlertEngine.process now cam blurry e) = AlertEngine.simulator e.
Proof.
  unfold AlertEngine.process. destruct blurry.
  - destruct (AlertEngine.observe_blurry now cam e (AlertEngine.state_of cam e))
      as [s [c|]]; simpl; auto 10.
  - destruct (pending_candidate (AlertEngine.state_of cam e)); simpl; auto 10.
Qed.

Lemma observe_blurry_ready now cam e st since :
  blur_start st = Some since -> is_blurry st = true ->
  alert_open st = false -> pending_candidate st = false ->
  AlertEngine.observe_blurry now cam e st =
  if now - since >=? AlertEngine.threshold e
  then (mkCameraAlertState true (Some since) (last_alert_until st) false true,
        Some (candidate_of e cam since now))
  else (st, None).
Proof.
  intros B I O P. unfold AlertEngine.observe_blurry. rewrite I. simpl. rewrite B, O, P.
  assert (A : match last_alert_until st with
              | Some until_ => negb (false && (now <? until_))
              | None => true
              end = true) by (destruct (last_alert_until st); reflexivity).
  rewrite A. simpl.
  destruct (now - since >=? AlertEngine.threshold e); [|reflexivity].
  rewrite I. reflexivity.
Qed.

Lemma observe_blurry_pending now cam e st :
  is_blurry st = true -> pending_candidate st = true ->
  AlertEngine.observe_blurry now cam e st = (st, None).
Proof.
  intros I P. unfold AlertEngine.observe_blurry. rewrite I. simpl. rewrite P.
  rewrite andb_false_r. destruct (blur_start st); reflexivity.
Qed.

Lemma observe_run_cons cam t times e :
  observe_run cam (t :: times) e = observe_run cam times (AlertEngine.process t cam true e).
Proof. reflexivity. Qed.

Lemma run_pending cam : forall times e st,
  dict_get cam (AlertEngine.state e) = Some st ->
  is_blurry st = true -> pending_candidate st = true ->
  AlertEngine.aggregator (observe_run cam times e) = AlertEngine.aggregator e /\
  dict_get cam (AlertEngine.state (observe_run cam times e)) = Some st.
Proof.
  induction times as [|t times IH]; intros e st G I P; [auto|].
  rewrite observe_run_cons. destruct (IH (AlertEngine.process t cam true e) st) as [A S]; auto.
  - unfold AlertEngine.process, AlertEngine.state_of. rewrite G.
    rewrite observe_blurry_pending by auto. simpl. apply dict_get_set_eq.
  - split; [|exact S]. rewrite A.
    unfold AlertEngine.process, AlertEngine.state_of. rewrite G.
    rewrite observe_blurry_pending by auto. reflexivity.
Qed.

Lemma run_waiting cam since : forall times e st,
  dict_get cam (AlertEngine.state e) = Some st ->
  blur_start st = Some since -> is_blurry st = true ->
  alert_open st = false -> pending_candidate st = false ->
  AlertEngine.aggregator (observe_run cam times e) =
    match find (fun t => t - since >=? AlertEngine.threshold e) times with
    | Some t => enqueue (candidate_of e cam since t) (AlertEngine.aggregator e)
    | None => AlertEngine.aggregator e
    end /\
  exists st',
    dict_get cam (AlertEngine.state (observe_run cam times e)) = Some st' /\
    is_blurry st' = true /\ blur_start st' = Some since /\
    pending_candidate st' =
      match find (fun t => t - since >=? AlertEngine.threshold e) times with
      | Some _ => true
      | None => false
      end.
Proof.
  induction times as [|t times IH]; intros e st G B I O P.
  - simpl. split; [reflexivity|]. exists st. auto.
  - rewrite observe_run_cons. simpl find.
    destruct (process_fixed t cam true e) as (Th & _ & Ll & Sl & _).
    assert (E : AlertEngine.process t cam true e =
                if t - since >=? AlertEngine.threshold e
                then AlertEngine.with_aggregator
                       (AlertEngine.with_state e
                          (dict_set cam
                             (mkCameraAlertState true (Some since) (last_alert_until st)
                                false true)
                             (AlertEngine.state e)))
                       (enqueue (candidate_of e cam since t) (AlertEngine.aggregator e))
                else AlertEngine.with_state e (dict_set cam st (AlertEngine.state e))).
    { unfold AlertEngine.process, AlertEngine.state_of. rewrite G.
      rewrite (observe_blurry_ready t cam e st since B I O P).
      destruct (t - since >=? AlertEngine.threshold e); reflexivity. }
    destruct (t - since >=? AlertEngine.threshold e) eqn:T.
    + destruct (run_pending cam times (AlertEngine.process t cam true e)
                  (mkCameraAlertState true (Some since) (last_alert_until st) false true))
        as [A S]; auto.
      * rewrite E. simpl. apply dict_get_set_eq.
      * split; [rewrite A, E; reflexivity|]. eexists. split; [exact S|]. auto.
    + destruct (IH (AlertEngine.process t cam true e) st) as [A (st' & S & H)]; auto.
      * rewrite E. simpl. apply dict_get_set_eq.
      * rewrite Th in A, H. unfold candidate_of, site_of in *. rewrite Ll, Sl in A.
        split; [rewrite A, E; reflexivity|]. exists st'. auto.
Qed.

(** X11. A camera that is clear, with no candidate pending and no alert
    open, and is then seen blurry at [t1] and at the times [rest], gets one
    candidate: at the first of these observations at which the threshold has
    passed since [t1], and none if no observation is that late. Its blur
    starts at [t1] whatever follows. *)
Theorem one_candidate_per_blur_run e cam t1 rest :
  is_blurry (AlertEngine.state_of cam e) = false ->
  pending_candidate (AlertEngine.state_of cam e) = false ->
  alert_open (AlertEngine.state_of cam e) = false ->
  let reached := find (fun t => t - t1 >=? AlertEngine.threshold e) (t1 :: rest) in
  AlertEngine.aggregator (observe_run cam (t1 :: rest) e) =
    match reached with
    | Some t => enqueue (candidate_of e cam t1 t) (AlertEngine.aggregator e)
    | None => AlertEngine.aggregator e
    end /\
  exists st,
    dict_get cam (AlertEngine.state (observe_run cam (t1 :: rest) e)) = Some st /\
    is_blurry st = true /\ blur_start st = Some t1 /\
    pending_candidate st = match reached with Some _ => true | None => false end.
Proof.
  intros I P O reached.
  destruct (process_fixed t1 cam true e) as (Th & _ & Ll & Sl & _).
  set (st0 := AlertEngine.state_of cam e) in *.
  assert (E : AlertEngine.observe_blurry t1 cam e st0 =
              if t1 - t1 >=? AlertEngine.threshold e
              then (mkCameraAlertState true (Some t1) (last_alert_until st0) false true,
                    Some (candidate_of e cam t1 t1))
              else (mkCameraAlertState true (Some t1) (last_alert_until st0) false false,
                    None)).
  { unfold AlertEngine.observe_blurry. rewrite I. simpl. rewrite O, P.
    assert (A : match last_alert_until st0 with
                | Some until_ => negb (false && (t1 <? until_))
                | None => true
                end = true) by (destruct (last_alert_until st0); reflexivity).
    rewrite A. simpl. destruct (t1 - t1 >=? AlertEngine.threshold e); reflexivity. }
  unfold reached. simpl find. rewrite observe_run_cons.
  unfold AlertEngine.process. fold st0. rewrite E.
  destruct (t1 - t1 >=? AlertEngine.threshold e) eqn:T.
  - match goal with |- context [observe_run cam rest ?x] => set (e1 := x) end.
    destruct (run_pending cam rest e1
                (mkCameraAlertState true (Some t1) (last_alert_until st0) false true))
      as [A S]; auto.
    + unfold e1. simpl. apply dict_get_set_eq.
    + split; [rewrite A; reflexivity|]. eexists. split; [exact S|]. auto.
  - match goal with |- context [observe_run cam rest ?x] => set (e1 := x) end.
    destruct (run_waiting cam t1 rest e1
                (mkCameraAlertState true (Some t1) (last_alert_until st0) false false))
      as [A (st' & S & H)]; auto.
    + unfold e1. simpl. apply dict_get_set_eq.
    + unfold e1 in *. simpl in A, H. split; [exact A|]. exists st'. split; [exact S | exact H].
Qed.

(** ** What a flush does to the camera states *)

Lemma handle_step_other now notifier n e act cam :
  ~ In cam (action_cameras act) ->
  dict_get cam (AlertEngine.state (snd (AlertEngine.handle now notifier (n, e) act))) =
  dict_get cam (AlertEngine.state e).
Proof.
  intros N. unfold AlertEngine.handle, AlertEngine._handle_aggregate,
    AlertEngine._handle_single. simpl.
  destruct (String.eqb (kind act) "aggregate").
  - now apply after_alert_other.
  - unfold action_cameras in N. destruct (candidates act) as [|c l]; [reflexivity|].
    destruct (dict_get (camera_id c) (AlertEngine.state e)); [|reflexivity].
    apply after_alert_step_other. intros E. apply N. simpl. auto.
Qed.

Lemma handle_suppress now notifier n e act :
  AlertEngine.suppress (snd (AlertEngine.handle now notifier (n, e) act)) =
  AlertEngine.suppress e.
Proof.
  unfold AlertEngine.handle, AlertEngine._handle_aggregate, AlertEngine._handle_single.
  simpl. destruct (String.eqb (kind act) "aggregate").
  - apply after_alert_fixed.
  - destruct (candidates act) as [|c l]; [reflexivity|].
    destruct (dict_get (camera_id c) (AlertEngine.state e)); [|reflexivity].
    apply (after_alert_fixed now (notifier n act) [camera_id c] e).
Qed.

Lemma handle_fst now notifier n e act :
  fst (AlertEngine.handle now notifier (n, e) act) = S n.
Proof. reflexivity. Qed.

Lemma handle_fold_other now notifier cam : forall acts n e,
  ~ In cam (dispatched_cameras acts) ->
  dict_get cam (AlertEngine.state (snd (fold_left (AlertEngine.handle now notifier) acts (n, e)))) =
  dict_get cam (AlertEngine.state e).
Proof.
  induction acts as [|act acts IH]; intros n e N; [reflexivity|].
  simpl fold_left. unfold dispatched_cameras in N. simpl in N. rewrite in_app_iff in N.
  destruct (AlertEngine.handle now notifier (n, e) act) as [n1 e1] eqn:H.
  rewrite IH by tauto.
  replace e1 with (snd (AlertEngine.handle now notifier (n, e) act)) by now rewrite H.
  apply handle_step_other. tauto.
Qed.

Lemma handle_step_hit now notifier n e act cam st :
  (kind act = "aggregate"%string \/ exists c, candidates act = [c]) ->
  In cam (action_cameras act) ->
  dict_get cam (AlertEngine.state e) = Some st ->
  dict_get cam (AlertEngine.state (snd (AlertEngine.handle now notifier (n, e) act))) =
  Some (if String.eqb (notifier n act) "clean" then clear_state
        else ignored_state (now + AlertEngine.suppress e) st).
Proof.
  intros K I G.
  assert (A : forall cams, In cam cams ->
            dict_get cam (AlertEngine.state
                            (AlertEngine._after_alert now cams (notifier n act) e)) =
            Some (if String.eqb (notifier n act) "clean" then clear_state
                  else ignored_state (now + AlertEngine.suppress e) st)).
  { intros cams J. destruct (String.eqb (notifier n act) "clean") eqn:D.
    - apply String.eqb_eq in D. rewrite D. eapply clean_state; eauto.
    - now apply ignore_state. }
  unfold AlertEngine.handle, AlertEngine._handle_aggregate, AlertEngine._handle_single.
  simpl. destruct (String.eqb (kind act) "aggregate") eqn:Ek.
  - now apply A.
  - destruct K as [K|(c & Ec)]; [rewrite K in Ek; discriminate|].
    unfold action_cameras in I. rewrite Ec in *. simpl in I. destruct I as [<-|[]].
    rewrite G. apply (A [camera_id c]). simpl. auto.
Qed.

Lemma handle_fold_hit now notifier cam : forall acts n e i act st,
  NoDup (dispatched_cameras acts) ->
  (forall act, In act acts ->
     kind act = "aggregate"%string \/ exists c, candidates act = [c]) ->
  nth_error acts i = Some act -> In cam (action_cameras act) ->
  dict_get cam (AlertEngine.state e) = Some st ->
  dict_get cam (AlertEngine.state (snd (fold_left (AlertEngine.handle now notifier) acts (n, e)))) =
  Some (if String.eqb (notifier (n + i)%nat act) "clean" then clear_state
        else ignored_state (now + AlertEngine.suppress e) st).
Proof.
  induction acts as [|a0 acts IH]; intros n e i act st ND K Nth I G.
  - destruct i; discriminate Nth.
  - unfold dispatched_cameras in ND. simpl in ND.
    simpl fold_left.
    destruct (AlertEngine.handle now notifier (n, e) a0) as [n1 e1] eqn:H.
    assert (He : e1 = snd (AlertEngine.handle now notifier (n, e) a0)) by now rewrite H.
    assert (Hn : n1 = S n) by (pose proof (handle_fst now notifier n e a0) as F;
                               rewrite H in F; exact F).
    destruct i as [|j]; simpl in Nth.
    + inversion Nth; subst a0. rewrite Nat.add_0_r.
      rewrite handle_fold_other.
      * rewrite He. apply handle_step_hit; auto. apply K. simpl; auto.
      * intros J. apply NoDup_app_remove_l in ND as ND'.
        clear ND'. revert ND. clear - I J. intros ND.
        induction (action_cameras act) as [|x l IHl]; [destruct I|].
        simpl in ND. inversion ND; subst. destruct I as [->|I].
        -- apply H1. apply in_app_iff. auto.
        -- now apply IHl.
    + rewrite (IH n1 e1 j act st); auto.
      * subst n1. replace (S n + j)%nat with (n + S j)%nat by lia.
        rewrite He, handle_suppress. reflexivity.
      * now apply NoDup_app_remove_l in ND.
      * intros a Ia. apply K. simpl; auto.
      * rewrite He, handle_step_other; [exact G|].
        intros J. revert ND. clear - J Nth I. intros ND.
        assert (In cam (dispatched_cameras acts)).
        { unfold dispatched_cameras. apply in_flat_map. exists act.
          split; [eapply nth_error_In; eauto | exact I]. }
        induction (action_cameras a0) as [|x l IHl]; [destruct J|].
        simpl in ND. inversion ND; subst. destruct J as [->|J].
        -- apply H2. apply in_app_iff. auto.
        -- now apply IHl.
Qed.

Section FlushAnswers.
Context {tz : LocalZone}.

Lemma flush_answers now notifier e cam :
  agg_wf (AlertEngine.aggregator e) ->
  let acts := fst (process now (AlertEngine.aggregator e)) in
  AlertEngine.aggregator (AlertEngine.flush now notifier e) =
    snd (process now (AlertEngine.aggregator e)) /\
  (~ In cam (dispatched_cameras acts) ->
   dict_get cam (AlertEngine.state (AlertEngine.flush now notifier e)) =
   dict_get cam (AlertEngine.state e)) /\
  (forall i act st,
     nth_error acts i = Some act -> In cam (action_cameras act) ->
     dict_get cam (AlertEngine.state e) = Some st ->
     dict_get cam (AlertEngine.state (AlertEngine.flush now notifier e)) =
     Some (if String.eqb (notifier i act) "clean" then clear_state
           else ignored_state (now + AlertEngine.suppress e) st)).
Proof.
  intros W acts. unfold AlertEngine.flush.
  pose proof (dispatched_cameras_nodup now _ W) as ND.
  assert (K : forall act, In act acts ->
                kind act = "aggregate"%string \/ exists c, candidates act = [c]).
  { intros act I. exact (process_action_shape now _ act W I). }
  fold acts in ND. unfold acts in *.
  destruct (process now (AlertEngine.aggregator e)) as [l a'] eqn:F. simpl fst in *.
  simpl snd. split; [|split].
  - destruct (handle_fold_touch now notifier cam l 0%nat
                (AlertEngine.with_aggregator e a') K) as (A & _). exact A.
  - intros N. now rewrite handle_fold_other.
  - intros i act st Nth I G.
    apply (handle_fold_hit now notifier cam l 0%nat
             (AlertEngine.with_aggregator e a') i act st); auto.
Qed.

(** X12. [flush] leaves the aggregator as [process] leaves it and the state
    of every camera that is not dispatched as it was; the state of a
    dispatched camera is cleared when the answer to its action is [clean],
    and otherwise marked alerted until [now + suppress]. *)
Theorem flush_applies_answers now notifier e cam :
  agg_wf (AlertEngine.aggregator e) ->
  let acts := fst (process now (AlertEngine.aggregator e)) in
  AlertEngine.aggregator (AlertEngine.flush now notifier e) =
    snd (process now (AlertEngine.aggregator e)) /\
  (~ In cam (dispatched_cameras acts) ->
   dict_get cam (AlertEngine.state (AlertEngine.flush now notifier e)) =
   dict_get cam (AlertEngine.state e)) /\
  (forall i act st,
     nth_error acts i = Some act -> In cam (action_cameras act) ->
     dict_get cam (AlertEngine.state e) = Some st ->
     dict_get cam (AlertEngine.state (AlertEngine.flush now notifier e)) =
     Some (if String.eqb (notifier i act) "clean" then clear_state
           else ignored_state (now + AlertEngine.suppress e) st)).
Proof. apply flush_answers. Qed.
End FlushAnswers.

(** ** Engines driven by [process] and [flush] alone *)

Section DrivenFacts.
Context {tz : LocalZone}.

Lemma driven_reachable e : driven e -> reachable e.
Proof. induction 1; constructor; auto. Qed.

Lemma process_state now cam blurry e cam' :
  dict_get cam' (AlertEngine.state (AlertEngine.process now cam blurry e)) =
  dict_get cam'
    (dict_set cam
       (if blurry
        then fst (AlertEngine.observe_blurry now cam e (AlertEngine.state_of cam e))
        else AlertEngine.observe_clear (AlertEngine.state_of cam e))
       (AlertEngine.state e)).
Proof.
  unfold AlertEngine.process. destruct blurry.
  - destruct (AlertEngine.observe_blurry now cam e (AlertEngine.state_of cam e))
      as [s [c|]]; reflexivity.
  - destruct (pending_candidate (AlertEngine.state_of cam e)); reflexivity.
Qed.

Lemma process_aggregator now cam blurry e :
  AlertEngine.aggregator (AlertEngine.process now cam blurry e) =
  if blurry
  then match snd (AlertEngine.observe_blurry now cam e (AlertEngine.state_of cam e)) with
       | Some c => enqueue c (AlertEngine.aggregator e)
       | None => AlertEngine.aggregator e
       end
  else if pending_candidate (AlertEngine.state_of cam e)
       then cancel cam (AlertEngine.aggregator e)
       else AlertEngine.aggregator e.
Proof.
  unfold AlertEngine.process. destruct blurry.
  - destruct (AlertEngine.observe_blurry now cam e (AlertEngine.state_of cam e))
      as [s [c|]]; reflexivity.
  - destruct (pending_candidate (AlertEngine.state_of cam e)); reflexivity.
Qed.

Lemma driven_pooled e : driven e -> pooled_are_pending e.
Proof.
  induction 1 as [| e now cam blurry D [IH1 IH2] | e now notifier D [IH1 IH2]].
  - split; [intros k c [] | intros cam st G; discriminate G].
  - pose proof (driven_reachable e D) as R.
    pose proof (reachable_wf e R) as W.
    assert (F0 : forall st, dict_get cam (AlertEngine.state e) = Some st ->
                            AlertEngine.state_of cam e = st).
    { intros st G. unfold AlertEngine.state_of. now rewrite G. }
    assert (O0 : alert_open (AlertEngine.state_of cam e) = true ->
                 is_blurry (AlertEngine.state_of cam e) = true).
    { unfold AlertEngine.state_of.
      destruct (dict_get cam (AlertEngine.state e)) eqn:G; [eapply IH2; eauto|].
      simpl. discriminate. }
    split.
    + intros k c I. rewrite process_aggregator in I.
      destruct (string_dec k cam) as [->|N].
      * rewrite process_state, dict_get_set_eq. eexists. split; [reflexivity|].
        destruct blurry.
        -- pose proof (observe_blurry_spec now cam e (AlertEngine.state_of cam e)) as S.
           cbv zeta in S. destruct S as (_ & _ & _ & S).
           destruct (snd (AlertEngine.observe_blurry now cam e (AlertEngine.state_of cam e)))
             as [c'|]; [apply S|].
           rewrite S. destruct (IH1 _ _ I) as (st & G & P). now rewrite (F0 st G).
        -- exfalso.
           destruct (pending_candidate (AlertEngine.state_of cam e)) eqn:P.
           ++ rewrite cancel_by_camera in I.
              eapply In_pop_key; [apply (wf_cam_nodup _ W) | exact I].
           ++ destruct (IH1 _ _ I) as (st & G & P'). rewrite (F0 st G) in P. congruence.
      * rewrite process_state, dict_get_set_ne by exact N.
        apply (IH1 k c). destruct blurry.
        -- pose proof (observe_blurry_spec now cam e (AlertEngine.state_of cam e)) as S.
           cbv zeta in S. destruct S as (_ & _ & _ & S).
           destruct (snd (AlertEngine.observe_blurry now cam e (AlertEngine.state_of cam e)))
             as [c'|]; [|exact I].
           destruct S as (_ & _ & Ec & _). simpl in I.
           apply In_set_inv in I; [|apply (wf_cam_nodup _ W)].
           destruct I as [[E _]|[_ I]]; [congruence | exact I].
        -- destruct (pending_candidate (AlertEngine.state_of cam e)); [|exact I].
           rewrite cancel_by_camera in I. eapply In_pop; eauto.
    + intros cam' st G. rewrite process_state in G.
      destruct (string_dec cam' cam) as [->|N].
      * rewrite dict_get_set_eq in G. inversion G; subst st. clear G.
        destruct blurry.
        -- pose proof (observe_blurry_spec now cam e (AlertEngine.state_of cam e)) as S.
           cbv zeta in S. destruct S as (B & _). intros _. exact B.
        -- unfold AlertEngine.observe_clear.
           destruct (pending_candidate (AlertEngine.state_of cam e));
             destruct (is_blurry (AlertEngine.state_of cam e)) eqn:B; simpl;
             rewrite ?B; simpl; try discriminate; intros O; apply O0 in O; congruence.
      * rewrite dict_get_set_ne in G by exact N. eapply IH2; eauto.
  - pose proof (driven_reachable e D) as R.
    pose proof (reachable_wf e R) as W.
    destruct (flush_answers now notifier e "" W) as (A & _).
    split.
    + intros k c I. rewrite A in I. apply process_by_camera in I; [|exact W].
      destruct I as [I N].
      destruct (flush_answers now notifier e k W) as (_ & U & _).
      rewrite (U N). now apply (IH1 k c).
    + intros cam st G O.
      destruct (flush_answers now notifier e cam W) as (_ & U & H).
      destruct (in_dec string_dec cam
                  (dispatched_cameras (fst (process now (AlertEngine.aggregator e)))))
        as [I|N].
      * unfold dispatched_cameras in I. apply in_flat_map in I.
        destruct I as (act & Ia & Ic).
        destruct (In_nth_error _ _ Ia) as (i & Nth).
        destruct (actions_shape now _ act W Ia) as (_ & Hc & _).
        unfold action_cameras in Ic. apply in_map_iff in Ic. destruct Ic as (c & Ec & Ic).
        destruct (Hc c Ic) as [Ibc _]. rewrite Ec in Ibc.
        destruct (IH1 _ _ Ibc) as (st0 & G0 & P0).
        assert (Ic' : In cam (action_cameras act))
          by (unfold action_cameras; apply in_map_iff; eauto).
        rewrite (H i act st0 Nth Ic' G0) in G. inversion G; subst st. clear G.
        destruct (String.eqb (notifier i act) "clean"); [discriminate O|]. simpl.
        destruct (reachable_fields_agree e cam st0 R G0) as (_ & _ & Pb). now apply Pb.
      * rewrite (U N) in G. eapply IH2; eauto.
Qed.

(** X13. In an engine driven by [process] and [flush] alone, a camera has a
    candidate in the aggregator exactly when its state says that one is
    pending, and an open alert belongs to a blurry camera. *)
Theorem pending_iff_pooled e cam :
  driven e ->
  ((exists c, dict_get cam (_pending_by_camera (AlertEngine.aggregator e)) = Some c) <->
   (exists st, dict_get cam (AlertEngine.state e) = Some st /\
               pending_candidate st = true)) /\
  (forall st, dict_get cam (AlertEngine.state e) = Some st ->
              alert_open st = true -> is_blurry st = true).
Proof.
  intros D. destruct (driven_pooled e D) as [H1 H2].
  destruct (reachable_inv e (driven_reachable e D)) as (_ & _ & St).
  split; [split|].
  - intros (c & G). apply (H1 cam c). now apply dict_get_In.
  - intros (st & G & P). destruct (St cam st G) as [_ S].
    destruct (S P) as (_ & c & Gc & _). eauto.
  - intros st G. now apply (H2 cam st).
Qed.

(** X14. In such an engine an observation of a camera as clear puts its
    state back to the initial one and leaves no candidate of it in any pool. *)
Theorem clear_observation_resets e now cam :
  driven e ->
  let e' := AlertEngine.process now cam false e in
  dict_get cam (AlertEngine.state e') = Some (mkCameraAlertState false None None false false) /\
  dict_get cam (_pending_by_camera (AlertEngine.aggregator e')) = None /\
  (forall s p, In (s, p) (_pending_by_site (AlertEngine.aggregator e')) ->
               dict_get cam p = None).
Proof.
  intros D e'. pose proof (driven_reachable e D) as R.
  pose proof (reachable_wf e R) as W.
  destruct (driven_pooled e D) as [H1 H2].
  assert (W' : agg_wf (AlertEngine.aggregator e'))
    by (apply reachable_wf; constructor; exact R).
  assert (N : dict_get cam (_pending_by_camera (AlertEngine.aggregator e')) = None).
  { unfold e'. rewrite process_aggregator.
    destruct (pending_candidate (AlertEngine.state_of cam e)) eqn:P.
    - rewrite cancel_by_camera. apply dict_get_None, pop_not_key, (wf_cam_nodup _ W).
    - destruct (dict_get cam (_pending_by_camera (AlertEngine.aggregator e))) as [c|] eqn:G;
        [|reflexivity].
      destruct (H1 cam c (dict_get_In _ _ _ G)) as (st & Gs & Ps).
      unfold AlertEngine.state_of in P. rewrite Gs in P. congruence. }
  split; [|split; [exact N|]].
  - unfold e'. rewrite process_state, dict_get_set_eq. f_equal.
    assert (F : fields_agree (AlertEngine.state_of cam e) /\
                (alert_open (AlertEngine.state_of cam e) = true ->
                 is_blurry (AlertEngine.state_of cam e) = true)).
    { unfold AlertEngine.state_of.
      destruct (dict_get cam (AlertEngine.state e)) as [st|] eqn:G.
      - split; [apply (reachable_fields_agree e cam st R G) | apply (H2 cam st G)].
      - split; [|discriminate]. unfold fields_agree. simpl.
        repeat split; try discriminate; congruence. }
    destruct F as [(B & O & _) OB]. unfold AlertEngine.observe_clear.
    destruct (AlertEngine.state_of cam e) as [b bs u o p]. simpl in *.
    destruct p; simpl; destruct b; simpl; try reflexivity.
    + destruct o; [specialize (OB eq_refl); discriminate|].
      destruct bs; [exfalso; assert (false = true) by (apply B; discriminate); discriminate|].
      destruct u; [exfalso; assert (false = true) by (apply O; discriminate); discriminate|].
      reflexivity.
    + destruct o; [specialize (OB eq_refl); discriminate|].
      destruct bs; [exfalso; assert (false = true) by (apply B; discriminate); discriminate|].
      destruct u; [exfalso; assert (false = true) by (apply O; discriminate); discriminate|].
      reflexivity.
  - intros s p I. destruct (dict_get cam p) as [c|] eqn:G; [|reflexivity].
    apply dict_get_In in G. destruct (wf_site_entry _ s p _ _ W' I G) as (_ & _ & Ibc).
    apply dict_get_None in N. exfalso. apply N. eapply In_keys; eauto.
Qed.
End DrivenFacts.

(** ** The collaborators, the lifetime of a camera state, an idle flush *)

Lemma step_rows now decision e cam :
  exists l,
    AlertEngine.episode_store (AlertEngine.after_alert_step now decision e cam) =
      AlertEngine.episode_store e ++ l /\
    (forall row, In row l ->
       decision = "clean"%string /\ fst (fst row) = cam /\ snd row = now /\
       exists st, dict_get cam (AlertEngine.state e) = Some st /\
                  blur_start st = Some (snd (fst row))).
Proof.
  unfold AlertEngine.after_alert_step.
  destruct (dict_get cam (AlertEngine.state e)) as [st|] eqn:G;
    [|exists []; rewrite app_nil_r; split; [reflexivity | intros ? []]].
  destruct (String.eqb_spec decision "clean") as [->|N]; simpl;
    [|exists []; rewrite app_nil_r; split; [reflexivity | intros ? []]].
  destruct (blur_start st) as [since|] eqn:B;
    [|exists []; rewrite app_nil_r; split; [reflexivity | intros ? []]].
  exists [(cam, since, now)]. split; [reflexivity|].
  intros row [<-|[]]. simpl. repeat split; auto. exists st. auto.
Qed.

Lemma after_alert_rows now decision : forall cams e,
  exists l,
    AlertEngine.episode_store (AlertEngine._after_alert now cams decision e) =
      AlertEngine.episode_store e ++ l /\
    (forall row, In row l ->
       decision = "clean"%string /\ In (fst (fst row)) cams /\ snd row = now).
Proof.
  induction cams as [|c cams IH]; intros e.
  - exists []. simpl. rewrite app_nil_r. split; [reflexivity | intros ? []].
  - rewrite after_alert_cons.
    destruct (IH (AlertEngine.after_alert_step now decision e c)) as (l & E & H).
    destruct (step_rows now decision e c) as (l0 & E0 & H0).
    exists (l0 ++ l). rewrite E, E0, app_assoc. split; [reflexivity|].
    intros row I. apply in_app_iff in I. destruct I as [I|I].
    + destruct (H0 row I) as (D & C & T & _). simpl. auto.
    + destruct (H row I) as (D & C & T). simpl. auto.
Qed.

Lemma handle_rows now notifier n e act :
  exists l,
    AlertEngine.episode_store (snd (AlertEngine.handle now notifier (n, e) act)) =
      AlertEngine.episode_store e ++ l /\
    (forall row, In row l ->
       notifier n act = "clean"%string /\ In (fst (fst row)) (action_cameras act) /\
       snd row = now).
Proof.
  unfold AlertEngine.handle, AlertEngine._handle_aggregate, AlertEngine._handle_single,
    action_cameras. simpl.
  destruct (String.eqb (kind act) "aggregate").
  - apply after_alert_rows.
  - destruct (candidates act) as [|c l0];
      [exists []; rewrite app_nil_r; split; [reflexivity | intros ? []]|].
    destruct (dict_get (camera_id c) (AlertEngine.state e));
      [|exists []; rewrite app_nil_r; split; [reflexivity | intros ? []]].
    destruct (after_alert_rows now (notifier n act) [camera_id c] e) as (l & E & H).
    exists l. split; [exact E|]. intros row I. destruct (H row I) as (D & C & T).
    split; [exact D|]. split; [|exact T]. simpl. destruct C as [C|[]]. auto.
Qed.

Lemma handles_rows now notifier : forall acts n e,
  exists l,
    AlertEngine.episode_store (snd (fold_left (AlertEngine.handle now notifier) acts (n, e))) =
      AlertEngine.episode_store e ++ l /\
    (forall row, In row l ->
       (exists i act, nth_error acts i = Some act /\
                      notifier (n + i)%nat act = "clean"%string) /\
       In (fst (fst row)) (dispatched_cameras acts) /\ snd row = now).
Proof.
  induction acts as [|act acts IH]; intros n e.
  - exists []. simpl. rewrite app_nil_r. split; [reflexivity | intros ? []].
  - simpl fold_left.
    destruct (AlertEngine.handle now notifier (n, e) act) as [n1 e1] eqn:H.
    assert (He : e1 = snd (AlertEngine.handle now notifier (n, e) act)) by now rewrite H.
    assert (Hn : n1 = S n) by (pose proof (handle_fst now notifier n e act) as F;
                               rewrite H in F; exact F).
    destruct (IH n1 e1) as (l & E & Hl).
    destruct (handle_rows now notifier n e act) as (l0 & E0 & H0). rewrite <- He in E0.
    exists (l0 ++ l). rewrite E, E0, app_assoc. split; [reflexivity|].
    intros row I. unfold dispatched_cameras. simpl. rewrite in_app_iff.
    apply in_app_iff in I. destruct I as [I|I].
    + destruct (H0 row I) as (D & C & T). split; [|auto].
      exists 0%nat, act. rewrite Nat.add_0_r. auto.
    + destruct (Hl row I) as ((i & a & Nth & D) & C & T). split; [|auto].
      exists (S i), a. subst n1. replace (n + S i)%nat with (S n + i)%nat by lia. auto.
Qed.

Lemma handles_quiet now notifier : forall acts n e,
  (forall i act, String.eqb (notifier i act) "clean" = false) ->
  AlertEngine.episode_store (snd (fold_left (AlertEngine.handle now notifier) acts (n, e))) =
    AlertEngine.episode_store e /\
  AlertEngine.simulator (snd (fold_left (AlertEngine.handle now notifier) acts (n, e))) =
    AlertEngine.simulator e.
Proof.
  induction acts as [|act acts IH]; intros n e Q; [auto|].
  simpl fold_left.
  destruct (AlertEngine.handle now notifier (n, e) act) as [n1 e1] eqn:H.
  assert (He : e1 = snd (AlertEngine.handle now notifier (n, e) act)) by now rewrite H.
  destruct (IH n1 e1 Q) as [-> ->]. rewrite He.
  unfold AlertEngine.handle, AlertEngine._handle_aggregate, AlertEngine._handle_single.
  simpl. destruct (String.eqb (kind act) "aggregate").
  - apply ignore_collaborators, Q.
  - destruct (candidates act) as [|c l0]; [auto|].
    destruct (dict_get (camera_id c) (AlertEngine.state e)); [|auto].
    apply (ignore_collaborators now (notifier n act) [camera_id c] e), Q.
Qed.

(** X15. [process] never writes an episode and never touches the simulator.
    Every row that [flush] appends carries the time of the flush and a
    camera dispatched in it, and needs an answer [clean]; with no such answer
    [flush] leaves the episodes and the simulator as they are. *)
Theorem episodes_only_on_clean {tz : LocalZone} now notifier e :
  (forall t cam blurry,
     AlertEngine.episode_store (AlertEngine.process t cam blurry e) =
       AlertEngine.episode_store e /\
     AlertEngine.simulator (AlertEngine.process t cam blurry e) = AlertEngine.simulator e) /\
  (exists rows,
     AlertEngine.episode_store (AlertEngine.flush now notifier e) =
       AlertEngine.episode_store e ++ rows /\
     forall row, In row rows ->
       snd row = now /\
       In (fst (fst row))
          (dispatched_cameras (fst (process now (AlertEngine.aggregator e)))) /\
       exists i act,
         nth_error (fst (process now (AlertEngine.aggregator e))) i = Some act /\
         notifier i act = "clean"%string) /\
  ((forall i act, notifier i act <> "clean"%string) ->
   AlertEngine.episode_store (AlertEngine.flush now notifier e) =
     AlertEngine.episode_store e /\
   AlertEngine.simulator (AlertEngine.flush now notifier e) = AlertEngine.simulator e).
Proof.
  split; [|split].
  - intros t cam blurry. destruct (process_fixed t cam blurry e) as (_ & _ & _ & _ & E & S).
    auto.
  - unfold AlertEngine.flush.
    destruct (process now (AlertEngine.aggregator e)) as [acts a']. simpl fst.
    destruct (handles_rows now notifier acts 0%nat (AlertEngine.with_aggregator e a'))
      as (l & E & H).
    exists l. split; [exact E|]. intros row I. destruct (H row I) as (X & C & T). auto.
  - intros Q. unfold AlertEngine.flush.
    destruct (process now (AlertEngine.aggregator e)) as [acts a'].
    apply (handles_quiet now notifier acts 0%nat (AlertEngine.with_aggregator e a')).
    intros i act. apply String.eqb_neq, Q.
Qed.

(** A camera that has a state keeps one. *)
Lemma step_keeps now decision e cam cam' :
  dict_get cam' (AlertEngine.state e) <> None ->
  dict_get cam' (AlertEngine.state (AlertEngine.after_alert_step now decision e cam)) <> None.
Proof.
  intros H. rewrite after_alert_step_state. destruct (String.eqb_spec cam' cam) as [->|N].
  - destruct (dict_get cam (AlertEngine.state e)); [discriminate | exact H].
  - exact H.
Qed.

Lemma after_alert_keeps now decision cam' : forall cams e,
  dict_get cam' (AlertEngine.state e) <> None ->
  dict_get cam' (AlertEngine.state (AlertEngine._after_alert now cams decision e)) <> None.
Proof.
  induction cams as [|c cams IH]; intros e H; [exact H|].
  rewrite after_alert_cons. apply IH. now apply step_keeps.
Qed.

Lemma handles_keep now notifier cam' : forall acts acc,
  dict_get cam' (AlertEngine.state (snd acc)) <> None ->
  dict_get cam' (AlertEngine.state (snd (fold_left (AlertEngine.handle now notifier) acts acc)))
    <> None.
Proof.
  induction acts as [|act acts IH]; intros acc H; [exact H|].
  simpl. apply IH. unfold AlertEngine.handle, AlertEngine._handle_aggregate,
    AlertEngine._handle_single. simpl.
  destruct (String.eqb (kind act) "aggregate"); [now apply after_alert_keeps|].
  destruct (candidates act) as [|c l]; [exact H|].
  destruct (dict_get (camera_id c) (AlertEngine.state (snd acc))); [|exact H].
  now apply step_keeps.
Qed.

(** X16. [process] creates the state of the camera that it observes, and
    no call removes the state of a camera once it exists. *)
Theorem camera_state_persists {tz : LocalZone} e cam :
  (forall now blurry,
     dict_get cam (AlertEngine.state (AlertEngine.process now cam blurry e)) <> None) /\
  (dict_get cam (AlertEngine.state e) <> None ->
   (forall now cam' blurry,
      dict_get cam (AlertEngine.state (AlertEngine.process now cam' blurry e)) <> None) /\
   (forall now notifier,
      dict_get cam (AlertEngine.state (AlertEngine.flush now notifier e)) <> None) /\
   (forall now cams decision,
      dict_get cam (AlertEngine.state (AlertEngine._after_alert now cams decision e)) <> None)).
Proof.
  split.
  - intros now blurry. rewrite process_state, dict_get_set_eq. discriminate.
  - intros H. split; [|split].
    + intros now cam' blurry. rewrite process_state.
      destruct (string_dec cam cam') as [->|N].
      * rewrite dict_get_set_eq. discriminate.
      * now rewrite dict_get_set_ne.
    + intros now notifier. unfold AlertEngine.flush.
      destruct (process now (AlertEngine.aggregator e)) as [acts a'].
      apply handles_keep. exact H.
    + intros now cams decision. now apply after_alert_keeps.
Qed.

(** X17. With nothing pending, [flush] dispatches nothing and leaves the
    engine as it is. *)
Theorem idle_flush_changes_nothing {tz : LocalZone} now notifier e :
  _pending_by_camera (AlertEngine.aggregator e) = [] ->
  _pending_by_site (AlertEngine.aggregator e) = [] ->
  fst (process now (AlertEngine.aggregator e)) = [] /\
  AlertEngine.flush now notifier e = e.
Proof.
  intros C S. unfold AlertEngine.flush, process, process_aggregates, process_singles.
  rewrite S. simpl. rewrite C. simpl. split; [reflexivity|].
  destruct e. reflexivity.
Qed.

(** ** More on [parse_washdown_schedule] and the washdown windows *)

Lemma digit_val_range c : is_digit c = true -> 0 <= digit_val c <= 9.
Proof.
  unfold is_digit, digit_val. intros H. apply andb_true_iff in H. destruct H as [A B].
  apply Nat.leb_le in A, B. lia.
Qed.

Lemma parse_hour_range s h rest : parse_hour s = Some (h, rest) -> 0 <= h <= 23.
Proof.
  unfold parse_hour. intros H.
  destruct s as [|a [|b r]]; try discriminate.
  assert (Ra : is_digit a = true -> 0 <= digit_val a <= 9) by apply digit_val_range.
  assert (Rb : is_digit b = true -> 0 <= digit_val b <= 9) by apply digit_val_range.
  set (hh := 10 * digit_val a + digit_val b) in *.
  assert (Hh : is_digit a = true -> is_digit b = true -> 0 <= hh).
  { intros A B. unfold hh. specialize (Ra A). specialize (Rb B). lia. }
  set (da := is_digit a) in *. set (va := digit_val a) in *.
  set (db := is_digit b) in *.
  clearbody da va db hh. clear Rb.
  repeat (match type of H with
          | context [match ?x with _ => _ end] => destruct x eqn:?; try discriminate
          end);
    inversion H; subst; clear H;
    repeat (match goal with
            | E : (_ && _) = true |- _ => apply andb_true_iff in E; destruct E
            | E : (_ <=? _) = true |- _ => apply Z.leb_le in E
            end); try (split; [now apply Hh | assumption]).
  all: specialize (Ra eq_refl); lia.
Qed.

Lemma parse_minute_range s m : parse_minute s = Some m -> 0 <= m <= 59.
Proof.
  unfold parse_minute. intros H.
  destruct s as [|a [|b [|c r]]]; try discriminate.
  - destruct (is_digit a) eqn:A; [|discriminate].
    pose proof (digit_val_range a A) as Ra.
    set (va := digit_val a) in *. clearbody va.
    injection H as <-. lia.
  - destruct (is_digit a && is_digit b && (digit_val a <=? 5)) eqn:T; [|discriminate].
    rewrite !andb_true_iff in T. destruct T as [[A B] L].
    apply Z.leb_le in L.
    pose proof (digit_val_range a A) as Ra. pose proof (digit_val_range b B) as Rb.
    set (va := digit_val a) in *. set (vb := digit_val b) in *. clearbody va vb.
    assert (E : m = 10 * va + vb) by congruence. lia.
Qed.

Lemma strptime_whole_minute s t : strptime_HM s = Returned t -> whole_minute t.
Proof.
  unfold strptime_HM.
  destruct (parse_hour s) as [[h rest]|] eqn:H; [|discriminate].
  destruct (parse_minute rest) as [m|] eqn:M; [|discriminate].
  intros E. injection E as <-.
  apply parse_hour_range in H. apply parse_minute_range in M.
  unfold whole_minute. simpl. auto.
Qed.

Lemma parse_window_whole_minute chunk w :
  parse_window chunk = Returned w -> whole_minute (fst w) /\ whole_minute (snd w).
Proof.
  unfold parse_window.
  destruct (split_on "-" chunk) as [|a [|b [|x l]]]; try discriminate.
  destruct (strptime_HM (strip a)) as [s|] eqn:A; [|discriminate].
  destruct (strptime_HM (strip b)) as [e|] eqn:B; [|discriminate].
  intros E. injection E as <-. simpl.
  split; eapply strptime_whole_minute; eauto.
Qed.

(** X18. Every window that [parse_washdown_schedule] returns is a pair of
    times of day on a whole minute. *)
Theorem parsed_windows_are_times spec windows printed w :
  parse_washdown_schedule spec = Returned (windows, printed) ->
  In w windows ->
  whole_minute (fst w) /\ whole_minute (snd w).
Proof.
  intros P I.
  assert (E : windows = flat_map window_of_chunk (chunks_of spec)).
  { destruct spec as [[|c r]|]; try (injection P as <- _; reflexivity).
    unfold parse_washdown_schedule in P. rewrite parse_chunks_spec in P.
    injection P as <- _. reflexivity. }
  subst windows. apply in_flat_map in I. destruct I as [chunk [_ I]].
  unfold window_of_chunk in I.
  destruct (parse_window (strip chunk)) as [w'|] eqn:W; [|destruct I].
  destruct I as [<-|[]]. eapply parse_window_whole_minute; eauto.
Qed.

Lemma parsed_windows_are_times_witness :
  whole_minute (mk_dtime 22 0 0 0) /\ whole_minute (mk_dtime 2 30 0 0).
Proof.
  apply (parsed_windows_are_times (Some "01:00-01:30, 22:00-2:30"%string)
           [(mk_dtime 1 0 0 0, mk_dtime 1 30 0 0); (mk_dtime 22 0 0 0, mk_dtime 2 30 0 0)]
           [] (mk_dtime 22 0 0 0, mk_dtime 2 30 0 0)).
  - vm_compute. reflexivity.
  - simpl. auto.
Defined.

Lemma dtime_leb_refl t : dtime_leb t t = true.
Proof.
  unfold dtime_leb. rewrite !Z.eqb_refl, Z.leb_refl. simpl.
  now rewrite !orb_true_r.
Qed.

Lemma dtime_leb_antisym a b :
  dtime_leb a b = true -> dtime_leb b a = true -> a = b.
Proof.
  destruct a as [h1 m1 s1 u1], b as [h2 m2 s2 u2]. unfold dtime_leb. simpl.
  intros A B.
  repeat (rewrite orb_true_iff in A || rewrite andb_true_iff in A).
  repeat (rewrite orb_true_iff in B || rewrite andb_true_iff in B).
  rewrite ?Z.ltb_lt, ?Z.eqb_eq, ?Z.leb_le in A, B.
  assert (h1 = h2 /\ m1 = m2 /\ s1 = s2 /\ u1 = u2) as (-> & -> & -> & ->) by lia.
  reflexivity.
Qed.

(** X19. The two ends of a washdown window belong to it, whether or not it
    wraps past midnight, and a window whose start equals its end covers that
    one time of day only, not the whole day. *)
Theorem washdown_window_ends s e t :
  SiteAlertAggregator.in_range s e s = true /\
  SiteAlertAggregator.in_range s e e = true /\
  (SiteAlertAggregator.in_range s s t = true <-> t = s).
Proof.
  unfold SiteAlertAggregator.in_range.
  split; [|split].
  - destruct (dtime_leb s e); rewrite dtime_leb_refl; reflexivity.
  - destruct (dtime_leb s e); rewrite dtime_leb_refl; reflexivity.
  - rewrite dtime_leb_refl. rewrite andb_true_iff. split.
    + intros [A B]. now apply dtime_leb_antisym.
    + intros ->. now rewrite dtime_leb_refl.
Qed.

(** ** The label of a camera *)

Lemma split_on_nonempty sep s : split_on sep s <> [].
Proof.
  destruct s as [|c r]; simpl; [discriminate|].
  destruct (Ascii.eqb c sep); [discriminate|].
  destruct (split_on sep r); discriminate.
Qed.

Lemma split_on_single sep : forall s p, split_on sep s = [p] -> s = p.
Proof.
  induction s as [|c r IH]; simpl; intros p.
  - intros E. now inversion E.
  - destruct (Ascii.eqb c sep).
    + intros E. inversion E as [[E1 E2]]. now apply split_on_nonempty in E2.
    + destruct (split_on sep r) as [|q [|q2 ps]] eqn:S; intros E.
      * now apply split_on_nonempty in S.
      * injection E as <-. f_equal. apply IH. reflexivity.
      * discriminate E.
Qed.

Lemma split_on_no_sep sep : forall s, has_char sep s = false -> split_on sep s = [s].
Proof.
  induction s as [|c r IH]; simpl; intros H; [reflexivity|].
  apply orb_false_iff in H. destruct H as [A B]. rewrite A, (IH B). reflexivity.
Qed.

Lemma split_on_last sep : forall s,
  exists prefix,
    s = (prefix ++ last (split_on sep s) EmptyString)%string /\
    has_char sep (last (split_on sep s) EmptyString) = false /\
    (prefix = EmptyString \/ exists p, prefix = (p ++ String sep EmptyString)%string).
Proof.
  induction s as [|c r IH].
  - exists EmptyString. simpl. auto.
  - destruct IH as (prefix & E & N & P). cbn [split_on].
    destruct (Ascii.eqb c sep) eqn:C.
    + apply Ascii.eqb_eq in C. subst c.
      exists (String sep prefix).
      assert (L : last (EmptyString :: split_on sep r) EmptyString =
                  last (split_on sep r) EmptyString).
      { destruct (split_on sep r) eqn:S; [now apply split_on_nonempty in S|reflexivity]. }
      rewrite L. split; [simpl; now rewrite <- E|]. split; [exact N|]. right.
      destruct P as [->|[p ->]]; [now exists EmptyString | now exists (String sep p)].
    + destruct (split_on sep r) as [|p ps] eqn:S; [now apply split_on_nonempty in S|].
      destruct ps as [|p2 ps].
      * apply split_on_single in S. subst p. simpl in N.
        exists EmptyString. simpl. rewrite C, N. auto.
      * exists (String c prefix).
        change (last (String c p :: p2 :: ps) EmptyString) with (last (p2 :: ps) EmptyString).
        change (last (p :: p2 :: ps) EmptyString) with (last (p2 :: ps) EmptyString) in E, N.
        split; [change (String c r = String c (prefix ++ last (p2 :: ps) EmptyString));
                now rewrite <- E|].
        split; [exact N|]. right.
        destruct P as [->|[q ->]]; [|now exists (String c q)].
        change (r = last (p2 :: ps) EmptyString) in E. rewrite <- E in N. apply (split_on_no_sep sep) in N.
        rewrite S in N. discriminate.
Qed.

(** X20. The label shown for a camera is what follows the last ["-"] of its
    identifier: the identifier is a prefix, empty or ending in ["-"],
    followed by the label, and the label holds no ["-"]; the test
    ["-" in camera_id] changes nothing. *)
Theorem camera_label_is_last_part (camera_id : string) :
  camera_label camera_id = last (split_on "-" camera_id) EmptyString /\
  has_char "-" (camera_label camera_id) = false /\
  exists prefix,
    camera_id = (prefix ++ camera_label camera_id)%string /\
    (prefix = EmptyString \/ exists p, prefix = (p ++ "-")%string).
Proof.
  assert (E : camera_label camera_id = last (split_on "-" camera_id) EmptyString).
  { unfold camera_label. destruct (has_char "-" camera_id) eqn:H; [reflexivity|].
    now rewrite (split_on_no_sep _ _ H). }
  split; [exact E|]. rewrite E.
  destruct (split_on_last "-" camera_id) as (prefix & S & N & P).
  split; [exact N|]. exists prefix. auto.
Qed.

(** ** [Simulator.tick] and the loop of [run] *)

Lemma keys_set_present (V : Type) k (v : V) d :
  dict_get k d <> None -> dict_keys (dict_set k v d) = dict_keys d.
Proof.
  induction d as [|[k' v'] r IH]; simpl; [congruence|].
  destruct (String.eqb k k') eqn:E; simpl; [reflexivity|].
  intros H. now rewrite IH.
Qed.

Lemma tick_step_keeps (float : Type) (float_lt : float -> float -> bool)
    (random : nat -> float) (p_blur_on p_blur_off : float) (auto_clear : bool) n s cid :
  In cid (dict_keys (Simulator.state s)) ->
  exists n' s',
    tick_step float float_lt random p_blur_on p_blur_off auto_clear (Some (n, s)) cid =
      Some (n', s') /\
    dict_keys (Simulator.state s') = dict_keys (Simulator.state s) /\
    (n <= n' <= S n)%nat.
Proof.
  intros I. unfold tick_step.
  destruct (dict_get cid (Simulator.state s)) as [[|]|] eqn:G.
  - destruct auto_clear.
    + destruct (float_lt (random n) p_blur_off).
      * eexists _, _. split; [reflexivity|]. split; [|lia].
        simpl. apply keys_set_present. congruence.
      * eexists _, _. split; [reflexivity|]. split; [reflexivity|lia].
    + eexists _, _. split; [reflexivity|]. split; [reflexivity|lia].
  - destruct (float_lt (random n) p_blur_on).
    + eexists _, _. split; [reflexivity|]. split; [|lia].
      simpl. apply keys_set_present. congruence.
    + eexists _, _. split; [reflexivity|]. split; [reflexivity|lia].
  - apply dict_get_None in G. contradiction.
Qed.

Lemma tick_fold_keeps (float : Type) (float_lt : float -> float -> bool)
    (random : nat -> float) (p_blur_on p_blur_off : float) (auto_clear : bool) :
  forall l n s,
  incl l (dict_keys (Simulator.state s)) ->
  exists n' s',
    fold_left (tick_step float float_lt random p_blur_on p_blur_off auto_clear) l
      (Some (n, s)) = Some (n', s') /\
    dict_keys (Simulator.state s') = dict_keys (Simulator.state s) /\
    (n <= n' <= n + List.length l)%nat.
Proof.
  induction l as [|cid l IH]; intros n s I.
  - exists n, s. simpl. split; [reflexivity|]. split; [reflexivity|lia].
  - destruct (tick_step_keeps float float_lt random p_blur_on p_blur_off auto_clear n s cid)
      as (n1 & s1 & E & K & B).
    { apply I. now left. }
    destruct (IH n1 s1) as (n2 & s2 & E2 & K2 & B2).
    { rewrite K. intros x Hx. apply I. now right. }
    exists n2, s2. cbn [fold_left]. rewrite E. split; [exact E2|].
    split; [congruence|]. simpl. lia.
Qed.

Lemma cause_mono (float : Type) (float_lt : float -> float -> bool)
    (random : nat -> float) (p_blur_on p_blur_off : float) (auto_clear : bool)
    n n1 n2 b :
  (n1 <= n2)%nat ->
  cause float float_lt random p_blur_on p_blur_off auto_clear n n1 b ->
  cause float float_lt random p_blur_on p_blur_off auto_clear n n2 b.
Proof.
  intros L. unfold cause. destruct b.
  - intros [A [k [R F]]]. split; [exact A|]. exists k. split; [lia|exact F].
  - intros [k [R F]]. exists k. split; [lia|exact F].
Qed.

Lemma tick_step_cause (float : Type) (float_lt : float -> float -> bool)
    (random : nat -> float) (p_blur_on p_blur_off : float) (auto_clear : bool)
    n0 cid b n s c cid' n' s' :
  (n0 <= n)%nat ->
  dict_get cid (Simulator.state s) = Some c ->
  (c = b \/ cause float float_lt random p_blur_on p_blur_off auto_clear n0 n b) ->
  tick_step float float_lt random p_blur_on p_blur_off auto_clear (Some (n, s)) cid' =
    Some (n', s') ->
  (n <= n')%nat /\
  exists c',
    dict_get cid (Simulator.state s') = Some c' /\
    (c' = b \/ cause float float_lt random p_blur_on p_blur_off auto_clear n0 n' b).
Proof.
  intros L G C. unfold tick_step.
  destruct (dict_get cid' (Simulator.state s)) as [[|]|] eqn:G'; [| |discriminate].
  - destruct auto_clear eqn:AC.
    + destruct (float_lt (random n) p_blur_off) eqn:F; intros E; inversion E; subst; clear E.
      * split; [lia|]. simpl. destruct (String.eqb_spec cid cid') as [->|N].
        -- rewrite dict_get_set_eq. exists false. split; [reflexivity|].
           destruct b; [right|now left].
           unfold cause. split; [reflexivity|]. exists n. split; [lia|exact F].
        -- rewrite dict_get_set_ne by exact N. exists c. split; [exact G|].
           destruct C as [C|C]; [now left|right]. eapply cause_mono; [|exact C]. lia.
      * split; [lia|]. exists c. split; [exact G|].
        destruct C as [C|C]; [now left|right]. eapply cause_mono; [|exact C]. lia.
    + intros E; inversion E; subst; clear E. split; [lia|]. exists c. auto.
  - destruct (float_lt (random n) p_blur_on) eqn:F; intros E; inversion E; subst; clear E.
    + split; [lia|]. simpl. destruct (String.eqb_spec cid cid') as [->|N].
      * rewrite dict_get_set_eq. exists true. split; [reflexivity|].
        destruct b; [now left|right]. exists n. split; [lia|exact F].
      * rewrite dict_get_set_ne by exact N. exists c. split; [exact G|].
        destruct C as [C|C]; [now left|right]. eapply cause_mono; [|exact C]. lia.
    + split; [lia|]. exists c. split; [exact G|].
      destruct C as [C|C]; [now left|right]. eapply cause_mono; [|exact C]. lia.
Qed.

Lemma fold_step_None (float : Type) (float_lt : float -> float -> bool)
    (random : nat -> float) (p_blur_on p_blur_off : float) (auto_clear : bool) l :
  fold_left (tick_step float float_lt random p_blur_on p_blur_off auto_clear) l None = None.
Proof. induction l; simpl; auto. Qed.

Lemma tick_fold_cause (float : Type) (float_lt : float -> float -> bool)
    (random : nat -> float) (p_blur_on p_blur_off : float) (auto_clear : bool)
    n0 cid b : forall l n s c n' s',
  (n0 <= n)%nat ->
  dict_get cid (Simulator.state s) = Some c ->
  (c = b \/ cause float float_lt random p_blur_on p_blur_off auto_clear n0 n b) ->
  fold_left (tick_step float float_lt random p_blur_on p_blur_off auto_clear) l
    (Some (n, s)) = Some (n', s') ->
  exists c',
    dict_get cid (Simulator.state s') = Some c' /\
    (c' = b \/ cause float float_lt random p_blur_on p_blur_off auto_clear n0 n' b).
Proof.
  induction l as [|cid' l IH]; intros n s c n' s' L G C E.
  - simpl in E. inversion E; subst. exists c. auto.
  - cbn [fold_left] in E.
    destruct (tick_step float float_lt random p_blur_on p_blur_off auto_clear
                (Some (n, s)) cid') as [[n1 s1]|] eqn:S1.
    + destruct (tick_step_cause float float_lt random p_blur_on p_blur_off auto_clear
                  n0 cid b n s c cid' n1 s1 L G C S1) as (L1 & c1 & G1 & C1).
      eapply IH; [|exact G1|exact C1|exact E]. lia.
    + rewrite fold_step_None in E. discriminate.
Qed.

(** X21. A tick never fails on a missing key, leaves the set and the order of
    the cameras as they are, and draws at most one random number for each
    camera. *)
Theorem tick_keeps_cameras (float : Type) (float_lt : float -> float -> bool)
    (random : nat -> float) (p_blur_on p_blur_off : float) (auto_clear : bool)
    (n : nat) (s : Simulator.t) :
  exists n' s',
    tick float float_lt random p_blur_on p_blur_off auto_clear n s = Some (n', s') /\
    dict_keys (Simulator.state s') = dict_keys (Simulator.state s) /\
    (n <= n' <= n + List.length (Simulator.state s))%nat.
Proof.
  destruct (tick_fold_keeps float float_lt random p_blur_on p_blur_off auto_clear
              (dict_keys (Simulator.state s)) n s (incl_refl _))
    as (n' & s' & E & K & B).
  exists n', s'. split; [exact E|]. split; [exact K|].
  unfold dict_keys in B. rewrite length_map in B. exact B.
Qed.

(** X22. A tick changes a camera only on a draw of that tick below the
    probability in force: a clear camera turns blurry only on a draw below
    [p_blur_on], and a blurry camera turns clear only with [auto_clear] and
    on a draw below [p_blur_off]. *)
Theorem tick_changes_need_draws (float : Type) (float_lt : float -> float -> bool)
    (random : nat -> float) (p_blur_on p_blur_off : float) (auto_clear : bool)
    (n n' : nat) (s s' : Simulator.t) (cid : string) (b : bool) :
  tick float float_lt random p_blur_on p_blur_off auto_clear n s = Some (n', s') ->
  dict_get cid (Simulator.state s) = Some b ->
  dict_get cid (Simulator.state s') = Some (negb b) ->
  if b
  then auto_clear = true /\
       exists k, (n <= k < n')%nat /\ float_lt (random k) p_blur_off = true
  else exists k, (n <= k < n')%nat /\ float_lt (random k) p_blur_on = true.
Proof.
  intros T G G'.
  destruct (tick_fold_cause float float_lt random p_blur_on p_blur_off auto_clear
              n cid b (dict_keys (Simulator.state s)) n s b n' s'
              (le_n _) G (or_introl eq_refl) T) as (c' & Gc & [C|C]).
  - rewrite G' in Gc. inversion Gc. subst c'. destruct b; discriminate.
  - exact C.
Qed.

(** *** The loop of [run] *)

Lemma observe_clear_blurry st : is_blurry (AlertEngine.observe_clear st) = false.
Proof.
  unfold AlertEngine.observe_clear.
  destruct (pending_candidate st); simpl; destruct (is_blurry st) eqn:B; simpl; auto.
Qed.

Lemma process_sets_blurry now cid b e :
  exists st,
    dict_get cid (AlertEngine.state (AlertEngine.process now cid b e)) = Some st /\
    is_blurry st = b.
Proof.
  rewrite process_state, dict_get_set_eq. eexists. split; [reflexivity|].
  destruct b.
  - apply (observe_blurry_spec now cid e (AlertEngine.state_of cid e)).
  - apply observe_clear_blurry.
Qed.

Lemma process_simulator now cid b e :
  AlertEngine.simulator (AlertEngine.process now cid b e) = AlertEngine.simulator e.
Proof. apply process_fixed. Qed.

Lemma run_observe_fold now : forall items store e,
  fold_left (run_observe now) items (store, e) =
  (store ++ map (fun item => (now, fst item, snd item)) items,
   fold_left (fun e item => AlertEngine.process now (fst item) (snd item) e) items e).
Proof.
  induction items as [|item items IH]; intros store e; cbn [fold_left map].
  - now rewrite app_nil_r.
  - unfold run_observe at 2. cbn [fst snd]. rewrite IH, <- app_assoc. reflexivity.
Qed.

Lemma observe_all_simulator now : forall (items : list (string * bool)) e,
  AlertEngine.simulator
    (fold_left (fun e item => AlertEngine.process now (fst item) (snd item) e) items e) =
  AlertEngine.simulator e.
Proof.
  induction items as [|item items IH]; intros e; cbn [fold_left]; [reflexivity|].
  rewrite IH. apply process_simulator.
Qed.

Lemma observe_all_other now cid : forall (items : list (string * bool)) e,
  ~ In cid (map fst items) ->
  dict_get cid (AlertEngine.state
    (fold_left (fun e item => AlertEngine.process now (fst item) (snd item) e) items e)) =
  dict_get cid (AlertEngine.state e).
Proof.
  induction items as [|item items IH]; intros e N; cbn [fold_left]; [reflexivity|].
  rewrite IH by (intros I; apply N; now right).
  rewrite process_state. apply dict_get_set_ne. intros E. apply N. now left.
Qed.

Lemma observe_all_blurry now : forall (items : list (string * bool)) e cid b,
  NoDup (map fst items) -> In (cid, b) items ->
  exists st,
    dict_get cid (AlertEngine.state
      (fold_left (fun e item => AlertEngine.process now (fst item) (snd item) e) items e)) =
      Some st /\
    is_blurry st = b.
Proof.
  induction items as [|item items IH]; intros e cid b ND I; [destruct I|].
  cbn [fold_left]. inversion ND as [|x l Nx ND']; subst.
  destruct I as [->|I].
  - cbn [fst snd]. rewrite observe_all_other by exact Nx. apply process_sets_blurry.
  - now apply IH.
Qed.

Lemma set_blurry_keys cam b s :
  dict_keys (Simulator.state (Simulator.set_blurry cam b s)) = dict_keys (Simulator.state s).
Proof.
  unfold Simulator.set_blurry, dict_mem.
  destruct (dict_get cam (Simulator.state s)) eqn:G; [|reflexivity].
  simpl. apply keys_set_present. congruence.
Qed.

Lemma set_blurry_get cam b s cid :
  dict_get cid (Simulator.state (Simulator.set_blurry cam b s)) =
  if String.eqb cid cam
  then option_map (fun _ => b) (dict_get cid (Simulator.state s))
  else dict_get cid (Simulator.state s).
Proof.
  unfold Simulator.set_blurry, dict_mem.
  destruct (String.eqb_spec cid cam) as [->|N].
  - destruct (dict_get cam (Simulator.state s)) eqn:G; simpl.
    + apply dict_get_set_eq.
    + exact G.
  - destruct (dict_get cam (Simulator.state s)); [|reflexivity].
    simpl. now apply dict_get_set_ne.
Qed.

Lemma after_alert_step_in_step keys now decision e cam :
  in_step_on keys e -> in_step_on keys (AlertEngine.after_alert_step now decision e cam).
Proof.
  intros (sim & S & K & A). unfold AlertEngine.after_alert_step.
  destruct (dict_get cam (AlertEngine.state e)) as [st|] eqn:G; [|exists sim; auto].
  destruct (String.eqb decision "clean").
  - exists (Simulator.set_blurry cam false sim). simpl. rewrite S. simpl.
    split; [reflexivity|]. split; [now rewrite set_blurry_keys|].
    intros cid b. rewrite set_blurry_get.
    destruct (String.eqb_spec cid cam) as [->|N].
    + rewrite dict_get_set_eq. destruct (dict_get cam (Simulator.state sim)); [|discriminate].
      simpl. intros E. inversion E. eexists. split; [reflexivity|reflexivity].
    + rewrite dict_get_set_ne by exact N. apply A.
  - exists sim. simpl. split; [exact S|]. split; [exact K|].
    intros cid b Gs. destruct (String.eqb_spec cid cam) as [->|N].
    + rewrite dict_get_set_eq. destruct (A cam b Gs) as (st' & G' & B).
      rewrite G in G'. inversion G'; subst. eexists. split; [reflexivity|reflexivity].
    + rewrite dict_get_set_ne by exact N. now apply A.
Qed.

Lemma after_alert_in_step keys now decision : forall cams e,
  in_step_on keys e -> in_step_on keys (AlertEngine._after_alert now cams decision e).
Proof.
  induction cams as [|cam cams IH]; intros e I; [exact I|].
  rewrite after_alert_cons. apply IH. now apply after_alert_step_in_step.
Qed.

Lemma handle_in_step keys now notifier n e act :
  in_step_on keys e -> in_step_on keys (snd (AlertEngine.handle now notifier (n, e) act)).
Proof.
  intros I. unfold AlertEngine.handle, AlertEngine._handle_aggregate,
    AlertEngine._handle_single. simpl.
  destruct (String.eqb (kind act) "aggregate"); [now apply after_alert_in_step|].
  destruct (candidates act) as [|c l]; [exact I|].
  destruct (dict_get (camera_id c) (AlertEngine.state e)); [|exact I].
  now apply (after_alert_in_step keys now (notifier n act) [camera_id c]).
Qed.

Lemma handles_in_step keys now notifier : forall acts n e,
  in_step_on keys e ->
  in_step_on keys (snd (fold_left (AlertEngine.handle now notifier) acts (n, e))).
Proof.
  induction acts as [|act acts IH]; intros n e I; [exact I|].
  cbn [fold_left].
  destruct (AlertEngine.handle now notifier (n, e) act) as [n1 e1] eqn:H.
  apply IH. change e1 with (snd (n1, e1)). rewrite <- H. now apply handle_in_step.
Qed.

Lemma flush_in_step {tz : LocalZone} keys now notifier e :
  in_step_on keys e -> in_step_on keys (AlertEngine.flush now notifier e).
Proof.
  intros I. unfold AlertEngine.flush.
  destruct (SiteAlertAggregator.process now (AlertEngine.aggregator e)) as [acts a'].
  apply handles_in_step. exact I.
Qed.

(** X23. After every turn of the loop of [run] the engine and the simulator
    agree on which cameras are blurry, whatever the operator answered, and the
    events file has gained one row for each camera, in the order of the
    simulator, with the state that the tick gave it. *)
Theorem run_tick_in_step {tz : LocalZone} (float : Type)
    (float_lt : float -> float -> bool) (random : nat -> float)
    (p_blur_on p_blur_off : float) (auto_clear : bool)
    (now : datetime) (notifier : Notifier) (n : nat)
    (store : list (datetime * string * bool)) (sim : Simulator.t)
    (e : AlertEngine.t) :
  NoDup (dict_keys (Simulator.state sim)) ->
  exists n' sim1 store' e' sim',
    tick float float_lt random p_blur_on p_blur_off auto_clear n sim = Some (n', sim1) /\
    run_tick float float_lt random p_blur_on p_blur_off auto_clear
      now notifier n store sim e = Some (n', store', e') /\
    store' = store ++ map (fun item => (now, fst item, snd item)) (Simulator.state sim1) /\
    AlertEngine.simulator e' = Some sim' /\
    dict_keys (Simulator.state sim') = dict_keys (Simulator.state sim) /\
    forall cid b,
      dict_get cid (Simulator.state sim') = Some b ->
      exists st, dict_get cid (AlertEngine.state e') = Some st /\ is_blurry st = b.
Proof.
  intros ND.
  destruct (tick_fold_keeps float float_lt random p_blur_on p_blur_off auto_clear
              (dict_keys (Simulator.state sim)) n sim (incl_refl _))
    as (n' & sim1 & T & K & _).
  fold (tick float float_lt random p_blur_on p_blur_off auto_clear n sim) in T.
  unfold run_tick. rewrite T. rewrite run_observe_fold.
  set (e1 := AlertEngine.with_collaborators e (Some sim1) (AlertEngine.episode_store e)).
  set (e2 := fold_left _ (Simulator.state sim1) e1).
  assert (I : in_step_on (dict_keys (Simulator.state sim)) e2).
  { exists sim1. split; [|split; [exact K|]].
    - unfold e2. now rewrite observe_all_simulator.
    - intros cid b G. unfold e2. apply observe_all_blurry.
      + fold (dict_keys (Simulator.state sim1)). now rewrite K.
      + now apply dict_get_In. }
  destruct (flush_in_step _ now notifier e2 I) as (sim' & S' & K' & A').
  exists n', sim1.
  eexists _, (AlertEngine.flush now notifier e2), sim'.
  split; [reflexivity|]. split; [reflexivity|].
  split; [reflexivity|]. split; [exact S'|]. split; [exact K'|exact A'].
Qed.

(** ** [Simulator.__init__] *)

Lemma keys_set_absent (V : Type) k (v : V) d :
  dict_get k d = None -> dict_keys (dict_set k v d) = dict_keys d ++ [k].
Proof.
  induction d as [|[k' v'] r IH]; simpl; [reflexivity|].
  destruct (String.eqb k k') eqn:E; [discriminate|].
  intros H. simpl. now rewrite IH.
Qed.

Lemma init_fold_get cid : forall ids (d : dict bool),
  dict_get cid (fold_left (fun d c => dict_set c false d) ids d) =
  if in_dec string_dec cid ids then Some false else dict_get cid d.
Proof.
  induction ids as [|a ids IH]; intros d; [reflexivity|].
  cbn [fold_left]. rewrite IH.
  destruct (in_dec string_dec cid ids) as [I|N];
    destruct (in_dec string_dec cid (a :: ids)) as [I'|N']; try reflexivity.
  - exfalso. apply N'. now right.
  - destruct I' as [->|I']; [apply dict_get_set_eq | contradiction].
  - apply dict_get_set_ne. intros ->. apply N'. now left.
Qed.

Lemma init_fold_nodup : forall ids (d : dict bool),
  NoDup (dict_keys d) ->
  NoDup (dict_keys (fold_left (fun d c => dict_set c false d) ids d)).
Proof.
  induction ids as [|a ids IH]; intros d ND; [exact ND|].
  cbn [fold_left]. apply IH. now apply NoDup_set.
Qed.

Lemma init_fold_keys : forall ids (d : dict bool),
  NoDup ids -> (forall k, In k ids -> ~ In k (dict_keys d)) ->
  dict_keys (fold_left (fun d c => dict_set c false d) ids d) = dict_keys d ++ ids.
Proof.
  induction ids as [|a ids IH]; intros d ND F; cbn [fold_left].
  - now rewrite app_nil_r.
  - inversion ND as [|x l Na ND']; subst.
    assert (G : dict_get a d = None) by (apply dict_get_None, F; now left).
    rewrite IH; [|exact ND'|].
    + rewrite (keys_set_absent _ _ _ _ G), <- app_assoc. reflexivity.
    + intros k I. rewrite (keys_set_absent _ _ _ _ G). intros J.
      apply in_app_iff in J. destruct J as [J|[<-|[]]].
      * apply (F k); [now right | exact J].
      * contradiction.
Qed.

(** X24. A new simulator holds the cameras it was given and no other, each
    of them once and clear, and in the order given when no camera is named
    twice. *)
Theorem simulator_starts_clear (camera_ids : list string) (cid : string) :
  dict_get cid (Simulator.state (Simulator_init camera_ids)) =
    (if in_dec string_dec cid camera_ids then Some false else None) /\
  NoDup (dict_keys (Simulator.state (Simulator_init camera_ids))) /\
  (NoDup camera_ids ->
   dict_keys (Simulator.state (Simulator_init camera_ids)) = camera_ids).
Proof.
  unfold Simulator_init. simpl. split; [|split].
  - now rewrite init_fold_get.
  - apply init_fold_nodup. constructor.
  - intros ND. now rewrite init_fold_keys.
Qed.

(** ** Reading back a schedule *)

Lemma digit_cases d : 0 <= d <= 9 ->
  d = 0 \/ d = 1 \/ d = 2 \/ d = 3 \/ d = 4 \/ d = 5 \/ d = 6 \/ d = 7 \/ d = 8 \/ d = 9.
Proof. lia. Qed.

Lemma digit_char_facts d : 0 <= d <= 9 ->
  is_digit (digit_char d) = true /\ digit_val (digit_char d) = d /\
  is_space (digit_char d) = false /\
  Ascii.eqb (digit_char d) "-" = false /\ Ascii.eqb (digit_char d) "," = false /\
  Ascii.eqb (digit_char d) ":" = false.
Proof.
  intros R. destruct (digit_cases d R) as [-> | [-> | [-> | [-> | [-> | [-> | [-> | [-> | [-> | ->]]]]]]]]];
    vm_compute; repeat split; reflexivity.
Qed.

Lemma parse_hour_two a b rest :
  Ascii.eqb b ":" = false ->
  parse_hour (String a (String b (String ":" rest))) =
  if is_digit a && is_digit b && (10 * digit_val a + digit_val b <=? 23)
  then Some (10 * digit_val a + digit_val b, rest)
  else None.
Proof.
  intros N. unfold parse_hour.
  destruct b as [[] [] [] [] [] [] [] []]; try reflexivity; discriminate N.
Qed.

Lemma two_digits_range n : 0 <= n <= 99 -> 0 <= n / 10 <= 9 /\ 0 <= n mod 10 <= 9.
Proof. intros R. Z.div_mod_to_equations. lia. Qed.

Lemma parse_hour_text h rest :
  0 <= h <= 23 ->
  parse_hour (two_digits h ++ String ":" rest) = Some (h, rest).
Proof.
  intros R. destruct (two_digits_range h) as [Ra Rb]; [lia|].
  destruct (digit_char_facts _ Ra) as (Da & Va & _).
  destruct (digit_char_facts _ Rb) as (Db & Vb & _ & _ & _ & Nb).
  unfold two_digits. cbn [append]. rewrite (parse_hour_two _ _ _ Nb).
  rewrite Da, Db, Va, Vb.
  assert (E : 10 * (h / 10) + h mod 10 = h) by (Z.div_mod_to_equations; lia).
  rewrite E. destruct (Z.leb_spec h 23); [reflexivity | lia].
Qed.

Lemma parse_minute_text m : 0 <= m <= 59 -> parse_minute (two_digits m) = Some m.
Proof.
  intros R. destruct (two_digits_range m) as [Ra Rb]; [lia|].
  destruct (digit_char_facts _ Ra) as (Da & Va & _).
  destruct (digit_char_facts _ Rb) as (Db & Vb & _).
  unfold two_digits, parse_minute. rewrite Da, Db, Va, Vb.
  assert (E : 10 * (m / 10) + m mod 10 = m) by (Z.div_mod_to_equations; lia).
  assert (L : m / 10 <= 5) by (Z.div_mod_to_equations; lia).
  rewrite E. destruct (Z.leb_spec (m / 10) 5); [reflexivity | lia].
Qed.

Lemma strptime_text t : whole_minute t -> strptime_HM (hhmm t) = Returned t.
Proof.
  destruct t as [h m s u]. unfold whole_minute, hhmm.
  cbn [hour minute second microsecond].
  intros (H & M & -> & ->). unfold strptime_HM.
  rewrite (parse_hour_text h _ H), (parse_minute_text m M). reflexivity.
Qed.

(** A time written [HH:MM] is five characters, none of them a space, a comma
    or a hyphen. *)
Lemma hhmm_shape t : whole_minute t ->
  exists a b c d,
    hhmm t = String a (String b (String ":" (String c (String d EmptyString)))) /\
    Forall (fun x => is_space x = false /\ Ascii.eqb x "-" = false /\
                     Ascii.eqb x "," = false) [a; b; c; d].
Proof.
  destruct t as [h m s u]. unfold whole_minute, hhmm, two_digits.
  cbn [hour minute second microsecond append].
  intros (H & M & _ & _).
  destruct (two_digits_range h) as [Ra Rb]; [lia|].
  destruct (two_digits_range m) as [Rc Rd]; [lia|].
  eexists _, _, _, _. split; [reflexivity|].
  repeat constructor;
    match goal with
    | |- context [digit_char ?x] =>
        first [ apply (digit_char_facts x Ra) | apply (digit_char_facts x Rb)
              | apply (digit_char_facts x Rc) | apply (digit_char_facts x Rd) ]
    end.
Qed.

Lemma split_on_app sep : forall a b,
  has_char sep a = false ->
  split_on sep (a ++ String sep b) = a :: split_on sep b.
Proof.
  induction a as [|c r IH]; intros b H.
  - simpl. now rewrite Ascii.eqb_refl.
  - simpl in H. apply orb_false_iff in H. destruct H as [C H].
    cbn [append split_on]. rewrite C, (IH b H). reflexivity.
Qed.

Lemma has_char_app c a b : has_char c (a ++ b) = has_char c a || has_char c b.
Proof.
  induction a as [|x r IH]; simpl; [reflexivity|]. now rewrite IH, orb_assoc.
Qed.

Lemma lstrip_keep c r : is_space c = false -> lstrip (String c r) = String c r.
Proof. intros H. simpl. now rewrite H. Qed.

Lemma rstrip_keep c : is_space c = false -> forall s,
  rstrip (s ++ String c EmptyString) = (s ++ String c EmptyString)%string.
Proof.
  intros H. induction s as [|x r IH]; simpl.
  - now rewrite H.
  - rewrite IH. destruct r; reflexivity.
Qed.

Lemma strip_hhmm t : whole_minute t ->
  strip (hhmm t) = hhmm t /\ has_char "-" (hhmm t) = false /\
  has_char "," (hhmm t) = false.
Proof.
  intros W. destruct (hhmm_shape t W) as (a & b & c & d & -> & F).
  inversion F as [|? ? (Sa & Ha & Ca) F1]; subst.
  inversion F1 as [|? ? (Sb & Hb & Cb) F2]; subst.
  inversion F2 as [|? ? (Sc & Hc & Cc) F3]; subst.
  inversion F3 as [|? ? (Sd & Hd & Cd) _]; subst.
  split; [|split].
  - unfold strip. rewrite (lstrip_keep a _ Sa).
    apply (rstrip_keep d Sd (String a (String b (String ":" (String c EmptyString))))).
  - simpl. now rewrite Ha, Hb, Hc, Hd.
  - simpl. now rewrite Ca, Cb, Cc, Cd.
Qed.

Lemma parse_window_text w :
  whole_minute (fst w) -> whole_minute (snd w) ->
  parse_window (window_text w) = Returned w.
Proof.
  destruct w as [s e]. cbn [fst snd]. intros Ws We.
  destruct (strip_hhmm s Ws) as (Ss & Hs & _).
  destruct (strip_hhmm e We) as (Se & He & _).
  unfold parse_window, window_text. cbn [fst snd].
  rewrite (split_on_app "-" _ _ Hs), (split_on_no_sep "-" _ He).
  rewrite Ss, Se, (strptime_text s Ws), (strptime_text e We). reflexivity.
Qed.

Lemma strip_window_text w :
  whole_minute (fst w) -> whole_minute (snd w) ->
  strip (window_text w) = window_text w /\ has_char "," (window_text w) = false /\
  window_text w <> EmptyString.
Proof.
  destruct w as [s e]. cbn [fst snd]. intros Ws We.
  destruct (strip_hhmm s Ws) as (_ & _ & Cs).
  destruct (strip_hhmm e We) as (_ & _ & Ce).
  unfold window_text. cbn [fst snd].
  split; [|split].
  - destruct (hhmm_shape s Ws) as (a & b & c & d & Es & Fs).
    destruct (hhmm_shape e We) as (a' & b' & c' & d' & Ee & Fe).
    rewrite Es, Ee.
    inversion Fs as [|? ? (Sa & _) _]; subst.
    inversion Fe as [|? ? _ F1]; subst. inversion F1 as [|? ? _ F2]; subst.
    inversion F2 as [|? ? _ F3]; subst. inversion F3 as [|? ? (Sd & _) _]; subst.
    unfold strip. cbn [append]. rewrite (lstrip_keep a _ Sa).
    apply (rstrip_keep d' Sd
             (String a (String b (String ":" (String c (String d (String "-"
                (String a' (String b' (String ":" (String c' EmptyString))))))))))).
  - rewrite has_char_app, Cs.
    change (has_char "," (String "-" (hhmm e)))
      with (Ascii.eqb "-" "," || has_char "," (hhmm e)).
    rewrite Ce. reflexivity.
  - destruct (hhmm_shape s Ws) as (a & b & c & d & -> & _). discriminate.
Qed.

Lemma chunk_of_text w :
  whole_minute (fst w) -> whole_minute (snd w) ->
  window_of_chunk (window_text w) = [w] /\ warning_of_chunk (window_text w) = [].
Proof.
  intros W1 W2. destruct (strip_window_text w W1 W2) as (S & _ & N).
  unfold window_of_chunk, warning_of_chunk.
  rewrite S, (parse_window_text w W1 W2).
  split; [reflexivity|]. destruct (window_text w); [congruence | reflexivity].
Qed.

Lemma split_commas_text : forall ws,
  Forall (fun w => whole_minute (fst w) /\ whole_minute (snd w)) ws ->
  ws <> [] ->
  split_on "," (join_commas (map window_text ws)) = map window_text ws.
Proof.
  induction ws as [|w ws IH]; intros F N; [congruence|].
  inversion F as [|? ? [W1 W2] F']; subst.
  destruct (strip_window_text w W1 W2) as (_ & C & _).
  destruct ws as [|w' ws].
  - change (join_commas (map window_text [w])) with (window_text w).
    now apply split_on_no_sep.
  - change (join_commas (map window_text (w :: w' :: ws)))
      with (window_text w ++ String "," (join_commas (map window_text (w' :: ws))))%string.
    rewrite (split_on_app "," _ _ C), IH; [reflexivity | exact F' | discriminate].
Qed.

Lemma chunks_of_text : forall ws,
  Forall (fun w => whole_minute (fst w) /\ whole_minute (snd w)) ws ->
  flat_map window_of_chunk (map window_text ws) = ws /\
  flat_map warning_of_chunk (map window_text ws) = [].
Proof.
  induction ws as [|w ws IH]; intros F; [split; reflexivity|].
  inversion F as [|? ? [W1 W2] F']; subst.
  destruct (chunk_of_text w W1 W2) as [A B]. destruct (IH F') as [A' B'].
  cbn [map flat_map]. rewrite A, B, A', B'. split; reflexivity.
Qed.

(** X25. Windows written [HH:MM-HH:MM] and separated by commas are read back
    as they were written: [parse_washdown_schedule] returns them all, in
    order, and prints no warning. *)
Theorem parse_reads_back_windows ws :
  Forall (fun w => whole_minute (fst w) /\ whole_minute (snd w)) ws ->
  parse_washdown_schedule (Some (join_commas (map window_text ws))) = Returned (ws, []).
Proof.
  intros F. destruct ws as [|w ws]; [reflexivity|].
  destruct (chunks_of_text _ F) as [A B].
  pose proof (split_commas_text _ F ltac:(discriminate)) as S.
  unfold parse_washdown_schedule.
  destruct (join_commas (map window_text (w :: ws))) as [|c r] eqn:J.
  - cbn [split_on map] in S. inversion S.
  - rewrite S, parse_chunks_spec, A, B. reflexivity.
Qed.

Lemma parse_reads_back_windows_witness :
  parse_washdown_schedule (Some "22:00-02:30,06:05-07:00"%string) =
  Returned ([(mk_dtime 22 0 0 0, mk_dtime 2 30 0 0);
             (mk_dtime 6 5 0 0, mk_dtime 7 0 0 0)], []).
Proof.
  apply (parse_reads_back_windows
           [(mk_dtime 22 0 0 0, mk_dtime 2 30 0 0); (mk_dtime 6 5 0 0, mk_dtime 7 0 0 0)]).
  repeat constructor; cbn [fst snd hour minute second microsecond]; lia.
Defined.

(** ** Examples *)

Lemma demo_pending_driven : @driven utc_zone demo_pending.
Proof. unfold demo_pending, demo_engine. apply driven_process, driven_init. Qed.

Lemma demo_sim_nodup : NoDup (dict_keys (Simulator.state demo_sim)).
Proof. unfold demo_sim, Simulator_init. apply init_fold_nodup. constructor. Qed.

Lemma enqueue_other_site_leaves_stale_witness :
  agg_wf demo_alone /\
  dict_get "CAM-01" (_pending_by_camera demo_alone) = Some demo_c1 /\
  site_id demo_c1 <> site_id demo_moved /\
  dict_get "CAM-01"
    (site_pool_of "SiteA" (cancel "CAM-01" (enqueue demo_moved demo_alone))) =
    Some demo_c1.
Proof.
  split; [apply agg_wfb_sound; vm_compute; reflexivity|].
  split; [vm_compute; reflexivity|].
  split; [discriminate|].
  apply (enqueue_other_site_leaves_stale demo_alone demo_moved demo_c1
           (agg_wfb_sound demo_alone eq_refl) eq_refl).
  discriminate.
Defined.

Lemma pools_stay_consistent_witness :
  agg_wf demo_pair /\ agg_wf (cancel "CAM-01" demo_pair).
Proof.
  split; [apply agg_wfb_sound; vm_compute; reflexivity|].
  apply (@pools_stay_consistent utc_zone demo_pair (agg_wfb_sound demo_pair eq_refl)).
Defined.

Lemma flush_takes_what_it_dispatches_witness :
  agg_wf demo_alone /\
  (In ("CAM-01"%string, demo_c1)
      (_pending_by_camera (snd (@process utc_zone 0 demo_alone))) ->
   0 - ready_at demo_c1 < window demo_alone).
Proof.
  split; [apply agg_wfb_sound; vm_compute; reflexivity|].
  apply (@flush_takes_what_it_dispatches utc_zone 0 demo_alone "CAM-01" demo_c1
           (agg_wfb_sound demo_alone eq_refl)).
Defined.

Lemma dispatched_actions_shape_witness :
  agg_wf demo_pair /\
  In (mkAlertAction "aggregate" [demo_c1; demo_c2] "SiteA" false)
     (fst (@process utc_zone 0 demo_pair)) /\
  candidates (mkAlertAction "aggregate" [demo_c1; demo_c2] "SiteA" false) <> [].
Proof.
  split; [apply agg_wfb_sound; vm_compute; reflexivity|].
  split; [left; reflexivity|].
  apply (@dispatched_actions_shape utc_zone 0 demo_pair
           (mkAlertAction "aggregate" [demo_c1; demo_c2] "SiteA" false)
           (agg_wfb_sound demo_pair eq_refl)).
  left. reflexivity.
Defined.

Lemma one_action_per_camera_witness :
  agg_wf demo_pair /\
  NoDup (dispatched_cameras (fst (@process utc_zone 0 demo_pair))).
Proof.
  split; [apply agg_wfb_sound; vm_compute; reflexivity|].
  apply (@one_action_per_camera utc_zone 0 demo_pair).
  apply agg_wfb_sound. vm_compute. reflexivity.
Defined.

Lemma second_flush_is_empty_witness :
  agg_wf demo_pair /\
  fst (@process utc_zone 0 (snd (@process utc_zone 0 demo_pair))) = [].
Proof.
  split; [apply agg_wfb_sound; vm_compute; reflexivity|].
  apply (@second_flush_is_empty utc_zone 0 demo_pair).
  apply agg_wfb_sound. vm_compute. reflexivity.
Defined.

Lemma aggregates_before_singles_witness :
  agg_wf demo_pair /\
  exists aggs singles,
    fst (@process utc_zone 0 demo_pair) = aggs ++ singles /\
    Forall (fun act => kind act = "aggregate"%string) aggs /\
    Forall (fun act => kind act = "single"%string) singles /\
    map action_site_id aggs =
    dict_keys (filter (fun item => quorum 0 demo_pair (fst item) (snd item))
                 (_pending_by_site demo_pair)).
Proof.
  split; [apply agg_wfb_sound; vm_compute; reflexivity|].
  apply (@aggregates_before_singles utc_zone 0 demo_pair).
  apply agg_wfb_sound. vm_compute. reflexivity.
Defined.

Lemma cooldown_only_moves_forward_witness :
  agg_wf demo_cooldown /\
  (forall cd, dict_get "SiteA" (_site_cooldown demo_cooldown) = Some cd ->
     exists cd',
       dict_get "SiteA"
         (_site_cooldown (snd (@process utc_zone 20000000 demo_cooldown))) = Some cd' /\
       cd <= cd').
Proof.
  split; [apply agg_wfb_sound; vm_compute; reflexivity|].
  apply (@cooldown_only_moves_forward utc_zone 20000000 demo_cooldown "SiteA").
  apply agg_wfb_sound. vm_compute. reflexivity.
Defined.

Lemma state_fields_agree_witness :
  @reachable utc_zone demo_realert /\
  dict_get "CAM-01" (AlertEngine.state demo_realert) =
    Some (mkCameraAlertState true (Some 0) (Some 1000000) true true) /\
  (true = true <-> Some 0 <> None).
Proof.
  split; [exact demo_realert_reachable|].
  split; [vm_compute; reflexivity|].
  apply (@state_fields_agree utc_zone demo_realert "CAM-01"
           (mkCameraAlertState true (Some 0) (Some 1000000) true true)
           demo_realert_reachable eq_refl).
Defined.

Lemma one_candidate_per_blur_run_witness :
  is_blurry (AlertEngine.state_of "CAM-01" demo_slow) = false /\
  AlertEngine.aggregator
    (observe_run "CAM-01" [0; 5000000; 10000000; 15000000] demo_slow) =
  enqueue (candidate_of demo_slow "CAM-01" 0 10000000) (AlertEngine.aggregator demo_slow).
Proof.
  split; [reflexivity|].
  apply (one_candidate_per_blur_run demo_slow "CAM-01" 0 [5000000; 10000000; 15000000]
           eq_refl eq_refl eq_refl).
Defined.

Lemma flush_applies_answers_witness :
  agg_wf (AlertEngine.aggregator demo_pending) /\
  AlertEngine.aggregator (@AlertEngine.flush utc_zone 0 ignore_all demo_pending) =
  snd (@process utc_zone 0 (AlertEngine.aggregator demo_pending)).
Proof.
  split; [apply agg_wfb_sound; vm_compute; reflexivity|].
  apply (@flush_applies_answers utc_zone 0 ignore_all demo_pending "CAM-01").
  apply agg_wfb_sound. vm_compute. reflexivity.
Defined.

Lemma pending_iff_pooled_witness :
  @driven utc_zone demo_pending /\
  ((exists c,
      dict_get "CAM-01" (_pending_by_camera (AlertEngine.aggregator demo_pending)) =
      Some c) <->
   (exists st, dict_get "CAM-01" (AlertEngine.state demo_pending) = Some st /\
               pending_candidate st = true)).
Proof.
  split; [exact demo_pending_driven|].
  apply (@pending_iff_pooled utc_zone demo_pending "CAM-01" demo_pending_driven).
Defined.

Lemma clear_observation_resets_witness :
  @driven utc_zone demo_pending /\
  dict_get "CAM-01"
    (AlertEngine.state (AlertEngine.process 1000000 "CAM-01" false demo_pending)) =
  Some (mkCameraAlertState false None None false false).
Proof.
  split; [exact demo_pending_driven|].
  apply (@clear_observation_resets utc_zone demo_pending 1000000 "CAM-01"
           demo_pending_driven).
Defined.

Lemma idle_flush_changes_nothing_witness :
  _pending_by_camera (AlertEngine.aggregator demo_engine) = [] /\
  _pending_by_site (AlertEngine.aggregator demo_engine) = [] /\
  @AlertEngine.flush utc_zone 0 ignore_all demo_engine = demo_engine.
Proof.
  split; [reflexivity|]. split; [reflexivity|].
  apply (@idle_flush_changes_nothing utc_zone 0 ignore_all demo_engine eq_refl eq_refl).
Defined.

Lemma tick_changes_need_draws_witness :
  tick Z Z.ltb demo_draws 80 200 false 0 demo_sim =
    Some (2%nat, Simulator.mk [("CAM-01"%string, true); ("CAM-02"%string, true)]) /\
  exists k, (0 <= k < 2)%nat /\ Z.ltb (demo_draws k) 80 = true.
Proof.
  split; [reflexivity|].
  apply (tick_changes_need_draws Z Z.ltb demo_draws 80 200 false 0%nat 2%nat demo_sim
           (Simulator.mk [("CAM-01"%string, true); ("CAM-02"%string, true)])
           "CAM-01" false eq_refl eq_refl eq_refl).
Defined.

Lemma run_tick_in_step_witness :
  NoDup (dict_keys (Simulator.state demo_sim)) /\
  exists n' sim1 store' e' sim',
    tick Z Z.ltb demo_draws 80 200 false 0 demo_sim = Some (n', sim1) /\
    @run_tick utc_zone Z Z.ltb demo_draws 80 200 false
      0 ignore_all 0 [] demo_sim demo_run_engine = Some (n', store', e') /\
    store' = [] ++ map (fun item => (0, fst item, snd item)) (Simulator.state sim1) /\
    AlertEngine.simulator e' = Some sim' /\
    dict_keys (Simulator.state sim') = dict_keys (Simulator.state demo_sim) /\
    forall cid b,
      dict_get cid (Simulator.state sim') = Some b ->
      exists st, dict_get cid (AlertEngine.state e') = Some st /\ is_blurry st = b.
Proof.
  split; [exact demo_sim_nodup|].
  apply (@run_tick_in_step utc_zone Z Z.ltb demo_draws 80 200 false
           0 ignore_all 0%nat [] demo_sim demo_run_engine demo_sim_nodup).
Defined.
